(** * Leadership assessment backend: confidential-identity tokens and
      response storage

    A shallow embedding of the backend's encryption utility
    ([EncryptionService]), the bundled token utility ([generateToken]) and the
    request handlers of the Express server, together with the properties of
    the specification that concern them.

    Conventions of the embedding.
    - A [Buffer] is a list of bytes; a byte is an [ascii] (eight bits).
    - JavaScript strings are [string]s, read as their UTF-8 bytes, so that
      encoding a string as ["utf8"] is the identity on the representation;
      the strings are those of well-formed Unicode.
    - JavaScript numbers are given by decimals: the digits and the point
      that [Number::toString] prints.  Which decimals are doubles, and
      which double a literal denotes, is an operation of the platform.
    - Platform functions (Node's [Buffer] base64 codec, [JSON.stringify],
      [JSON.parse]) are modelled by executable definitions; the block ciphers
      and the digest of Node's [crypto] module, the rounding of a decimal
      to a double and the input conversions and the collation of
      PostgreSQL are operations of the record [Platform].
    - [crypto.randomBytes], [gen_random_uuid()] and [CURRENT_TIMESTAMP] are
      state passing over an explicit entropy source, identifier counter and
      clock value. *)

From Stdlib Require Import String Ascii List Bool Arith NArith ZArith QArith Lia.
From Stdlib Require Import Permutation Sorted.
From Stdlib Require DecimalFacts DecimalN.
Import ListNotations.
Close Scope Q_scope.
Close Scope Z_scope.


(* ================================================================== *)
(** * Part I. The embedding                                           *)
(* ================================================================== *)

(** ** Buffers *)

Definition byte := ascii.
Definition Buffer := list byte.

(** [buf.subarray(start, end)] and [buf.subarray(start)] for non-negative
    arguments: both ends are clamped to the buffer. *)
Definition subarray (b : Buffer) (start stop : nat) : Buffer :=
  firstn (stop - start) (skipn start b).

Definition subarray_from (b : Buffer) (start : nat) : Buffer :=
  skipn start b.

(** [Buffer.from(s, "utf8")] and [buf.toString("utf8")] on the byte
    representation of strings. *)
Definition utf8_encode (s : string) : Buffer := list_ascii_of_string s.
Definition utf8_decode (b : Buffer) : string := string_of_list_ascii b.

(** ** Base64 (Node's [Buffer] codec) *)

Module Base64.

(** Six bits, most significant first. *)
Inductive sextet : Type :=
  Sextet (b5 b4 b3 b2 b1 b0 : bool).

Definition bit (b : bool) (w : N) : N := if b then w else 0%N.

Definition sextet_to_N (s : sextet) : N :=
  let 'Sextet b5 b4 b3 b2 b1 b0 := s in
  (bit b5 32 + bit b4 16 + bit b3 8 + bit b2 4 + bit b1 2 + bit b0 1)%N.

Definition sextet_of_N (n : N) : sextet :=
  Sextet (N.testbit n 5) (N.testbit n 4) (N.testbit n 3)
         (N.testbit n 2) (N.testbit n 1) (N.testbit n 0).

Definition alphabet_std : string :=
  "ABCDEFGHIJKLMNOPQRSTUVWXYZabcdefghijklmnopqrstuvwxyz0123456789+/".
Definition alphabet_url : string :=
  "ABCDEFGHIJKLMNOPQRSTUVWXYZabcdefghijklmnopqrstuvwxyz0123456789-_".

Definition encode_char (url : bool) (s : sextet) : ascii :=
  nth (N.to_nat (sextet_to_N s))
      (list_ascii_of_string (if url then alphabet_url else alphabet_std))
      "A"%char.

(** Node's decoding table [unbase64]: one table for both alphabets, so
    ["+"] and ["-"] both mean 62, ["/"] and ["_"] both mean 63. *)
Definition unbase64 (c : ascii) : option sextet :=
  let n := N_of_ascii c in
  if ((65 <=? n) && (n <=? 90))%N then Some (sextet_of_N (n - 65))
  else if ((97 <=? n) && (n <=? 122))%N then Some (sextet_of_N (n - 71))
  else if ((48 <=? n) && (n <=? 57))%N then Some (sextet_of_N (n + 4))
  else if ((n =? 43) || (n =? 45))%N then Some (sextet_of_N 62)
  else if ((n =? 47) || (n =? 95))%N then Some (sextet_of_N 63)
  else None.

(** The four sextets of three bytes.  An [ascii] lists its bits least
    significant first. *)
Definition split3 (a b c : byte) : sextet * sextet * sextet * sextet :=
  let 'Ascii a0 a1 a2 a3 a4 a5 a6 a7 := a in
  let 'Ascii b0 b1 b2 b3 b4 b5 b6 b7 := b in
  let 'Ascii c0 c1 c2 c3 c4 c5 c6 c7 := c in
  (Sextet a7 a6 a5 a4 a3 a2, Sextet a1 a0 b7 b6 b5 b4,
   Sextet b3 b2 b1 b0 c7 c6, Sextet c5 c4 c3 c2 c1 c0).

(** Sextets of a buffer: a trailing single byte gives two sextets, a
    trailing pair three. *)
Fixpoint sextets (bs : Buffer) : list sextet :=
  match bs with
  | [] => []
  | [a] => let '(s1, s2, _, _) := split3 a zero zero in [s1; s2]
  | [a; b] => let '(s1, s2, s3, _) := split3 a b zero in [s1; s2; s3]
  | a :: b :: c :: rest =>
      let '(s1, s2, s3, s4) := split3 a b c in
      s1 :: s2 :: s3 :: s4 :: sextets rest
  end.

(** ["base64"] output is padded with ["="] to a multiple of four
    characters; ["base64url"] output is not padded. *)
Definition padding (url : bool) (len : nat) : list ascii :=
  if url then []
  else match len mod 3 with
       | 1 => ["="; "="]%char
       | 2 => ["="]%char
       | _ => []
       end.

Definition encode_chars (url : bool) (bs : Buffer) : list ascii :=
  map (encode_char url) (sextets bs) ++ padding url (length bs).

(** [buf.toString("base64")] and [buf.toString("base64url")]. *)
Definition encode (url : bool) (bs : Buffer) : string :=
  string_of_list_ascii (encode_chars url bs).

(** Decoding is forgiving: a character outside the table is skipped and
    the first ["="] ends the input ([base64_decode_group_slow]). *)
Fixpoint legal_prefix (cs : list ascii) : list sextet :=
  match cs with
  | [] => []
  | c :: rest =>
      match unbase64 c with
      | Some s => s :: legal_prefix rest
      | None => if (c =? "=")%char then [] else legal_prefix rest
      end
  end.

(** [((hi & 0x3F) << 2) | ((lo & 0x30) >> 4)] and the two bytes that
    follow it in a group of four. *)
Definition join1 (hi lo : sextet) : byte :=
  let 'Sextet h5 h4 h3 h2 h1 h0 := hi in
  let 'Sextet l5 l4 _ _ _ _ := lo in
  Ascii l4 l5 h0 h1 h2 h3 h4 h5.

Definition join2 (hi lo : sextet) : byte :=
  let 'Sextet _ _ h3 h2 h1 h0 := hi in
  let 'Sextet l5 l4 l3 l2 _ _ := lo in
  Ascii l2 l3 l4 l5 h0 h1 h2 h3.

Definition join3 (hi lo : sextet) : byte :=
  let 'Sextet _ _ _ _ h1 h0 := hi in
  let 'Sextet l5 l4 l3 l2 l1 l0 := lo in
  Ascii l0 l1 l2 l3 l4 l5 h0 h1.

(** A complete group of four gives three bytes; a trailing group of
    three gives two, of two gives one, and a single trailing character
    gives none. *)
Fixpoint regroup (ss : list sextet) : Buffer :=
  match ss with
  | s1 :: s2 :: s3 :: s4 :: rest =>
      join1 s1 s2 :: join2 s2 s3 :: join3 s3 s4 :: regroup rest
  | [s1; s2; s3] => [join1 s1 s2; join2 s2 s3]
  | [s1; s2] => [join1 s1 s2]
  | _ => []
  end.

(** [Buffer.from(s, "base64")] and [Buffer.from(s, "base64url")]: the
    same decoder serves both encodings. *)
Definition decode (s : string) : Buffer :=
  regroup (legal_prefix (list_ascii_of_string s)).

End Base64.

(** ** Numbers *)

Inductive digit : Type :=
  dig0 | dig1 | dig2 | dig3 | dig4 | dig5 | dig6 | dig7 | dig8 | dig9.

(** A decimal: the number [0.digits * 10^point], negated when
    [negative].  Leading and trailing zeros do not change the number, so
    one number has many decimals. *)
Record decimal : Type := {
  negative : bool;
  digits : list digit;
  point : Z
}.

(** The Number values [JSON.parse] can return: a finite number, given by
    a decimal of it, or an infinity (the value of a literal beyond the
    range of the doubles).  A double is given by the decimal that
    [Number::toString] prints for it, the shortest that denotes it and
    no other double; the platform tells which decimals these are
    ([number_value] below).  There is one zero, as there is for [==] and
    [===]. *)
Inductive number : Type :=
| Finite (d : decimal)
| Infinite (negative : bool).

(** ** JSON values, [JSON.stringify] and [JSON.parse] *)

(** The values [JSON.parse] can return; an object is the list of its
    properties in enumeration order. *)
Unset Elimination Schemes.
Inductive json : Type :=
| JNull
| JBool (b : bool)
| JNum (n : number)
| JStr (s : string)
| JArr (elems : list json)
| JObj (members : list (string * json)).
Set Elimination Schemes.

(** Induction on values, with the hypothesis for every element of an
    array and every property of an object. *)
Section JsonInduction.
Variable P : json -> Prop.
Hypothesis Hnull : P JNull.
Hypothesis Hbool : forall b, P (JBool b).
Hypothesis Hnum : forall n, P (JNum n).
Hypothesis Hstr : forall s, P (JStr s).
Hypothesis Harr : forall elems, Forall P elems -> P (JArr elems).
Hypothesis Hobj :
  forall members, Forall (fun kv => P (snd kv)) members -> P (JObj members).

Fixpoint json_ind (v : json) : P v :=
  match v with
  | JNull => Hnull
  | JBool b => Hbool b
  | JNum n => Hnum n
  | JStr s => Hstr s
  | JArr elems =>
      Harr elems ((fix all (l : list json) : Forall P l :=
               match l return Forall P l with
               | [] => Forall_nil P
               | e :: l' => Forall_cons e (json_ind e) (all l')
               end) elems)
  | JObj members =>
      Hobj members ((fix all (l : list (string * json))
                : Forall (fun kv => P (snd kv)) l :=
               match l return Forall (fun kv => P (snd kv)) l with
               | [] => Forall_nil _
               | kv :: l' =>
                   @Forall_cons _ (fun kv => P (snd kv)) kv l'
                     (json_ind (snd kv)) (all l')
               end) members)
  end.
End JsonInduction.

Module Json.

Definition c_quote : ascii := "034".
Definition c_backslash : ascii := "092".
Definition c_tab : ascii := "009".
Definition c_lf : ascii := "010".
Definition c_cr : ascii := "013".

Definition chars (s : string) : list ascii := list_ascii_of_string s.

(** *** Serialisation *)

Definition hex_digit (n : N) : ascii :=
  nth (N.to_nat n) (chars "0123456789abcdef") "0"%char.

(** One character of [QuoteJSONString]. *)
Definition escape_char (c : ascii) : list ascii :=
  let n := N_of_ascii c in
  if (n =? 8)%N then [c_backslash; "b"%char]
  else if (n =? 9)%N then [c_backslash; "t"%char]
  else if (n =? 10)%N then [c_backslash; "n"%char]
  else if (n =? 12)%N then [c_backslash; "f"%char]
  else if (n =? 13)%N then [c_backslash; "r"%char]
  else if (n =? 34)%N then [c_backslash; c_quote]
  else if (n =? 92)%N then [c_backslash; c_backslash]
  else if (n <? 32)%N then
    [c_backslash; "u"; "0"; "0"; hex_digit (n / 16); hex_digit (n mod 16)]%char
  else [c].

Definition QuoteJSONString (s : string) : list ascii :=
  c_quote :: flat_map escape_char (chars s) ++ [c_quote].

Fixpoint uint_chars (u : Decimal.uint) : list ascii :=
  match u with
  | Decimal.Nil => []
  | Decimal.D0 u => "0"%char :: uint_chars u
  | Decimal.D1 u => "1"%char :: uint_chars u
  | Decimal.D2 u => "2"%char :: uint_chars u
  | Decimal.D3 u => "3"%char :: uint_chars u
  | Decimal.D4 u => "4"%char :: uint_chars u
  | Decimal.D5 u => "5"%char :: uint_chars u
  | Decimal.D6 u => "6"%char :: uint_chars u
  | Decimal.D7 u => "7"%char :: uint_chars u
  | Decimal.D8 u => "8"%char :: uint_chars u
  | Decimal.D9 u => "9"%char :: uint_chars u
  end.

Definition digit_char (d : digit) : ascii :=
  match d with
  | dig0 => "0" | dig1 => "1" | dig2 => "2" | dig3 => "3" | dig4 => "4"
  | dig5 => "5" | dig6 => "6" | dig7 => "7" | dig8 => "8" | dig9 => "9"
  end%char.

Fixpoint uint_digits (u : Decimal.uint) : list digit :=
  match u with
  | Decimal.Nil => []
  | Decimal.D0 u => dig0 :: uint_digits u
  | Decimal.D1 u => dig1 :: uint_digits u
  | Decimal.D2 u => dig2 :: uint_digits u
  | Decimal.D3 u => dig3 :: uint_digits u
  | Decimal.D4 u => dig4 :: uint_digits u
  | Decimal.D5 u => dig5 :: uint_digits u
  | Decimal.D6 u => dig6 :: uint_digits u
  | Decimal.D7 u => dig7 :: uint_digits u
  | Decimal.D8 u => dig8 :: uint_digits u
  | Decimal.D9 u => dig9 :: uint_digits u
  end.

Fixpoint digits_uint (l : list digit) : Decimal.uint :=
  match l with
  | [] => Decimal.Nil
  | d :: rest =>
      (match d with
       | dig0 => Decimal.D0 | dig1 => Decimal.D1 | dig2 => Decimal.D2
       | dig3 => Decimal.D3 | dig4 => Decimal.D4 | dig5 => Decimal.D5
       | dig6 => Decimal.D6 | dig7 => Decimal.D7 | dig8 => Decimal.D8
       | dig9 => Decimal.D9
       end) (digits_uint rest)
  end.

(** *** Numbers *)

Fixpoint strip_zeros (l : list digit) : list digit :=
  match l with
  | dig0 :: rest => strip_zeros rest
  | _ => l
  end.

Fixpoint leading_zeros (l : list digit) : nat :=
  match l with
  | dig0 :: rest => S (leading_zeros rest)
  | _ => 0
  end.

Fixpoint strip_trailing (l : list digit) : list digit :=
  match l with
  | [] => []
  | d :: rest =>
      match strip_trailing rest, d with
      | [], dig0 => []
      | rest', _ => d :: rest'
      end
  end.

Definition zero : decimal := {| negative := false; digits := []; point := 0 |}.

(** The decimal of a number without superfluous digits: the first and
    the last digit are not zero, and zero has no digit at all.  These are
    the integers [s], [k] (the number of digits) and [n] (the point) of
    [Number::toString]. *)
Definition normal (d : decimal) : decimal :=
  match strip_trailing (strip_zeros (digits d)) with
  | [] => zero
  | s => {| negative := negative d;
            digits := s;
            point := (point d - Z.of_nat (leading_zeros (digits d)))%Z |}
  end.

Definition exponent_chars (e : Z) : list ascii :=
  "e"%char :: (if (e <? 0)%Z then "-"%char else "+"%char)
    :: uint_chars (N.to_uint (Z.abs_N e)).

(** [Number::toString] of a positive number whose normal decimal has the
    digits [first :: rest] and the point [n]: plain digits when [n] is
    from -5 to 21, the exponent form otherwise. *)
Definition positive_chars (first : digit) (rest : list digit) (n : Z)
    : list ascii :=
  let s := first :: rest in
  let k := Z.of_nat (length s) in
  if ((-5 <=? n) && (n <=? 21))%Z then
    if (k <=? n)%Z then
      map digit_char s ++ repeat "0"%char (Z.to_nat (n - k))
    else if (0 <? n)%Z then
      map digit_char (firstn (Z.to_nat n) s)
      ++ "."%char :: map digit_char (skipn (Z.to_nat n) s)
    else
      "0"%char :: "."%char :: repeat "0"%char (Z.to_nat (- n)) ++ map digit_char s
  else
    match rest with
    | [] => digit_char first :: exponent_chars (n - 1)
    | _ => digit_char first :: "."%char
             :: map digit_char rest ++ exponent_chars (n - 1)
    end.

(** [Number::toString] of the number with the normal decimal [x]. *)
Definition decimal_chars (x : decimal) : list ascii :=
  match digits x with
  | [] => ["0"%char]
  | first :: rest =>
      (if negative x then ["-"%char] else [])
      ++ positive_chars first rest (point x)
  end.

(** [SerializeJSONProperty] on a Number: [ToString] when it is finite,
    ["null"] otherwise. *)
Definition number_chars (x : number) : list ascii :=
  match x with
  | Finite d => decimal_chars (normal d)
  | Infinite _ => chars "null"
  end.

(** The Number of an integer. *)
Definition integer (z : Z) : number :=
  let s := uint_digits (N.to_uint (Z.abs_N z)) in
  Finite (normal {| negative := (z <? 0)%Z;
                    digits := s;
                    point := Z.of_nat (length s) |}).

Fixpoint join_comma (parts : list (list ascii)) : list ascii :=
  match parts with
  | [] => []
  | [x] => x
  | x :: rest => x ++ ","%char :: join_comma rest
  end.

(** [Get(value, P)] on an object given by its property list. *)
Fixpoint get_property {A : Type} (P : string) (members : list (string * A)) : option A :=
  match members with
  | [] => None
  | (k, x) :: rest => if String.eqb k P then Some x else get_property P rest
  end.

(** The properties [SerializeJSONObject] visits: every own property when
    there is no property list, otherwise the names of the property list,
    in its order, that the object has. *)
Definition select_properties {A : Type} (K : option (list string))
    (members : list (string * A)) : list (string * A) :=
  match K with
  | None => members
  | Some names =>
      flat_map (fun P => match get_property P members with
                         | Some x => [(P, x)]
                         | None => []
                         end) names
  end.

(** [SerializeJSONProperty] with the optional [PropertyList] [K].  The
    property list is in force at every depth of the value. *)
Fixpoint SerializeJSONProperty (K : option (list string)) (v : json) : list ascii :=
  match v with
  | JNull => chars "null"
  | JBool b => chars (if b then "true" else "false")
  | JNum n => number_chars n
  | JStr s => QuoteJSONString s
  | JArr elems =>
      "["%char :: join_comma (map (SerializeJSONProperty K) elems) ++ ["]"%char]
  | JObj members =>
      let done := map (fun kv => (fst kv, SerializeJSONProperty K (snd kv))) members in
      "{"%char
        :: join_comma (map (fun kx => QuoteJSONString (fst kx) ++ ":"%char :: snd kx)
                           (select_properties K done))
        ++ ["}"%char]
  end.

(** [JSON.stringify(value)]. *)
Definition stringify (v : json) : string :=
  string_of_list_ascii (SerializeJSONProperty None v).

(** The [PropertyList] of an array [replacer] of strings: its elements in
    order, each at its first occurrence only. *)
Fixpoint property_list (seen replacer : list string) : list string :=
  match replacer with
  | [] => []
  | name :: rest =>
      if in_dec string_dec name seen then property_list seen rest
      else name :: property_list (name :: seen) rest
  end.

(** [JSON.stringify(value, replacer)] for an array [replacer] of
    strings. *)
Definition stringify_with (replacer : list string) (v : json) : string :=
  string_of_list_ascii
    (SerializeJSONProperty (Some (property_list [] replacer)) v).

(** *** Parsing *)

Definition is_ws (c : ascii) : bool :=
  let n := N_of_ascii c in
  ((n =? 32) || (n =? 9) || (n =? 10) || (n =? 13))%N.

Fixpoint skip_ws (s : list ascii) : list ascii :=
  match s with
  | [] => []
  | c :: rest => if is_ws c then skip_ws rest else s
  end.

Fixpoint strip_prefix (p s : list ascii) : option (list ascii) :=
  match p, s with
  | [], _ => Some s
  | a :: p', b :: s' => if (a =? b)%char then strip_prefix p' s' else None
  | _ :: _, [] => None
  end.

Definition digit_of_char (c : ascii) : option digit :=
  let n := N_of_ascii c in
  if (n =? 48)%N then Some dig0
  else if (n =? 49)%N then Some dig1
  else if (n =? 50)%N then Some dig2
  else if (n =? 51)%N then Some dig3
  else if (n =? 52)%N then Some dig4
  else if (n =? 53)%N then Some dig5
  else if (n =? 54)%N then Some dig6
  else if (n =? 55)%N then Some dig7
  else if (n =? 56)%N then Some dig8
  else if (n =? 57)%N then Some dig9
  else None.

Fixpoint read_digits (s : list ascii) : list digit * list ascii :=
  match s with
  | [] => ([], [])
  | c :: rest =>
      match digit_of_char c with
      | Some d => let (ds, rest') := read_digits rest in (d :: ds, rest')
      | None => ([], s)
      end
  end.

Definition leading_zero (ds : list digit) : bool :=
  match ds with
  | dig0 :: _ :: _ => true
  | _ => false
  end.

Definition is_nil {A : Type} (l : list A) : bool :=
  match l with
  | [] => true
  | _ :: _ => false
  end.

(** The optional fraction of a number literal: a point and at least one
    digit. *)
Definition read_fraction (s : list ascii) : option (list digit * list ascii) :=
  match s with
  | c :: rest =>
      if (c =? ".")%char then
        let (ds, rest') := read_digits rest in
        if is_nil ds then None else Some (ds, rest')
      else Some ([], s)
  | [] => Some ([], s)
  end.

(** The optional exponent: [e] or [E], an optional sign and at least one
    digit. *)
Definition read_exponent (s : list ascii) : option (Z * list ascii) :=
  match s with
  | c :: rest =>
      if ((c =? "e") || (c =? "E"))%char then
        let (minus, s1) :=
          match rest with
          | c' :: rest' =>
              if (c' =? "-")%char then (true, rest')
              else if (c' =? "+")%char then (false, rest')
              else (false, rest)
          | [] => (false, rest)
          end in
        let (ds, rest') := read_digits s1 in
        if is_nil ds then None
        else
          let e := Z.of_N (N.of_uint (digits_uint ds)) in
          Some (if minus then (- e)%Z else e, rest')
      else Some (0%Z, s)
  | [] => Some (0%Z, s)
  end.

(** A number literal of the JSON grammar after its sign: digits without
    a superfluous leading zero, an optional fraction and an optional
    exponent.  [F] is the platform's conversion of the number a literal
    denotes to a Number value; it is applied to the normal decimal. *)
Definition parse_unsigned (F : decimal -> number) (neg : bool) (s1 : list ascii)
    : option (number * list ascii) :=
  let (int, s2) := read_digits s1 in
  if is_nil int || leading_zero int then None
  else
    match read_fraction s2 with
    | None => None
    | Some (frac, s3) =>
        match read_exponent s3 with
        | None => None
        | Some (e, s4) =>
            Some (F (normal {| negative := neg;
                               digits := int ++ frac;
                               point := (Z.of_nat (length int) + e)%Z |}),
                  s4)
        end
    end.

Definition parse_number (F : decimal -> number) (s : list ascii)
    : option (number * list ascii) :=
  match s with
  | c :: rest =>
      if (c =? "-")%char then parse_unsigned F true rest
      else parse_unsigned F false s
  | [] => None
  end.

Definition hex_value (c : ascii) : option N :=
  let n := N_of_ascii c in
  if ((48 <=? n) && (n <=? 57))%N then Some (n - 48)%N
  else if ((97 <=? n) && (n <=? 102))%N then Some (n - 87)%N
  else if ((65 <=? n) && (n <=? 70))%N then Some (n - 55)%N
  else None.

Definition hex4 (h1 h2 h3 h4 : ascii) : option N :=
  match hex_value h1, hex_value h2, hex_value h3, hex_value h4 with
  | Some a, Some b, Some c, Some d => Some (a * 4096 + b * 256 + c * 16 + d)%N
  | _, _, _, _ => None
  end.

Definition is_high_surrogate (cu : N) : bool :=
  ((55296 <=? cu) && (cu <=? 56319))%N.

Definition is_low_surrogate (cu : N) : bool :=
  ((56320 <=? cu) && (cu <=? 57343))%N.

(** UTF-8 bytes of a code unit that is a code point of the Basic
    Multilingual Plane.  A surrogate on its own has none: a string with
    an unpaired surrogate is not well-formed Unicode and has no
    counterpart among the strings of the embedding, so an escape that
    denotes one is not accepted. *)
Definition utf8_of_code_unit (cp : N) : option (list ascii) :=
  if (cp <? 128)%N then Some [ascii_of_N cp]
  else if (cp <? 2048)%N then
    Some [ascii_of_N (192 + cp / 64); ascii_of_N (128 + cp mod 64)]
  else if ((55296 <=? cp) && (cp <=? 57343))%N then None
  else
    Some [ascii_of_N (224 + cp / 4096); ascii_of_N (128 + (cp / 64) mod 64);
          ascii_of_N (128 + cp mod 64)].

(** UTF-8 bytes of the code point of a surrogate pair. *)
Definition utf8_of_surrogates (hi lo : N) : list ascii :=
  let cp := (65536 + (hi - 55296) * 1024 + (lo - 56320))%N in
  [ascii_of_N (240 + cp / 262144); ascii_of_N (128 + (cp / 4096) mod 64);
   ascii_of_N (128 + (cp / 64) mod 64); ascii_of_N (128 + cp mod 64)].

Definition simple_escape (e : ascii) : option ascii :=
  let n := N_of_ascii e in
  if (n =? 34)%N then Some c_quote
  else if (n =? 92)%N then Some c_backslash
  else if (n =? 47)%N then Some "/"%char
  else if (n =? 98)%N then Some (ascii_of_N 8)
  else if (n =? 102)%N then Some (ascii_of_N 12)
  else if (n =? 110)%N then Some c_lf
  else if (n =? 114)%N then Some c_cr
  else if (n =? 116)%N then Some c_tab
  else None.

Definition prepend (bs : list ascii) (r : option (list ascii * list ascii))
    : option (list ascii * list ascii) :=
  match r with
  | Some (cs, rest) => Some (bs ++ cs, rest)
  | None => None
  end.

(** The characters of a string literal after its opening quote, up to
    and including the closing quote. *)
Fixpoint parse_string_body (s : list ascii) : option (list ascii * list ascii) :=
  match s with
  | [] => None
  | c :: r =>
      if (c =? c_quote)%char then Some ([], r)
      else if (c =? c_backslash)%char then
        match r with
        | [] => None
        | e :: r1 =>
            if (e =? "u")%char then
              match r1 with
              | h1 :: h2 :: h3 :: h4 :: r2 =>
                  match hex4 h1 h2 h3 h4 with
                  | Some cu =>
                      if is_high_surrogate cu then
                        match r2 with
                        | b :: u :: l1 :: l2 :: l3 :: l4 :: r3 =>
                            if ((b =? c_backslash) && (u =? "u"))%char then
                              match hex4 l1 l2 l3 l4 with
                              | Some lo =>
                                  if is_low_surrogate lo then
                                    prepend (utf8_of_surrogates cu lo)
                                            (parse_string_body r3)
                                  else None
                              | None => None
                              end
                            else None
                        | _ => None
                        end
                      else
                        match utf8_of_code_unit cu with
                        | Some bs => prepend bs (parse_string_body r2)
                        | None => None
                        end
                  | None => None
                  end
              | _ => None
              end
            else
              match simple_escape e with
              | Some x => prepend [x] (parse_string_body r1)
              | None => None
              end
        end
      else if (N_of_ascii c <? 32)%N then None
      else prepend [c] (parse_string_body r)
  end.

(** [CreateDataProperty] while an object literal is read: a repeated
    name overwrites the value and keeps the position of the first. *)
Fixpoint set_property (k : string) (v : json) (members : list (string * json))
    : list (string * json) :=
  match members with
  | [] => [(k, v)]
  | (k', v') :: rest =>
      if String.eqb k' k then (k', v) :: rest
      else (k', v') :: set_property k v rest
  end.

Definition build_object (members : list (string * json)) : list (string * json) :=
  fold_left (fun acc kv => set_property (fst kv) (snd kv) acc) members [].

(** Recursive descent on the JSON grammar; [fuel] bounds the nesting of
    calls. *)
Fixpoint parse_value (F : decimal -> number) (fuel : nat) (s : list ascii)
    : option (json * list ascii) :=
  match fuel with
  | 0 => None
  | S fuel' =>
      match skip_ws s with
      | [] => None
      | c :: r =>
          if (c =? "n")%char then
            option_map (pair JNull) (strip_prefix (chars "ull") r)
          else if (c =? "t")%char then
            option_map (pair (JBool true)) (strip_prefix (chars "rue") r)
          else if (c =? "f")%char then
            option_map (pair (JBool false)) (strip_prefix (chars "alse") r)
          else if (c =? c_quote)%char then
            match parse_string_body r with
            | Some (cs, r') => Some (JStr (string_of_list_ascii cs), r')
            | None => None
            end
          else if (c =? "[")%char then
            match strip_prefix ["]"%char] (skip_ws r) with
            | Some r' => Some (JArr [], r')
            | None =>
                match parse_elements F fuel' r with
                | Some (vs, r') => Some (JArr vs, r')
                | None => None
                end
            end
          else if (c =? "{")%char then
            match strip_prefix ["}"%char] (skip_ws r) with
            | Some r' => Some (JObj [], r')
            | None =>
                match parse_members F fuel' r with
                | Some (ms, r') => Some (JObj (build_object ms), r')
                | None => None
                end
            end
          else
            match parse_number F (c :: r) with
            | Some (x, r') => Some (JNum x, r')
            | None => None
            end
      end
  end

with parse_elements (F : decimal -> number) (fuel : nat) (s : list ascii)
    : option (list json * list ascii) :=
  match fuel with
  | 0 => None
  | S fuel' =>
      match parse_value F fuel' s with
      | None => None
      | Some (v, r) =>
          match skip_ws r with
          | [] => None
          | c :: r' =>
              if (c =? ",")%char then
                match parse_elements F fuel' r' with
                | Some (vs, r'') => Some (v :: vs, r'')
                | None => None
                end
              else if (c =? "]")%char then Some ([v], r')
              else None
          end
      end
  end

with parse_members (F : decimal -> number) (fuel : nat) (s : list ascii)
    : option (list (string * json) * list ascii) :=
  match fuel with
  | 0 => None
  | S fuel' =>
      match strip_prefix [c_quote] (skip_ws s) with
      | None => None
      | Some r0 =>
          match parse_string_body r0 with
          | None => None
          | Some (k, r1) =>
              match strip_prefix [":"%char] (skip_ws r1) with
              | None => None
              | Some r2 =>
                  match parse_value F fuel' r2 with
                  | None => None
                  | Some (v, r3) =>
                      match skip_ws r3 with
                      | [] => None
                      | c :: r4 =>
                          if (c =? ",")%char then
                            match parse_members F fuel' r4 with
                            | Some (ms, r5) =>
                                Some ((string_of_list_ascii k, v) :: ms, r5)
                            | None => None
                            end
                          else if (c =? "}")%char then
                            Some ([(string_of_list_ascii k, v)], r4)
                          else None
                      end
                  end
              end
          end
      end
  end.

(** [JSON.parse(text)]: one value, surrounded by optional white space.
    [F] is the conversion of the number a literal denotes to a Number
    value. *)
Definition parse (F : decimal -> number) (text : string) : option json :=
  let s := chars text in
  match parse_value F (S (length s)) s with
  | Some (v, rest) =>
      match skip_ws rest with
      | [] => Some v
      | _ :: _ => None
      end
  | None => None
  end.

(** Objects as [JSON.parse] builds them: no property name occurs twice
    in an object, at any depth. *)
Fixpoint wf (v : json) : Prop :=
  match v with
  | JArr elems => fold_right (fun e acc => wf e /\ acc) True elems
  | JObj members =>
      NoDup (map fst members)
      /\ fold_right (fun kv acc => wf (snd kv) /\ acc) True members
  | _ => True
  end.

(** The values [JSON.stringify] prints as they are and [JSON.parse]
    gives back: every number in them is finite and is the Number value,
    under [F], of the number it denotes. *)
Fixpoint representable (F : decimal -> number) (v : json) : Prop :=
  match v with
  | JNum (Finite d) => F (normal d) = Finite d
  | JNum (Infinite _) => False
  | JArr elems => fold_right (fun e acc => representable F e /\ acc) True elems
  | JObj members =>
      fold_right (fun kv acc => representable F (snd kv) /\ acc) True members
  | _ => True
  end.

End Json.

(** Two values are the same up to the order in which objects list their
    properties: objects have the same property names and, under each
    name, values that are the same; arrays are the same element by
    element. *)
Fixpoint same_value (a b : json) : Prop :=
  match a, b with
  | JNull, JNull => True
  | JBool x, JBool y => x = y
  | JNum x, JNum y => x = y
  | JStr x, JStr y => x = y
  | JArr xs, JArr ys =>
      (fix each (xs ys : list json) : Prop :=
         match xs, ys with
         | [], [] => True
         | x :: xs', y :: ys' => same_value x y /\ each xs' ys'
         | _, _ => False
         end) xs ys
  | JObj ms, JObj ns =>
      (forall k, In k (map fst ms) <-> In k (map fst ns))
      /\ (fix each (ms : list (string * json)) : Prop :=
            match ms with
            | [] => True
            | kv :: ms' =>
                (exists v', Json.get_property (fst kv) ns = Some v'
                            /\ same_value (snd kv) v')
                /\ each ms'
            end) ms
  | _, _ => False
  end.

(** ** Results of operations that can throw *)

Inductive result (E A : Type) : Type :=
| Ok (value : A)
| Err (error : E).
Arguments Ok {E A} value.
Arguments Err {E A} error.

Definition is_ok {E A : Type} (r : result E A) : bool :=
  match r with
  | Ok _ => true
  | Err _ => false
  end.

(** ** Node's [crypto] module *)

(** The source of [crypto.randomBytes]: an unbounded sequence of bytes and
    the position of the next unread one. *)
Record entropy : Type := {
  noise : nat -> byte;
  cursor : nat
}.

Definition randomBytes (n : nat) (e : entropy) : Buffer * entropy :=
  (map (fun i => noise e (cursor e + i)) (seq 0 n),
   {| noise := noise e; cursor := cursor e + n |}).

(** The values of PostgreSQL's type [uuid].  A request names one by a
    text, which the database converts ([uuid_in] below). *)
Definition uuid := nat.

(** The primitives that are not given by definitions here.
    - [gcm_seal key iv plaintext] is the ciphertext and the authentication
      tag of an ["aes-256-gcm"] cipher ([update], [final], [getAuthTag]);
    - [gcm_open key iv tag ciphertext] is the plaintext of the matching
      decipher, or [None] when [final] cannot authenticate the data;
    - [cbc_seal key iv plaintext] is the ciphertext of ["aes-256-cbc"];
    - [sha256] is the digest of [createHash("sha256")];
    - [float8in] is PostgreSQL's conversion of text to [FLOAT], [None]
      when the text is not a number;
    - [number_value d] is the Number value of the number the normal
      decimal [d] denotes: the nearest double, given by the decimal
      [Number::toString] prints for it, or an infinity beyond the range
      of the doubles;
    - [uuid_in] is PostgreSQL's conversion of text to [uuid], [None]
      when the text is not the text of a uuid;
    - [collate_le] is the order of the database's collation on text,
      which [ORDER BY] follows on a text column. *)
Record Platform : Type := {
  gcm_seal : Buffer -> Buffer -> Buffer -> Buffer * Buffer;
  gcm_open : Buffer -> Buffer -> Buffer -> Buffer -> option Buffer;
  cbc_seal : Buffer -> Buffer -> Buffer -> Buffer;
  sha256 : Buffer -> Buffer;
  float8in : string -> option Q;
  number_value : decimal -> number;
  uuid_in : string -> option uuid;
  collate_le : string -> string -> bool
}.

(** A collation orders all texts. *)
Definition collation_lawful (C : Platform) : Prop :=
  (forall a b, collate_le C a b = true \/ collate_le C b a = true)
  /\ (forall a b c, collate_le C a b = true -> collate_le C b c = true ->
                    collate_le C a c = true).

(** What the GCM primitives guarantee: the tag has sixteen bytes, and
    opening what was sealed under the same key and IV gives the plaintext
    back. *)
Definition gcm_lawful (C : Platform) : Prop :=
  forall key iv plaintext,
    length key = 32 -> iv <> [] ->
    length (snd (gcm_seal C key iv plaintext)) = 16
    /\ gcm_open C key iv (snd (gcm_seal C key iv plaintext))
                (fst (gcm_seal C key iv plaintext))
       = Some plaintext.

Inductive crypto_error : Type :=
| InvalidKeyLength
| InvalidIV
| InvalidAuthTagLength
| UnableToAuthenticate.

(** The argument checks of [createCipheriv] and [createDecipheriv] for
    ["aes-256-gcm"]: a non-empty IV and a 32-byte key; the IV is
    reported first. *)
Definition check_gcm_args (key iv : Buffer) : option crypto_error :=
  if length iv =? 0 then Some InvalidIV
  else if negb (length key =? 32) then Some InvalidKeyLength
  else None.

(** The tag lengths [setAuthTag] accepts in GCM mode. *)
Definition valid_gcm_tag_length (n : nat) : bool :=
  (n =? 4) || (n =? 8) || ((12 <=? n) && (n <=? 16)).

(** [digest("hex")]. *)
Definition hex_of_byte (b : byte) : list ascii :=
  let n := N_of_ascii b in
  [Json.hex_digit (n / 16); Json.hex_digit (n mod 16)].

Definition hex (b : Buffer) : string :=
  string_of_list_ascii (flat_map hex_of_byte b).

(** ** utils/encryption: [EncryptionService] *)

Module EncryptionService.

Definition IV_LENGTH : nat := 16.
Definition SALT_LENGTH : nat := 64.
Definition TAG_LENGTH : nat := 16.
Definition KEY_LENGTH : nat := 32.

Record t : Type := { key : Buffer }.

Inductive construct_error : Type :=
| KeyRequired
| InvalidKeyFormat.

(** [new EncryptionService(encryptionKey)].  An absent or empty key is
    refused first; otherwise the key is decoded as base64 and must have
    32 bytes, and the error thrown for another length is replaced by the
    key-format error of the [catch] clause. *)
Definition constructor (encryptionKey : option string)
    : result construct_error t :=
  match encryptionKey with
  | None => Err KeyRequired
  | Some EmptyString => Err KeyRequired
  | Some k =>
      let key := Base64.decode k in
      if negb (length key =? 32) then Err InvalidKeyFormat
      else Ok {| key := key |}
  end.

Definition encrypt (C : Platform) (this : t) (data : json) (e : entropy)
    : result crypto_error string * entropy :=
  let (iv, e1) := randomBytes IV_LENGTH e in
  let (salt, e2) := randomBytes SALT_LENGTH e1 in
  match check_gcm_args (key this) iv with
  | Some err => (Err err, e2)
  | None =>
      let jsonString := Json.stringify data in
      let sealed := gcm_seal C (key this) iv (utf8_encode jsonString) in
      let encrypted := fst sealed in
      let tag := snd sealed in
      let result := iv ++ salt ++ tag ++ encrypted in
      (Ok (Base64.encode true result), e2)
  end.

Inductive decrypt_error : Type :=
| CryptoError (err : crypto_error)
| SyntaxError.

Definition decrypt (C : Platform) (this : t) (encryptedData : string)
    : result decrypt_error json :=
  let buffer := Base64.decode encryptedData in
  let iv := subarray buffer 0 IV_LENGTH in
  let salt := subarray buffer IV_LENGTH (IV_LENGTH + SALT_LENGTH) in
  let tag := subarray buffer (IV_LENGTH + SALT_LENGTH)
                      (IV_LENGTH + SALT_LENGTH + TAG_LENGTH) in
  let encrypted := subarray_from buffer (IV_LENGTH + SALT_LENGTH + TAG_LENGTH) in
  match check_gcm_args (key this) iv with
  | Some err => Err (CryptoError err)
  | None =>
      if negb (valid_gcm_tag_length (length tag))
      then Err (CryptoError InvalidAuthTagLength)
      else
        match gcm_open C (key this) iv tag encrypted with
        | None => Err (CryptoError UnableToAuthenticate)
        | Some decrypted =>
            match Json.parse (number_value C) (utf8_decode decrypted) with
            | Some v => Ok v
            | None => Err SyntaxError
            end
        end
  end.

Definition validateToken (C : Platform) (this : t) (token : string) : bool :=
  is_ok (decrypt C this token).

End EncryptionService.

(** ** utils/generateToken *)

Inductive token_error : Type :=
| KeyNotSet
| TokenKeyLength.

(** [generateToken(data)] with the value of [process.env.ENCRYPTION_KEY].
    The key is the UTF-8 bytes of the variable, and ["aes-256-cbc"] needs
    32 of them.  The text produced by [update] and [final] with the
    ["base64"] output encoding is the padded base64 of the ciphertext. *)
Definition generateToken (C : Platform) (ENCRYPTION_KEY : option string)
    (data : string) (e : entropy) : result token_error string * entropy :=
  match ENCRYPTION_KEY with
  | None => (Err KeyNotSet, e)
  | Some EmptyString => (Err KeyNotSet, e)
  | Some encryptionKey =>
      let (iv, e1) := randomBytes 16 e in
      let key := utf8_encode encryptionKey in
      if negb (length key =? 32) then (Err TokenKeyLength, e1)
      else
        let encrypted :=
          Base64.encode false (cbc_seal C key iv (utf8_encode data)) in
        let token := (Base64.encode false iv ++ ":" ++ encrypted)%string in
        (Ok token, e1)
  end.

(** ** Generic helpers of the request handlers *)

(** Insertion sort, stable; [le a b] means that [a] may stand before
    [b]. *)
Fixpoint insert_sorted {A : Type} (le : A -> A -> bool) (x : A) (l : list A) : list A :=
  match l with
  | [] => [x]
  | y :: rest => if le x y then x :: l else y :: insert_sorted le x rest
  end.

Fixpoint sort_by {A : Type} (le : A -> A -> bool) (l : list A) : list A :=
  match l with
  | [] => []
  | x :: rest => insert_sorted le x (sort_by le rest)
  end.

(** [s.startsWith(p)]. *)
Definition startsWith (s p : string) : bool := String.prefix p s.

(** ** The database (database/init) *)

Definition timestamp := Z.

Inductive assessment_role : Type :=
| manager
| peer
| self
| direct_report.

(** Input conversion of the enumeration: a label that is not one of the
    four is an error of the statement that contains it. *)
Definition assessment_role_in (label : string) : option assessment_role :=
  if String.eqb label "manager" then Some manager
  else if String.eqb label "peer" then Some peer
  else if String.eqb label "self" then Some self
  else if String.eqb label "direct_report" then Some direct_report
  else None.

Definition assessment_role_eqb (a b : assessment_role) : bool :=
  match a, b with
  | manager, manager | peer, peer | self, self
  | direct_report, direct_report => true
  | _, _ => false
  end.

Record assessment : Type := {
  id : uuid;
  encrypted_leader_identifier : string;
  encrypted_rater_identifier : string;
  leader_hash : string;
  role : assessment_role;
  created_at : timestamp;
  updated_at : timestamp;
  completed_at : option timestamp
}.

Record assessment_response : Type := {
  response_id : uuid;
  assessment_id : uuid;
  question_id : string;
  response : string;
  response_created_at : timestamp
}.

(** The two tables the server reads and writes, rows in insertion
    order. *)
Record database : Type := {
  assessments : list assessment;
  assessment_responses : list assessment_response
}.

Inductive sql_error : Type :=
| UniqueViolation
| ForeignKeyViolation
| NotNullViolation
| InvalidEnumInput (label : string)
| InvalidFloatInput (text : string)
| InvalidUuidInput (text : string)
| InvalidByteSequence.

(** What a request can change: the database, the state of
    [gen_random_uuid()] and the entropy of [crypto.randomBytes]. *)
Record world : Type := {
  db : database;
  uuid_counter : nat;
  rng : entropy
}.

(** [INSERT INTO assessments (...) VALUES ($1, $2, $3, $4) RETURNING id]
    at time [now].  The columns are [NOT NULL], the role must be a label
    of the enumeration, the key and the rater ciphertext are unique. *)
Definition insert_assessment (now : timestamp)
    (leader rater : option string) (hash : string) (role_text : option string)
    (d : database) (fresh : uuid) : result sql_error database :=
  match leader, rater, role_text with
  | Some l, Some r, Some label =>
      match assessment_role_in label with
      | None => Err (InvalidEnumInput label)
      | Some ro =>
          if existsb (fun a => id a =? fresh) (assessments d)
             || existsb (fun a => String.eqb (encrypted_rater_identifier a) r)
                        (assessments d)
          then Err UniqueViolation
          else
            Ok {| assessments :=
                    assessments d
                    ++ [{| id := fresh;
                           encrypted_leader_identifier := l;
                           encrypted_rater_identifier := r;
                           leader_hash := hash;
                           role := ro;
                           created_at := now;
                           updated_at := now;
                           completed_at := None |}];
                  assessment_responses := assessment_responses d |}
      end
  | _, _, _ => Err NotNullViolation
  end.

(** [UPDATE assessments SET completed_at = CURRENT_TIMESTAMP WHERE id = $1];
    the trigger [update_assessments_updated_at] sets [updated_at]. *)
Definition update_completed (now : timestamp) (assessmentId : uuid)
    (d : database) : database :=
  {| assessments :=
       map (fun a =>
              if id a =? assessmentId then
                {| id := id a;
                   encrypted_leader_identifier := encrypted_leader_identifier a;
                   encrypted_rater_identifier := encrypted_rater_identifier a;
                   leader_hash := leader_hash a;
                   role := role a;
                   created_at := created_at a;
                   updated_at := now;
                   completed_at := Some now |}
              else a)
           (assessments d);
     assessment_responses := assessment_responses d |}.

(** [INSERT INTO assessment_responses (assessment_id, question_id, response)
    VALUES ($1, $2, $3)] once its parameters are bound to a uuid and two
    texts: the assessment must exist, and the pair of assessment and
    question must be new. *)
Definition insert_response (now : timestamp) (assessmentId : uuid)
    (questionId value : string) (d : database) (fresh : uuid)
    : result sql_error database :=
  if negb (existsb (fun a => id a =? assessmentId) (assessments d))
  then Err ForeignKeyViolation
  else if existsb (fun r => response_id r =? fresh) (assessment_responses d)
          || existsb (fun r => (assessment_id r =? assessmentId)
                               && String.eqb (question_id r) questionId)
                     (assessment_responses d)
  then Err UniqueViolation
  else
    Ok {| assessments := assessments d;
          assessment_responses :=
            assessment_responses d
            ++ [{| response_id := fresh;
                   assessment_id := assessmentId;
                   question_id := questionId;
                   response := value;
                   response_created_at := now |}] |}.

(** *** Parameters of a statement *)

(** The values the driver sends for [$1], [$2], ... are converted to the
    types of their columns before the statement runs.  An absent value
    ([undefined] or [null]) is sent as [NULL]; a text is refused when it
    is not the text of a uuid, for a uuid column, and when it contains
    the character U+0000, for a text column. *)
Definition uuid_parameter (C : Platform) (value : option string)
    : result sql_error (option uuid) :=
  match value with
  | None => Ok None
  | Some text =>
      match uuid_in C text with
      | Some u => Ok (Some u)
      | None => Err (InvalidUuidInput text)
      end
  end.

Definition has_nul (text : string) : bool :=
  existsb (fun c => (N_of_ascii c =? 0)%N) (list_ascii_of_string text).

(** [UPDATE assessments SET completed_at = CURRENT_TIMESTAMP WHERE id = $1]
    with [$1] bound: [id = NULL] holds for no row. *)
Definition update_completed_where (now : timestamp) (assessmentId : option uuid)
    (d : database) : database :=
  match assessmentId with
  | Some a => update_completed now a d
  | None => d
  end.

(** The parameters of the [INSERT] into [assessment_responses]. *)
Definition bind_response (C : Platform) (assessmentId : option string)
    (questionId value : string) : result sql_error (option uuid) :=
  match uuid_parameter C assessmentId with
  | Err e => Err e
  | Ok bound =>
      if has_nul questionId || has_nul value then Err InvalidByteSequence
      else Ok bound
  end.

(** The [INSERT] with its parameters bound; [assessment_id] is
    [NOT NULL]. *)
Definition insert_response_bound (now : timestamp) (assessmentId : option uuid)
    (questionId value : string) (d : database) (fresh : uuid)
    : result sql_error database :=
  match assessmentId with
  | None => Err NotNullViolation
  | Some a => insert_response now a questionId value d fresh
  end.

(** ** The server (index) *)

(** Configuration read once when the process starts: the encryption
    service built from [ENCRYPTION_KEY], and [ADMIN_KEY]. *)
Record server : Type := {
  encryption : EncryptionService.t;
  ADMIN_KEY : option string
}.

(** [const encryption = new EncryptionService(process.env.ENCRYPTION_KEY!)]
    at module load: the process does not start when it throws. *)
Definition startup (ENCRYPTION_KEY admin_key : option string)
    : result EncryptionService.construct_error server :=
  match EncryptionService.constructor ENCRYPTION_KEY with
  | Ok svc => Ok {| encryption := svc; ADMIN_KEY := admin_key |}
  | Err e => Err e
  end.

Inductive middleware (A : Type) : Type :=
| Respond (status : nat) (error : string)
| Next (passed : A).
Arguments Respond {A} status error.
Arguments Next {A} passed.

(** [validateToken]: the middleware of the two assessment routes.  On
    success the decrypted token is stored in [req.body.decryptedToken]. *)
Definition validateToken (C : Platform) (srv : server) (token : option string)
    : middleware json :=
  match token with
  | None => Respond 400 "Missing token parameter"
  | Some EmptyString => Respond 400 "Missing token parameter"
  | Some t =>
      match EncryptionService.decrypt C (encryption srv) t with
      | Ok decrypted => Next decrypted
      | Err _ => Respond 401 "Invalid token"
      end
  end.

Definition option_string_eqb (a b : option string) : bool :=
  match a, b with
  | Some x, Some y => String.eqb x y
  | None, None => true
  | _, _ => false
  end.

(** [adminAuth]: the [x-admin-key] header must be identical to
    [ADMIN_KEY]. *)
Definition adminAuth (srv : server) (adminKey : option string) : middleware unit :=
  if negb (option_string_eqb adminKey (ADMIN_KEY srv))
  then Respond 401 "Unauthorized"
  else Next tt.

Definition index_name (i : nat) : string :=
  string_of_list_ascii (Json.uint_chars (Nat.to_uint i)).

(** [Object.keys(value)]: the property names of an object, the indices of
    an array or of a string, nothing for a number or a boolean; [null]
    throws.  The names are sorted before they are used, and the indices
    of a string select nothing in its text, so neither the enumeration
    order of an object nor the unit in which a string is measured
    matters here. *)
Definition Object_keys (value : json) : option (list string) :=
  match value with
  | JNull => None
  | JBool _ => Some []
  | JNum _ => Some []
  | JStr s => Some (map index_name (seq 0 (String.length s)))
  | JArr elems => Some (map index_name (seq 0 (length elems)))
  | JObj members => Some (map fst members)
  end.

(** [keys.sort()].  The method orders strings by their UTF-16 code
    units; the order of the bytes taken here is the same order except
    between a character above U+FFFF and one from U+E000 to U+FFFF.
    What is proved of the sorted keys uses only that the order is total,
    transitive and antisymmetric. *)
Definition sort_keys (keys : list string) : list string :=
  sort_by String.leb keys.

(** [createLeaderHash(leaderData)]; [None] when [Object.keys] throws. *)
Definition createLeaderHash (C : Platform) (leaderData : json) : option string :=
  match Object_keys leaderData with
  | None => None
  | Some keys =>
      let sortedData := Json.stringify_with (sort_keys keys) leaderData in
      Some (hex (sha256 C (utf8_encode sortedData)))
  end.

Definition INTERNAL_ERROR : string := "Internal server error".

(** *** POST /api/assessment/start *)

Record start_request : Type := {
  start_token : option string;
  body_encrypted_leader_identifier : option string;
  body_encrypted_rater_identifier : option string
}.

Inductive start_response : Type :=
| StartError (status : nat) (error : string)
| Started (assessmentId : uuid).

(** [const { role } = req.body.decryptedToken]: destructuring [null]
    throws ([None]); a value without the property gives [undefined].
    Only a string can be a label of the enumeration: for any other value
    the statement fails, as it does for an absent one, whatever text the
    driver sends for it. *)
Definition token_role (decryptedToken : json) : option (option string) :=
  match decryptedToken with
  | JNull => None
  | JObj members =>
      match Json.get_property "role" members with
      | Some (JStr label) => Some (Some label)
      | _ => Some None
      end
  | _ => Some None
  end.

Definition assessment_start (C : Platform) (srv : server) (now : timestamp)
    (req : start_request) (w : world) : start_response * world :=
  match validateToken C srv (start_token req) with
  | Respond status error => (StartError status error, w)
  | Next decryptedToken =>
      match token_role decryptedToken with
      | None => (StartError 500 INTERNAL_ERROR, w)
      | Some role_text =>
          match body_encrypted_leader_identifier req with
          | None => (StartError 500 INTERNAL_ERROR, w)
          | Some leader =>
              match EncryptionService.decrypt C (encryption srv) leader with
              | Err _ => (StartError 500 INTERNAL_ERROR, w)
              | Ok leaderData =>
                  match createLeaderHash C leaderData with
                  | None => (StartError 500 INTERNAL_ERROR, w)
                  | Some leaderHash =>
                      let fresh := uuid_counter w in
                      let w' := {| db := db w;
                                   uuid_counter := S fresh;
                                   rng := rng w |} in
                      match insert_assessment now (Some leader)
                              (body_encrypted_rater_identifier req)
                              leaderHash role_text (db w) fresh with
                      | Err _ => (StartError 500 INTERNAL_ERROR, w')
                      | Ok d =>
                          (Started fresh,
                           {| db := d; uuid_counter := S fresh; rng := rng w |})
                      end
                  end
              end
          end
      end
  end.

(** *** POST /api/assessment/submit *)

(** One entry of [responses]; the client sends both fields as strings. *)
Record response_entry : Type := {
  questionId : string;
  entry_response : string
}.

(** A request whose [assessmentId] is the text of the uuid given here
    and whose texts the database accepts; [submit_body] below is the
    request as it arrives. *)
Record submit_request : Type := {
  submit_token : option string;
  assessmentId : uuid;
  responses : list response_entry
}.

Inductive submit_response : Type :=
| SubmitError (status : nat) (error : string)
| Submitted.

Inductive submit_error : Type :=
| EncryptFailed (err : crypto_error)
| QueryFailed (err : sql_error).

(** The loop over [responses] inside the transaction; it stops at the
    first statement that throws. *)
Fixpoint insert_responses (C : Platform) (srv : server) (now : timestamp)
    (aid : uuid) (entries : list response_entry) (w : world)
    : result submit_error unit * world :=
  match entries with
  | [] => (Ok tt, w)
  | entry :: rest =>
      let (responseValue, e') :=
        if startsWith (questionId entry) "open_"
        then EncryptionService.encrypt C (encryption srv)
               (JStr (entry_response entry)) (rng w)
        else (Ok (entry_response entry), rng w) in
      match responseValue with
      | Err err =>
          (Err (EncryptFailed err),
           {| db := db w; uuid_counter := uuid_counter w; rng := e' |})
      | Ok value =>
          let fresh := uuid_counter w in
          match insert_response now aid (questionId entry) value (db w) fresh with
          | Err err =>
              (Err (QueryFailed err),
               {| db := db w; uuid_counter := S fresh; rng := e' |})
          | Ok d =>
              insert_responses C srv now aid rest
                {| db := d; uuid_counter := S fresh; rng := e' |}
          end
      end
  end.

(** The route on a [submit_request]: [BEGIN], the update, the inserts,
    then [COMMIT]; the [catch] clause issues [ROLLBACK], which restores
    the tables as they were at [BEGIN]. *)
Definition assessment_submit (C : Platform) (srv : server) (now : timestamp)
    (req : submit_request) (w : world) : submit_response * world :=
  match validateToken C srv (submit_token req) with
  | Respond status error => (SubmitError status error, w)
  | Next _ =>
      let at_begin := db w in
      let updated := {| db := update_completed now (assessmentId req) (db w);
                        uuid_counter := uuid_counter w;
                        rng := rng w |} in
      match insert_responses C srv now (assessmentId req) (responses req) updated with
      | (Ok _, w') => (Submitted, w')
      | (Err _, w') =>
          (SubmitError 500 INTERNAL_ERROR,
           {| db := at_begin; uuid_counter := uuid_counter w'; rng := rng w' |})
      end
  end.

(** How [assessment_submit] stores an entry: under its question, for the
    assessment, as an envelope of the text when the question is
    open-ended and as the text itself otherwise. *)
Definition stored_as (C : Platform) (srv : server) (aid : uuid)
    (entry : response_entry) (r : assessment_response) : Prop :=
  assessment_id r = aid
  /\ question_id r = questionId entry
  /\ if startsWith (questionId entry) "open_"
     then exists e e',
            EncryptionService.encrypt C (encryption srv)
              (JStr (entry_response entry)) e = (Ok (response r), e')
     else response r = entry_response entry.

(** The body of the request as it arrives, with the [token] parameter:
    [assessmentId] is any string, or absent. *)
Record submit_body : Type := {
  body_token : option string;
  body_assessmentId : option string;
  body_responses : list response_entry
}.

(** The loop over [responses] with the parameters as they arrive: each
    [INSERT] converts its parameters before it runs. *)
Fixpoint insert_entries (C : Platform) (srv : server) (now : timestamp)
    (assessmentId : option string) (entries : list response_entry) (w : world)
    : result submit_error unit * world :=
  match entries with
  | [] => (Ok tt, w)
  | entry :: rest =>
      let (responseValue, e') :=
        if startsWith (questionId entry) "open_"
        then EncryptionService.encrypt C (encryption srv)
               (JStr (entry_response entry)) (rng w)
        else (Ok (entry_response entry), rng w) in
      match responseValue with
      | Err err =>
          (Err (EncryptFailed err),
           {| db := db w; uuid_counter := uuid_counter w; rng := e' |})
      | Ok value =>
          match bind_response C assessmentId (questionId entry) value with
          | Err err =>
              (Err (QueryFailed err),
               {| db := db w; uuid_counter := uuid_counter w; rng := e' |})
          | Ok bound =>
              let fresh := uuid_counter w in
              match insert_response_bound now bound (questionId entry) value
                      (db w) fresh with
              | Err err =>
                  (Err (QueryFailed err),
                   {| db := db w; uuid_counter := S fresh; rng := e' |})
              | Ok d =>
                  insert_entries C srv now assessmentId rest
                    {| db := d; uuid_counter := S fresh; rng := e' |}
              end
          end
      end
  end.

(** POST /api/assessment/submit on the request as it arrives.  The
    [UPDATE] is the first statement to convert [assessmentId]; an error
    of any statement is answered 500 after [ROLLBACK]. *)
Definition submit_route (C : Platform) (srv : server) (now : timestamp)
    (req : submit_body) (w : world) : submit_response * world :=
  match validateToken C srv (body_token req) with
  | Respond status error => (SubmitError status error, w)
  | Next _ =>
      let at_begin := db w in
      match uuid_parameter C (body_assessmentId req) with
      | Err _ => (SubmitError 500 INTERNAL_ERROR, w)
      | Ok bound =>
          let updated := {| db := update_completed_where now bound (db w);
                            uuid_counter := uuid_counter w;
                            rng := rng w |} in
          match insert_entries C srv now (body_assessmentId req)
                  (body_responses req) updated with
          | (Ok _, w') => (Submitted, w')
          | (Err _, w') =>
              (SubmitError 500 INTERNAL_ERROR,
               {| db := at_begin; uuid_counter := uuid_counter w';
                  rng := rng w' |})
          end
      end
  end.

(** The entries whose [INSERT] accepts its texts: the question
    identifier has no U+0000, and neither has the response unless it is
    stored as an envelope. *)
Definition storable (entry : response_entry) : Prop :=
  has_nul (questionId entry) = false
  /\ (startsWith (questionId entry) "open_" = true
      \/ has_nul (entry_response entry) = false).

(** *** The admin routes *)

Definition DECRYPTION_ERROR : json := JStr "DECRYPTION_ERROR".

(** One element of [json_agg(json_build_object('question_id', ...,
    'response', ..., 'created_at', ...))]: the columns of the joined
    response row, all [NULL] when the [LEFT JOIN] found none. *)
Record agg_response : Type := {
  agg_question_id : option string;
  agg_response_text : option string;
  agg_created_at : option timestamp
}.

(** A response as the admin routes show it. *)
Record shown_response : Type := {
  shown_question_id : option string;
  shown_value : json;
  shown_created_at : option timestamp
}.

(** The row of an assessment in the two listing queries. *)
Record joined_row : Type := {
  row : assessment;
  row_responses : list (option agg_response)
}.

Definition newest_first (a b : assessment) : bool :=
  (created_at b <=? created_at a)%Z.

(** [FROM assessments a LEFT JOIN assessment_responses ar ON a.id =
    ar.assessment_id GROUP BY a.id, ... ORDER BY a.created_at DESC],
    restricted to the assessments that satisfy [keep].  The query leaves
    open the order of rows of equal [created_at] and, having no
    [ORDER BY] inside [json_agg], the order of the responses of a row;
    both are taken in the order of the tables here, and what is stated
    of them below holds of every order. *)
Definition joined_rows (keep : assessment -> bool) (d : database) : list joined_row :=
  map (fun a =>
         {| row := a;
            row_responses :=
              match filter (fun r => assessment_id r =? id a)
                           (assessment_responses d) with
              | [] => [Some {| agg_question_id := None;
                               agg_response_text := None;
                               agg_created_at := None |}]
              | rs =>
                  map (fun r =>
                         Some {| agg_question_id := Some (question_id r);
                                 agg_response_text := Some (response r);
                                 agg_created_at := Some (response_created_at r) |})
                      rs
              end |})
      (sort_by newest_first (filter keep (assessments d))).

Definition text_or_null (t : option string) : json :=
  match t with
  | Some s => JStr s
  | None => JNull
  end.

(** The callback of [row.responses.map]: the response of an open-ended
    question is decrypted, and replaced by the marker when that throws. *)
Definition process_response (C : Platform) (srv : server) (r : agg_response)
    : shown_response :=
  let unchanged := text_or_null (agg_response_text r) in
  {| shown_question_id := agg_question_id r;
     shown_value :=
       match agg_question_id r with
       | Some q =>
           if negb (String.eqb q EmptyString) && startsWith q "open_" then
             match agg_response_text r with
             | Some c =>
                 match EncryptionService.decrypt C (encryption srv) c with
                 | Ok v => v
                 | Err _ => DECRYPTION_ERROR
                 end
             | None => DECRYPTION_ERROR
             end
           else unchanged
       | None => unchanged
       end;
     shown_created_at := agg_created_at r |}.

(** [row.responses[0] === null ? [] : row.responses.map(...)]. *)
Definition processedResponses (C : Platform) (srv : server)
    (rs : list (option agg_response)) : list shown_response :=
  match rs with
  | None :: _ => []
  | _ =>
      flat_map (fun o => match o with
                         | Some r => [process_response C srv r]
                         | None => []
                         end) rs
  end.

(** The [try] block around the two identifiers: when either decryption
    throws, the [catch] clause sets both to the marker. *)
Definition decrypt_identifiers (C : Platform) (srv : server) (a : assessment)
    : json * json :=
  match EncryptionService.decrypt C (encryption srv) (encrypted_leader_identifier a) with
  | Ok decryptedLeaderIdentifier =>
      match EncryptionService.decrypt C (encryption srv) (encrypted_rater_identifier a) with
      | Ok decryptedRaterIdentifier =>
          (decryptedLeaderIdentifier, decryptedRaterIdentifier)
      | Err _ => (DECRYPTION_ERROR, DECRYPTION_ERROR)
      end
  | Err _ => (DECRYPTION_ERROR, DECRYPTION_ERROR)
  end.

(** An element of the answer of GET /api/admin/assessments: the row with
    the two ciphertext columns replaced by what they decrypt to. *)
Record listed_assessment : Type := {
  listed_row : assessment;
  listed_leader_identifier : json;
  listed_rater_identifier : json;
  listed_responses : list shown_response
}.

Inductive admin_response (A : Type) : Type :=
| AdminError (status : nat) (error : string)
| AdminOk (body : A).
Arguments AdminError {A} status error.
Arguments AdminOk {A} body.

Definition transform_listed (C : Platform) (srv : server) (r : joined_row)
    : listed_assessment :=
  let ids := decrypt_identifiers C srv (row r) in
  {| listed_row := row r;
     listed_leader_identifier := fst ids;
     listed_rater_identifier := snd ids;
     listed_responses := processedResponses C srv (row_responses r) |}.

(** GET /api/admin/assessments. *)
Definition admin_assessments (C : Platform) (srv : server)
    (adminKey : option string) (d : database)
    : admin_response (list listed_assessment) :=
  match adminAuth srv adminKey with
  | Respond status error => AdminError status error
  | Next _ => AdminOk (map (transform_listed C srv) (joined_rows (fun _ => true) d))
  end.

(** A response row of GET /api/admin/assessments/:id: every column of
    the stored row, [response] replaced for an open-ended question. *)
Record detail_response : Type := {
  detail_row : assessment_response;
  detail_shown : json
}.

Record assessment_detail : Type := {
  detail_assessment : assessment;
  detail_responses : list detail_response
}.

(** [ORDER BY question_id]. *)
Definition by_question_id (C : Platform) (a b : assessment_response) : bool :=
  collate_le C (question_id a) (question_id b).

Definition process_detail (C : Platform) (srv : server) (r : assessment_response)
    : detail_response :=
  {| detail_row := r;
     detail_shown :=
       if negb (String.eqb (question_id r) EmptyString) && startsWith (question_id r) "open_"
       then
         match EncryptionService.decrypt C (encryption srv) (response r) with
         | Ok v => v
         | Err _ => DECRYPTION_ERROR
         end
       else JStr (response r) |}.

(** GET /api/admin/assessments/:id once [:id] is bound to a uuid: the two
    queries and the answer. *)
Definition admin_assessment (C : Platform) (srv : server)
    (adminKey : option string) (assessmentId : uuid) (d : database)
    : admin_response assessment_detail :=
  match adminAuth srv adminKey with
  | Respond status error => AdminError status error
  | Next _ =>
      match filter (fun a => id a =? assessmentId) (assessments d) with
      | [] => AdminError 404 "Assessment not found"
      | assessment :: _ =>
          let rows :=
            sort_by (by_question_id C)
              (filter (fun r => assessment_id r =? assessmentId)
                      (assessment_responses d)) in
          AdminOk {| detail_assessment := assessment;
                     detail_responses := map (process_detail C srv) rows |}
      end
  end.

(** GET /api/admin/assessments/:id on the path parameter as it arrives:
    the first query converts it, and the [catch] clause answers 500 when
    that fails. *)
Definition assessment_route (C : Platform) (srv : server)
    (adminKey : option string) (id_text : string) (d : database)
    : admin_response assessment_detail :=
  match adminAuth srv adminKey with
  | Respond status error => AdminError status error
  | Next _ =>
      match uuid_in C id_text with
      | None => AdminError 500 INTERNAL_ERROR
      | Some assessmentId => admin_assessment C srv adminKey assessmentId d
      end
  end.

(** *** GET /api/admin/statistics *)

Record assessment_stats : Type := {
  total_assessments : nat;
  completed_assessments : nat;
  leader_assessments : nat;
  rater_assessments : nat;
  leader_percentage : option Q;
  rater_percentage : option Q
}.

Record response_stat : Type := {
  stat_question_id : string;
  average_rating : Q;
  response_count : nat
}.

Definition count_where {A : Type} (p : A -> bool) (l : list A) : nat :=
  length (filter p l).

(** [role = 'label']: the literal is converted to the type of the column
    when the statement is analysed, before any row is read. *)
Definition role_equals (label : string)
    : result sql_error (assessment -> bool) :=
  match assessment_role_in label with
  | Some r => Ok (fun a => assessment_role_eqb (role a) r)
  | None => Err (InvalidEnumInput label)
  end.

(** [AVG(CASE WHEN p THEN 1 ELSE 0 END) * 100]; [NULL] without rows. *)
Definition percentage {A : Type} (p : A -> bool) (l : list A) : option Q :=
  match l with
  | [] => None
  | _ :: _ =>
      Some (Qmake (Z.of_nat (100 * count_where p l)) (Pos.of_nat (length l)))
  end.

Definition is_completed (a : assessment) : bool :=
  match completed_at a with
  | Some _ => true
  | None => false
  end.

(** The first statement of the route. *)
Definition assessment_stats_query (d : database) : result sql_error assessment_stats :=
  match role_equals "leader", role_equals "rater" with
  | Ok is_leader, Ok is_rater =>
      Ok {| total_assessments := length (assessments d);
            completed_assessments := count_where is_completed (assessments d);
            leader_assessments := count_where is_leader (assessments d);
            rater_assessments := count_where is_rater (assessments d);
            leader_percentage := percentage is_leader (assessments d);
            rater_percentage := percentage is_rater (assessments d) |}
  | Err e, _ => Err e
  | _, Err e => Err e
  end.

(** [CAST(response AS FLOAT)] on every row of a group. *)
Fixpoint cast_all (C : Platform) (texts : list string) : result sql_error (list Q) :=
  match texts with
  | [] => Ok []
  | t :: rest =>
      match float8in C t with
      | None => Err (InvalidFloatInput t)
      | Some x =>
          match cast_all C rest with
          | Ok xs => Ok (x :: xs)
          | Err e => Err e
          end
      end
  end.

Definition average (xs : list Q) : Q :=
  Qdiv (fold_right Qplus (Qmake 0 1) xs) (Qmake (Z.of_nat (length xs)) 1).

Fixpoint group_stats (C : Platform) (d : database) (questions : list string)
    : result sql_error (list response_stat) :=
  match questions with
  | [] => Ok []
  | q :: rest =>
      let rows := filter (fun r => String.eqb (question_id r) q)
                         (assessment_responses d) in
      match cast_all C (map response rows) with
      | Err e => Err e
      | Ok xs =>
          match group_stats C d rest with
          | Err e => Err e
          | Ok stats =>
              Ok ({| stat_question_id := q;
                     average_rating := average xs;
                     response_count := length rows |} :: stats)
          end
      end
  end.

(** The second statement: [AVG(CAST(response AS FLOAT))] and [COUNT( * )]
    over all of [assessment_responses], [GROUP BY question_id ORDER BY
    question_id]. *)
Definition response_stats_query (C : Platform) (d : database)
    : result sql_error (list response_stat) :=
  group_stats C d
    (sort_by (collate_le C)
       (nodup string_dec (map question_id (assessment_responses d)))).

Record statistics : Type := {
  stats_assessments : assessment_stats;
  stats_responses : list response_stat
}.

Definition admin_statistics (C : Platform) (srv : server)
    (adminKey : option string) (d : database) : admin_response statistics :=
  match adminAuth srv adminKey with
  | Respond status error => AdminError status error
  | Next _ =>
      match assessment_stats_query d with
      | Err _ => AdminError 500 INTERNAL_ERROR
      | Ok stats =>
          match response_stats_query C d with
          | Err _ => AdminError 500 INTERNAL_ERROR
          | Ok responseStats =>
              AdminOk {| stats_assessments := stats;
                         stats_responses := responseStats |}
          end
      end
  end.

(** *** GET /api/admin/leader-assessments/:leader *)

(** An element of the answer: the row as stored, with [leader_info],
    [rater_info] and the processed responses. *)
Record leader_assessment : Type := {
  leader_row : assessment;
  leader_info : json;
  rater_info : json;
  leader_responses : list shown_response
}.

Definition transform_leader (C : Platform) (srv : server) (r : joined_row)
    : leader_assessment :=
  let ids := decrypt_identifiers C srv (row r) in
  {| leader_row := row r;
     leader_info := fst ids;
     rater_info := snd ids;
     leader_responses := processedResponses C srv (row_responses r) |}.

Definition admin_leader_assessments (C : Platform) (srv : server)
    (adminKey : option string) (leaderToken : string) (d : database)
    : admin_response (list leader_assessment) :=
  match adminAuth srv adminKey with
  | Respond status error => AdminError status error
  | Next _ =>
      match EncryptionService.decrypt C (encryption srv) leaderToken with
      | Err _ => AdminError 500 INTERNAL_ERROR
      | Ok leaderData =>
          match createLeaderHash C leaderData with
          | None => AdminError 500 INTERNAL_ERROR
          | Some leaderHash =>
              match joined_rows (fun a => String.eqb (leader_hash a) leaderHash) d with
              | [] => AdminError 404 "No assessments found for this leader"
              | rows => AdminOk (map (transform_leader C srv) rows)
              end
          end
      end
  end.

(** What the listing route shows for the two identifiers of a row: what
    they decrypt to when both decrypt, the marker for both otherwise. *)
Definition identifiers_shown (C : Platform) (srv : server) (r : listed_assessment)
    : Prop :=
  match EncryptionService.decrypt C (encryption srv)
          (encrypted_leader_identifier (listed_row r)),
        EncryptionService.decrypt C (encryption srv)
          (encrypted_rater_identifier (listed_row r)) with
  | Ok leader, Ok rater =>
      listed_leader_identifier r = leader /\ listed_rater_identifier r = rater
  | _, _ =>
      listed_leader_identifier r = DECRYPTION_ERROR
      /\ listed_rater_identifier r = DECRYPTION_ERROR
  end.

(** What the listing route shows for a stored response: the text of a
    rating, and for an open-ended question what the text decrypts to, or
    the marker when it does not decrypt. *)
Definition response_shown (C : Platform) (srv : server) (s : assessment_response)
    : json :=
  if startsWith (question_id s) "open_" then
    match EncryptionService.decrypt C (encryption srv) (response s) with
    | Ok v => v
    | Err _ => DECRYPTION_ERROR
    end
  else JStr (response s).

Definition responses_shown (C : Platform) (srv : server) (d : database)
    (r : listed_assessment) : Prop :=
  forall s, In s (assessment_responses d) -> assessment_id s = id (listed_row r) ->
    exists shown,
      In shown (listed_responses r)
      /\ shown_question_id shown = Some (question_id s)
      /\ shown_value shown = response_shown C srv s
      /\ shown_created_at shown = Some (response_created_at s).

(** ** A small instance of the platform

    Used where a property is shown on concrete data: a stream cipher that
    adds the key to the text, with a keyed checksum as tag. *)

Definition xor_byte (a b : byte) : byte :=
  let 'Ascii a0 a1 a2 a3 a4 a5 a6 a7 := a in
  let 'Ascii b0 b1 b2 b3 b4 b5 b6 b7 := b in
  Ascii (xorb a0 b0) (xorb a1 b1) (xorb a2 b2) (xorb a3 b3)
        (xorb a4 b4) (xorb a5 b5) (xorb a6 b6) (xorb a7 b7).

Fixpoint key_stream (key : Buffer) (i : nat) (text : Buffer) : Buffer :=
  match text with
  | [] => []
  | b :: rest => xor_byte b (nth (i mod 32) key zero) :: key_stream key (S i) rest
  end.

Definition toy_tag (key iv ciphertext : Buffer) : Buffer :=
  let sum := fold_right xor_byte zero ciphertext in
  map (fun j => xor_byte sum (xor_byte (nth j key zero) (nth j iv zero))) (seq 0 16).

Definition toy_seal (key iv plaintext : Buffer) : Buffer * Buffer :=
  let ciphertext := key_stream key 0 plaintext in
  (ciphertext, toy_tag key iv ciphertext).

Definition toy_open (key iv tag ciphertext : Buffer) : option Buffer :=
  if list_eq_dec ascii_dec tag (toy_tag key iv ciphertext)
  then Some (key_stream key 0 ciphertext)
  else None.

(** The texts of uuids in their usual form: 32 hexadecimal digits in
    groups of 8, 4, 4, 4 and 12, separated by hyphens. *)
Fixpoint hex_number (acc : N) (cs : list ascii) : option N :=
  match cs with
  | [] => Some acc
  | c :: rest =>
      match Json.hex_value c with
      | Some v => hex_number (16 * acc + v)%N rest
      | None => None
      end
  end.

Definition toy_uuid_in (text : string) : option uuid :=
  let cs := list_ascii_of_string text in
  let hyphen i := (nth i cs " " =? "-")%char in
  if (length cs =? 36) && hyphen 8 && hyphen 13 && hyphen 18 && hyphen 23
  then
    option_map N.to_nat
      (hex_number 0 (firstn 8 cs ++ firstn 4 (skipn 9 cs)
                     ++ firstn 4 (skipn 14 cs) ++ firstn 4 (skipn 19 cs)
                     ++ skipn 24 cs))
  else None.

(** The rational a decimal denotes. *)
Definition decimal_Q (d : decimal) : Q :=
  let m := Z.of_N (N.of_uint (Json.digits_uint (digits d))) in
  let e := (point d - Z.of_nat (length (digits d)))%Z in
  let x := if (0 <=? e)%Z then Qmake (m * 10 ^ e) 1
           else Qmake m (Z.to_pos (10 ^ (- e))) in
  if negative d then Qopp x else x.

Definition toy_platform : Platform :=
  {| gcm_seal := toy_seal;
     gcm_open := toy_open;
     cbc_seal := fun key iv plaintext => key_stream key 0 (iv ++ plaintext);
     sha256 := fun b => firstn 32 (b ++ repeat zero 32);
     float8in := fun t =>
       match Json.parse Finite t with
       | Some (JNum (Finite d)) => Some (decimal_Q d)
       | _ => None
       end;
     number_value := Finite;
     uuid_in := toy_uuid_in;
     collate_le := String.leb |}.

(** ** Example data *)

Module Example.

(** The base64 text of the bytes 0, 1, ..., 31. *)
Definition key_text : string := "AAECAwQFBgcICQoLDA0ODxAREhMUFRYXGBkaGxwdHh8=".

Definition service : EncryptionService.t :=
  {| EncryptionService.key := Base64.decode key_text |}.

Definition srv : server :=
  {| encryption := service; ADMIN_KEY := Some "secret"%string |}.

Definition admin : option string := Some "secret"%string.

Definition source (start : nat) : entropy :=
  {| noise := fun i => ascii_of_nat (7 * i + 3); cursor := start |}.

Definition token_of (v : json) (e : entropy) : string :=
  match fst (EncryptionService.encrypt toy_platform service v e) with
  | Ok token => token
  | Err _ => EmptyString
  end.

Definition leader : json :=
  Eval vm_compute in
    JObj [("name", JStr "Ann"); ("id", JNum (Json.integer 7))]%string.
Definition leader_reordered : json :=
  Eval vm_compute in
    JObj [("id", JNum (Json.integer 7)); ("name", JStr "Ann")]%string.
Definition rater1 : json :=
  Eval vm_compute in
    JObj [("role", JStr "peer"); ("id", JNum (Json.integer 9))]%string.
Definition rater2 : json :=
  Eval vm_compute in
    JObj [("role", JStr "manager"); ("id", JNum (Json.integer 10))]%string.
Definition rater3 : json :=
  Eval vm_compute in
    JObj [("role", JStr "self"); ("id", JNum (Json.integer 11))]%string.

(** [{"name": "Ann", "score": 4.5, "change": -0.125, "budget": 1e+21,
    "error": 1e-7, "count": 1200, "tags": [true, null, 0]}]. *)
Definition reading : json :=
  JObj [("name", JStr "Ann");
        ("score", JNum (Finite {| negative := false;
                                  digits := [dig4; dig5]; point := 1 |}));
        ("change", JNum (Finite {| negative := true;
                                   digits := [dig1; dig2; dig5]; point := 0 |}));
        ("budget", JNum (Finite {| negative := false;
                                   digits := [dig1]; point := 22 |}));
        ("error", JNum (Finite {| negative := false;
                                  digits := [dig1]; point := -6 |}));
        ("count", JNum (Finite {| negative := false;
                                  digits := [dig1; dig2]; point := 4 |}));
        ("tags", JArr [JBool true; JNull; JNum (Finite Json.zero)])]%string.

Definition leaderToken : string := Eval vm_compute in token_of leader (source 0).
Definition leaderToken2 : string :=
  Eval vm_compute in token_of leader_reordered (source 100).
Definition raterToken1 : string := Eval vm_compute in token_of rater1 (source 200).
Definition raterToken2 : string := Eval vm_compute in token_of rater2 (source 300).
Definition raterToken3 : string := Eval vm_compute in token_of rater3 (source 500).

Definition empty_world : world :=
  {| db := {| assessments := []; assessment_responses := [] |};
     uuid_counter := 1;
     rng := source 400 |}.

Definition start1 : start_request :=
  {| start_token := Some raterToken1;
     body_encrypted_leader_identifier := Some leaderToken;
     body_encrypted_rater_identifier := Some raterToken1 |}.

Definition start2 : start_request :=
  {| start_token := Some raterToken2;
     body_encrypted_leader_identifier := Some leaderToken2;
     body_encrypted_rater_identifier := Some raterToken2 |}.

(** The world after the first and after the second assessment was
    started, at times 10 and 11. *)
Definition world1 : world :=
  snd (assessment_start toy_platform srv 10%Z start1 empty_world).
Definition world2 : world :=
  snd (assessment_start toy_platform srv 11%Z start2 world1).

(** The answers of the rater of the first assessment, sent at time
    20. *)
Definition submit1 : submit_request :=
  {| submit_token := Some raterToken1;
     assessmentId := 1;
     responses :=
       [{| questionId := "model_the_way_0"; entry_response := "4" |};
        {| questionId := "open_0"; entry_response := "Great listener" |}] |}.

Definition world3 : world :=
  snd (assessment_submit toy_platform srv 20%Z submit1 world2).

(** A batch that names a question twice. *)
Definition submit_twice : submit_request :=
  {| submit_token := Some raterToken2;
     assessmentId := 2;
     responses :=
       [{| questionId := "model_the_way_0"; entry_response := "4" |};
        {| questionId := "open_0"; entry_response := "Patient" |};
        {| questionId := "model_the_way_0"; entry_response := "5" |}] |}.

(** The text of the identifier of the first assessment, and the request
    [submit1] as it arrives. *)
Definition first_id : string := "00000000-0000-0000-0000-000000000001".

Definition body1 : submit_body :=
  {| body_token := Some raterToken1;
     body_assessmentId := Some first_id;
     body_responses := responses submit1 |}.

(** The world after the answers [body1] arrived at time 20, and after a
    third assessment was then started at time 21. *)
Definition world4 : world :=
  snd (submit_route toy_platform srv 20%Z body1 world2).

Definition start3 : start_request :=
  {| start_token := Some raterToken3;
     body_encrypted_leader_identifier := Some leaderToken;
     body_encrypted_rater_identifier := Some raterToken3 |}.

Definition world5 : world :=
  snd (assessment_start toy_platform srv 21%Z start3 world4).

(** The tables of [world3] with two damaged rows added: an assessment
    whose leader ciphertext is not an envelope, beside the two intact
    ones, and for the second assessment an open-ended response that is
    not an envelope. *)
Definition mixed_db : database :=
  {| assessments :=
       assessments (db world3)
       ++ [{| id := 3;
              encrypted_leader_identifier := "not-an-envelope";
              encrypted_rater_identifier := raterToken3;
              leader_hash := EmptyString;
              role := self;
              created_at := 12%Z;
              updated_at := 12%Z;
              completed_at := None |}];
     assessment_responses :=
       assessment_responses (db world3)
       ++ [{| response_id := 9;
              assessment_id := 2;
              question_id := "open_1";
              response := "not-an-envelope";
              response_created_at := 22%Z |}] |}.

(** A table whose only assessment has a leader ciphertext that is not an
    envelope, and the rater ciphertext of the first example. *)
Definition corrupt_db : database :=
  {| assessments :=
       [{| id := 1;
           encrypted_leader_identifier := "not-an-envelope";
           encrypted_rater_identifier := raterToken1;
           leader_hash := EmptyString;
           role := peer;
           created_at := 10%Z;
           updated_at := 10%Z;
           completed_at := None |}];
     assessment_responses := [] |}.

End Example.

(** ** Notions used in the statements and proofs *)

Section Auxiliary.
Import Json.

(** A text position at which a value has ended: the end of the input or
    one of the delimiters of the grammar. *)
Definition delimited (rest : list ascii) : Prop :=
  match rest with
  | [] => True
  | c :: _ => c = ","%char \/ c = "]"%char \/ c = "}"%char
  end.

Definition is_digit (c : ascii) : Prop := digit_of_char c <> None.

(** Texts that begin with the first character of a value. *)
Definition starts_value (s : list ascii) : Prop :=
  match s with
  | [] => False
  | c :: _ => is_ws c = false /\ c <> "]"%char /\ c <> "}"%char
  end.

(** Fuel that suffices to read a value back. *)
Fixpoint size (v : json) : nat :=
  match v with
  | JArr elems => S (fold_right (fun e acc => S (size e) + acc) 0 elems)
  | JObj members =>
      S (fold_right (fun kv acc => S (size (snd kv)) + acc) 0 members)
  | _ => 1
  end.

Definition reads_back (F : decimal -> number) (v : json) : Prop :=
  forall fuel rest, size v <= fuel -> delimited rest ->
    parse_value F fuel (SerializeJSONProperty None v ++ rest) = Some (v, rest).

(** A text that does not continue a run of digits. *)
Definition no_digit (rest : list ascii) : Prop :=
  match rest with
  | [] => True
  | c :: _ => digit_of_char c = None
  end.

(** The characters of the text of a finite number. *)
Definition number_char (c : ascii) : Prop :=
  is_digit c \/ In c ["."; "e"; "+"; "-"]%char.

(** Digits of a normal decimal: there is one, and neither the first nor
    the last is zero. *)
Definition significant (s : list digit) : Prop :=
  s <> [] /\ strip_zeros s = s /\ strip_trailing s = s.

Definition member_text (kv : string * json) : list ascii :=
  QuoteJSONString (fst kv) ++ ":"%char :: SerializeJSONProperty None (snd kv).

(** The envelope [encrypt] returns, with the random IV and salt it
    drew. *)
Definition envelope (C : Platform) (this : EncryptionService.t) (v : json) (iv salt : Buffer) : string :=
  let sealed := gcm_seal C (EncryptionService.key this) iv (utf8_encode (Json.stringify v)) in
  Base64.encode true (iv ++ salt ++ snd sealed ++ fst sealed).

(** Every character of a ["base64url"] text is a letter, a digit, ["-"]
    or ["_"]. *)
Definition url_safe (c : ascii) : Prop :=
  In c (list_ascii_of_string Base64.alphabet_url).

End Auxiliary.

(** ** utils/generateToken: [decryptToken] *)

(** The decipher of ["aes-256-cbc"]: [cbc_open key iv ciphertext] is the
    plaintext of [update] and [final], or [None] when [final] throws. *)
Record CbcDecipher : Type := {
  cbc_open : Buffer -> Buffer -> Buffer -> option Buffer
}.

(** What the CBC primitives guarantee for a 32-byte key and a 16-byte IV:
    the ciphertext is never empty (the last block is always padded), and
    the decipher gives the plaintext back. *)
Definition cbc_lawful (C : Platform) (D : CbcDecipher) : Prop :=
  forall key iv plaintext,
    length key = 32 -> length iv = 16 ->
    cbc_seal C key iv plaintext <> []
    /\ cbc_open D key iv (cbc_seal C key iv plaintext) = Some plaintext.

(** [s.split(sep)] for a separator of one character. *)
Fixpoint split_on (sep : ascii) (s : list ascii) : list (list ascii) :=
  match s with
  | [] => [[]]
  | c :: rest =>
      if (c =? sep)%char then [] :: split_on sep rest
      else
        match split_on sep rest with
        | part :: parts => (c :: part) :: parts
        | [] => [[c]]
        end
  end.

Inductive decrypt_token_error : Type :=
| DecryptKeyNotSet
| InvalidTokenFormat
| DecipherKeyLength
| DecipherIV
| BadDecrypt.

Definition is_empty (s : list ascii) : bool :=
  match s with
  | [] => true
  | _ :: _ => false
  end.

(** [decryptToken(token)] with the value of [process.env.ENCRYPTION_KEY].
    The first two parts of [token.split(":")] are the IV and the data; an
    absent or empty part is an invalid format.  [createDecipheriv] needs
    a 16-byte IV and a 32-byte key, and reports the IV first. *)
Definition decryptToken (C : Platform) (D : CbcDecipher)
    (ENCRYPTION_KEY : option string) (token : string)
    : result decrypt_token_error string :=
  match ENCRYPTION_KEY with
  | None => Err DecryptKeyNotSet
  | Some EmptyString => Err DecryptKeyNotSet
  | Some encryptionKey =>
      match split_on ":" (list_ascii_of_string token) with
      | ivBase64 :: encryptedData :: _ =>
          if is_empty ivBase64 || is_empty encryptedData
          then Err InvalidTokenFormat
          else
            let iv := Base64.decode (string_of_list_ascii ivBase64) in
            let key := utf8_encode encryptionKey in
            if negb (length iv =? 16) then Err DecipherIV
            else if negb (length key =? 32) then Err DecipherKeyLength
            else
              match cbc_open D key iv
                      (Base64.decode (string_of_list_ascii encryptedData)) with
              | Some decrypted => Ok (utf8_decode decrypted)
              | None => Err BadDecrypt
              end
      | _ => Err InvalidTokenFormat
      end
  end.

(** The decipher that matches the small platform. *)
Definition toy_decipher : CbcDecipher :=
  {| cbc_open := fun key iv ciphertext =>
       Some (skipn (length iv) (key_stream key 0 ciphertext)) |}.

(** ** The constraints of the schema *)

Definition response_key (r : assessment_response) : uuid * string :=
  (assessment_id r, question_id r).

(** The keys and constraints that database/init declares for the two
    tables: the primary keys, [UNIQUE(encrypted_rater_identifier)],
    [UNIQUE(assessment_id, question_id)] and the reference from a
    response to its assessment. *)
Record consistent (d : database) : Prop := {
  unique_ids : NoDup (map id (assessments d));
  unique_raters : NoDup (map encrypted_rater_identifier (assessments d));
  unique_response_ids : NoDup (map response_id (assessment_responses d));
  unique_questions : NoDup (map response_key (assessment_responses d));
  responses_refer :
    forall r, In r (assessment_responses d) ->
      In (assessment_id r) (map id (assessments d))
}.

(** Every stored [leader_hash] is the fingerprint of what the stored
    leader ciphertext decrypts to. *)
Definition hashes_match (C : Platform) (srv : server) (d : database) : Prop :=
  forall a, In a (assessments d) ->
    exists leaderData,
      EncryptionService.decrypt C (encryption srv) (encrypted_leader_identifier a)
      = Ok leaderData
      /\ createLeaderHash C leaderData = Some (leader_hash a).

(** The worlds that start and submit requests lead to from [w], whatever
    the requests and the times at which they are served. *)
Inductive later (C : Platform) (srv : server) (w : world) : world -> Prop :=
| later_now : later C srv w w
| later_start (now : timestamp) (req : start_request) (w' : world) :
    later C srv w w' ->
    later C srv w (snd (assessment_start C srv now req w'))
| later_submit (now : timestamp) (req : submit_body) (w' : world) :
    later C srv w w' ->
    later C srv w (snd (submit_route C srv now req w')).

(** What a listing shows for an assessment without responses: the one
    element the [LEFT JOIN] produces, with every field [null]. *)
Definition no_response : shown_response :=
  {| shown_question_id := None; shown_value := JNull; shown_created_at := None |}.

Definition shown_of (C : Platform) (srv : server) (s : assessment_response)
    : shown_response :=
  {| shown_question_id := Some (question_id s);
     shown_value := response_shown C srv s;
     shown_created_at := Some (response_created_at s) |}.

(** The text [createLeaderHash] hashes; [None] when [Object.keys]
    throws. *)
Definition hashed_text (leaderData : json) : option string :=
  match Object_keys leaderData with
  | None => None
  | Some keys => Some (Json.stringify_with (sort_keys keys) leaderData)
  end.

(** A string, a boolean, [null], or a finite number given by its normal
    decimal. *)
Definition scalar (v : json) : Prop :=
  match v with
  | JArr _ | JObj _ => False
  | JNum (Finite d) => Json.normal d = d
  | JNum (Infinite _) => False
  | _ => True
  end.

(** An identifier without nesting: an object whose properties are
    strings, finite numbers, booleans or [null]. *)
Definition flat (v : json) : Prop :=
  match v with
  | JObj members => Forall (fun kv => scalar (snd kv)) members
  | _ => False
  end.

(** ** The client (frontend/src/App.tsx) *)

Module Client.

Record practice : Type := {
  practice_id : string;
  practice_name : string;
  questions : list string
}.

(** [assessmentFramework], as far as [allQuestions] reads it. *)
Record framework : Type := {
  practices : list practice;
  open_ended : list string
}.

Record question : Type := {
  question_ident : string;
  question_practice : option string;
  question_text : string;
  question_type : string
}.

(** [Array.prototype.indexOf]: the first position holding the element,
    [-1] when there is none. *)
Fixpoint indexOf_from (i : Z) (l : list string) (x : string) : Z :=
  match l with
  | [] => (-1)%Z
  | y :: rest => if String.eqb y x then i else indexOf_from (i + 1)%Z rest x
  end.

Definition indexOf (l : list string) (x : string) : Z := indexOf_from 0%Z l x.

(** [`${n}`] for an integer [n]. *)
Definition number_text (n : Z) : string :=
  string_of_list_ascii (Json.number_chars (Json.integer n)).

(** [array.map((element, index) => ...)]. *)
Fixpoint map_index_from {A B : Type} (i : Z) (f : A -> Z -> B) (l : list A)
    : list B :=
  match l with
  | [] => []
  | x :: rest => f x i :: map_index_from (i + 1)%Z f rest
  end.

Definition map_index {A B : Type} (f : A -> Z -> B) (l : list A) : list B :=
  map_index_from 0%Z f l.

Definition allQuestions (f : framework) : list question :=
  flat_map
    (fun practice =>
       map (fun question =>
              {| question_ident :=
                   (practice_id practice ++ "_"
                    ++ number_text (indexOf (questions practice) question))%string;
                 question_practice := Some (practice_name practice);
                 question_text := question;
                 question_type := "rating" |})
           (questions practice))
    (practices f)
  ++ map_index
       (fun question index =>
          {| question_ident := ("open_" ++ number_text index)%string;
             question_practice := None;
             question_text := question;
             question_type := "open_ended" |})
       (open_ended f).

(** The identifiers [allQuestions] gives the rating questions of a
    practice, and the open-ended questions counted from [i]. *)
Definition rating_idents (p : practice) : list string :=
  map (fun q => (practice_id p ++ "_"
                 ++ number_text (indexOf (questions p) q))%string)
      (questions p).

Fixpoint open_idents (i : Z) (l : list string) : list string :=
  match l with
  | [] => []
  | _ :: rest => ("open_" ++ number_text i)%string :: open_idents (i + 1)%Z rest
  end.

(** [{ ...object, [key]: value }] on an object whose property names are
    not array indices, so that its properties are listed in the order
    they were created: an existing property keeps its place. *)
Fixpoint set_property (key value : string) (object : list (string * string))
    : list (string * string) :=
  match object with
  | [] => [(key, value)]
  | (k, v) :: rest =>
      if String.eqb k key then (k, value) :: rest
      else (k, v) :: set_property key value rest
  end.

(** [updatedResponses] after one more answer, and the entry sent for a
    property of [Object.entries(updatedResponses)]. *)
Definition record_answer (object : list (string * string))
    (pair : string * string) : list (string * string) :=
  set_property (fst pair) (snd pair) object.

Definition as_entry (pair : string * string) : response_entry :=
  {| questionId := fst pair; entry_response := snd pair |}.

(** The state of the [Assessment] component that [handleResponse] reads
    and writes. *)
Record state : Type := {
  loading : bool;
  error : option string;
  currentQuestion : nat;
  responses : list (string * string);
  assessmentId : option uuid;
  submitted : bool;
  rating : option Z;
  openResponse : string
}.

(** The body and the [token] parameter of the POST to
    [/api/assessment/submit]. *)
Record post : Type := {
  post_token : option string;
  post_assessmentId : option uuid;
  post_responses : list response_entry
}.

Inductive outcome : Type :=
| Throws                          (* reading [.id] of [undefined] *)
| Advance (st : state)
| Post (request : post) (st : state).

Definition handleResponse (f : framework) (rater_token : option string)
    (st : state) (response : string) : outcome :=
  match nth_error (allQuestions f) (currentQuestion st) with
  | None => Throws
  | Some q =>
      let questionId := question_ident q in
      let updatedResponses :=
        record_answer (responses st) (questionId, response) in
      if (Z.of_nat (currentQuestion st)
          <? Z.of_nat (length (allQuestions f)) - 1)%Z
      then Advance {| loading := loading st;
                      error := error st;
                      currentQuestion := currentQuestion st + 1;
                      responses := updatedResponses;
                      assessmentId := assessmentId st;
                      submitted := submitted st;
                      rating := None;
                      openResponse := EmptyString |}
      else Post {| post_token := rater_token;
                   post_assessmentId := assessmentId st;
                   post_responses :=
                     map as_entry updatedResponses |}
                {| loading := true;
                   error := error st;
                   currentQuestion := currentQuestion st;
                   responses := updatedResponses;
                   assessmentId := assessmentId st;
                   submitted := submitted st;
                   rating := rating st;
                   openResponse := openResponse st |}
  end.

(** The component once [/api/assessment/start] has answered. *)
Definition started (aid : uuid) : state :=
  {| loading := false;
     error := None;
     currentQuestion := 0;
     responses := [];
     assessmentId := Some aid;
     submitted := false;
     rating := None;
     openResponse := EmptyString |}.

(** The user answers question after question; the run ends with the
    first call that does not advance. *)
Fixpoint answer (f : framework) (rater_token : option string) (st : state)
    (answers : list string) : outcome :=
  match answers with
  | [] => Advance st
  | response :: rest =>
      match handleResponse f rater_token st response with
      | Advance st' => answer f rater_token st' rest
      | other => other
      end
  end.

Definition assessmentFramework : framework :=
  {| practices :=
       [ {| practice_id := "model_the_way";
            practice_name := "Model the Way";
            questions :=
              [ "The leader clearly communicates core values that guide decisions and behavior.";
                "The leader sets an example by aligning actions with stated values.";
                "The leader is consistent and dependable in everyday behavior.";
                "The leader acts with integrity even under pressure.";
                "The leader takes responsibility for mistakes and owns outcomes.";
                "The leader makes values-based decisions, even when difficult." ] |};
         {| practice_id := "inspire_a_shared_vision";
            practice_name := "Inspire a Shared Vision";
            questions :=
              [ "The leader expresses a compelling vision of the future.";
                "The leader helps others understand how their work contributes to a bigger goal.";
                "The leader creates enthusiasm around a shared direction.";
                "The leader talks about possibilities more than problems.";
                "The leader encourages others to imagine what they can achieve together.";
                "The leader builds alignment around long-term goals." ] |};
         {| practice_id := "challenge_the_process";
            practice_name := "Challenge the Process";
            questions :=
              [ "The leader looks for ways to improve existing processes and systems.";
                "The leader encourages experimentation and learning from mistakes.";
                "The leader questions the status quo when needed.";
                "The leader supports others in trying new approaches.";
                "The leader takes calculated risks to advance progress.";
                "The leader learns from setbacks and adapts quickly." ] |};
         {| practice_id := "enable_others_to_act";
            practice_name := "Enable Others to Act";
            questions :=
              [ "The leader fosters a culture of collaboration and mutual support.";
                "The leader trusts team members to make decisions.";
                "The leader encourages professional development and growth.";
                "The leader shares information openly to build confidence.";
                "The leader treats others with respect and dignity.";
                "The leader builds strong, cooperative relationships across the team." ] |};
         {| practice_id := "encourage_the_heart";
            practice_name := "Encourage the Heart";
            questions :=
              [ "The leader acknowledges individual and team achievements.";
                "The leader celebrates milestones and progress.";
                "The leader gives regular, sincere feedback and praise.";
                "The leader shows appreciation in meaningful ways.";
                "The leader creates a sense of pride and belonging in the team.";
                "The leader expresses genuine care and encouragement." ] |} ];
     open_ended :=
       [ "What is one thing this leader does particularly well?";
         "What is one area where this leader could improve?" ] |}%string.

End Client.

(* ================================================================== *)
(** * Part II. Properties                                             *)
(* ================================================================== *)

Section Base64Facts.
Import Base64.

Lemma unbase64_encode_char (url : bool) (s : sextet) :
  unbase64 (encode_char url s) = Some s.
Proof.
  destruct url; destruct s as [[] [] [] [] [] []]; reflexivity.
Qed.

Lemma legal_prefix_encoded (url : bool) (ss : list sextet) (rest : list ascii) :
  legal_prefix (map (encode_char url) ss ++ rest) = ss ++ legal_prefix rest.
Proof.
  induction ss as [|s ss IH]; simpl; [reflexivity|].
  now rewrite unbase64_encode_char, IH.
Qed.

Lemma regroup_sextets_aux (n : nat) :
  forall bs : Buffer, length bs <= n -> regroup (sextets bs) = bs.
Proof.
  induction n as [|n IH]; intros bs Hlen.
  - destruct bs; [reflexivity | simpl in Hlen; lia].
  - destruct bs as [|a [|b [|c rest]]]; try reflexivity.
    + destruct a; reflexivity.
    + destruct a, b; reflexivity.
    + destruct a, b, c. cbn [sextets split3 regroup join1 join2 join3].
      rewrite IH; [reflexivity | simpl in Hlen; lia].
Qed.

Lemma regroup_sextets (bs : Buffer) : regroup (sextets bs) = bs.
Proof. apply regroup_sextets_aux with (n := length bs). lia. Qed.

(** Unpadded output decodes to the buffer it came from. *)
Lemma decode_encode_url (bs : Buffer) : decode (encode true bs) = bs.
Proof.
  unfold decode, encode, encode_chars.
  rewrite list_ascii_of_string_of_list_ascii. simpl padding.
  rewrite legal_prefix_encoded. simpl. rewrite app_nil_r.
  apply regroup_sextets.
Qed.

(** Padded output followed by anything decodes to the buffer alone: the
    first ["="] ends the input. *)
Lemma decode_encode_padded (bs : Buffer) (tail : string) :
  length bs mod 3 <> 0 ->
  decode (encode false bs ++ tail)%string = bs.
Proof.
  intros Hmod. unfold decode, encode, encode_chars.
  assert (Happ : forall (l : list ascii) (t : string),
    list_ascii_of_string (string_of_list_ascii l ++ t)%string
    = l ++ list_ascii_of_string t).
  { induction l as [|x l IH]; intros t; simpl; [reflexivity | now rewrite IH]. }
  rewrite Happ, <- app_assoc, legal_prefix_encoded.
  assert (Hpad : legal_prefix (padding false (length bs) ++ list_ascii_of_string tail) = []).
  { unfold padding.
    destruct (length bs mod 3) as [|[|[|k]]] eqn:E; try reflexivity; try lia.
    pose proof (Nat.mod_upper_bound (length bs) 3). lia. }
  rewrite Hpad, app_nil_r. apply regroup_sextets.
Qed.

End Base64Facts.

(** ** JSON: parsing inverts serialisation *)


Section JsonFacts.
Import Json.


Lemma escape_char_parsed (c : ascii) (tail : list ascii) :
  parse_string_body (escape_char c ++ tail)
  = prepend [c] (parse_string_body tail).
Proof.
  destruct c as [[] [] [] [] [] [] [] []]; reflexivity.
Qed.

Lemma parse_string_body_quoted (cs rest : list ascii) :
  parse_string_body (flat_map escape_char cs ++ c_quote :: rest)
  = Some (cs, rest).
Proof.
  induction cs as [|c cs IH]; [reflexivity|].
  simpl flat_map. rewrite <- app_assoc, escape_char_parsed, IH. reflexivity.
Qed.

Lemma to_uint_normal (n : N) : Decimal.unorm (N.to_uint n) = N.to_uint n.
Proof.
  rewrite <- (DecimalN.Unsigned.of_to n) at 2.
  now rewrite DecimalN.Unsigned.to_of.
Qed.

Lemma digit_of_digit_char (d : digit) : digit_of_char (digit_char d) = Some d.
Proof. destruct d; reflexivity. Qed.

Lemma uint_chars_digits_map (u : Decimal.uint) :
  uint_chars u = map digit_char (uint_digits u).
Proof. induction u; simpl; congruence. Qed.

Lemma digits_uint_digits (u : Decimal.uint) : digits_uint (uint_digits u) = u.
Proof. induction u; simpl; congruence. Qed.

Lemma read_digits_chars (ds : list digit) (rest : list ascii) :
  no_digit rest -> read_digits (map digit_char ds ++ rest) = (ds, rest).
Proof.
  intros Hrest. induction ds as [|d ds IH].
  - destruct rest as [|c rest]; [reflexivity|]. simpl in *. now rewrite Hrest.
  - cbn [map app read_digits]. now rewrite digit_of_digit_char, IH.
Qed.

Lemma delimited_no_digit (rest : list ascii) : delimited rest -> no_digit rest.
Proof. destruct rest as [|c rest]; [easy|]. intros [->|[->| ->]]; reflexivity. Qed.

Lemma strip_trailing_app_zeros (s : list digit) (j : nat) :
  strip_trailing (s ++ repeat dig0 j) = strip_trailing s.
Proof.
  induction s as [|d s IH].
  - induction j as [|j IHj]; [reflexivity|]. simpl in *. now rewrite IHj.
  - cbn [app strip_trailing]. now rewrite IH.
Qed.

Lemma strip_zeros_zeros_app (s : list digit) (j : nat) :
  strip_zeros (repeat dig0 j ++ s) = strip_zeros s.
Proof. induction j; simpl; auto. Qed.

Lemma leading_zeros_zeros_app (s : list digit) (j : nat) :
  leading_zeros (repeat dig0 j ++ s) = j + leading_zeros s.
Proof. induction j; simpl; auto. Qed.

Lemma strip_zeros_fixed (s : list digit) :
  strip_zeros s = s -> leading_zeros s = 0.
Proof.
  destruct s as [|[] s]; try reflexivity. intros H. exfalso.
  assert (Hlen : forall l, length (strip_zeros l) <= length l).
  { induction l as [|[] l IH]; simpl; lia. }
  specialize (Hlen s). simpl in H. rewrite H in Hlen. simpl in Hlen. lia.
Qed.

Lemma strip_zeros_idem (l : list digit) : strip_zeros (strip_zeros l) = strip_zeros l.
Proof. induction l as [|[] l IH]; simpl; auto. Qed.

Lemma strip_trailing_idem (l : list digit) :
  strip_trailing (strip_trailing l) = strip_trailing l.
Proof.
  induction l as [|d l IH]; [reflexivity|]. cbn [strip_trailing].
  destruct (strip_trailing l) as [|x l'] eqn:E.
  - destruct d; reflexivity.
  - assert (H : strip_trailing (d :: x :: l') = d :: x :: l').
    { cbn [strip_trailing] in *. rewrite IH. now destruct d. }
    destruct d; exact H.
Qed.

Lemma strip_trailing_head (l : list digit) :
  strip_zeros l = l -> strip_zeros (strip_trailing l) = strip_trailing l.
Proof.
  destruct l as [|d l]; [reflexivity|]. intros H. cbn [strip_trailing].
  destruct (strip_trailing l) as [|x l'] eqn:E.
  - destruct d; reflexivity.
  - destruct d; try reflexivity. exfalso.
    pose proof (strip_zeros_fixed _ H). discriminate.
Qed.

(** The normal decimal of a number is zero or has significant digits. *)
Lemma normal_significant (d : decimal) :
  normal d = zero \/ significant (digits (normal d)).
Proof.
  unfold normal.
  destruct (strip_trailing (strip_zeros (digits d))) as [|x s] eqn:E;
    [now left|right]. cbn [digits]. rewrite <- E. repeat split.
  - rewrite E. discriminate.
  - apply strip_trailing_head, strip_zeros_idem.
  - apply strip_trailing_idem.
Qed.

Lemma normal_of_significant (neg : bool) (s : list digit) (n : Z) :
  significant s ->
  normal {| negative := neg; digits := s; point := n |}
  = {| negative := neg; digits := s; point := n |}.
Proof.
  intros (Hne & Hz & Ht). unfold normal. cbn [digits negative point].
  rewrite Hz, Ht, (strip_zeros_fixed _ Hz).
  destruct s; [congruence|]. f_equal. lia.
Qed.

Lemma normal_idem (d : decimal) : normal (normal d) = normal d.
Proof.
  destruct (normal_significant d) as [->|H]; [reflexivity|].
  destruct (normal d) as [neg s n]. now apply normal_of_significant.
Qed.

Lemma significant_head (s : list digit) :
  significant s -> exists d rest, s = d :: rest /\ d <> dig0.
Proof.
  intros (Hne & Hz & _). destruct s as [|d rest]; [congruence|].
  exists d, rest. split; [reflexivity|]. intros ->.
  pose proof (strip_zeros_fixed _ Hz). discriminate.
Qed.

Lemma leading_zero_head (d : digit) (rest : list digit) :
  d <> dig0 -> leading_zero (d :: rest) = false.
Proof. destruct d; try reflexivity. congruence. Qed.

(** Reading an exponent back. *)
Lemma read_exponent_chars (e : Z) (rest : list ascii) :
  no_digit rest -> read_exponent (exponent_chars e ++ rest) = Some (e, rest).
Proof.
  intros Hrest. unfold exponent_chars, read_exponent.
  cbn [app]. change (("e" =? "e")%char || ("e" =? "E")%char) with true. cbv iota.
  assert (Hread : read_digits (uint_chars (N.to_uint (Z.abs_N e)) ++ rest)
                  = (uint_digits (N.to_uint (Z.abs_N e)), rest)).
  { rewrite uint_chars_digits_map. now apply read_digits_chars. }
  assert (Hnil : is_nil (uint_digits (N.to_uint (Z.abs_N e))) = false).
  { pose proof (DecimalFacts.unorm_nonnil (N.to_uint (Z.abs_N e))) as Hn.
    assert (Hu : Decimal.unorm (N.to_uint (Z.abs_N e)) = N.to_uint (Z.abs_N e)).
    { rewrite <- (DecimalN.Unsigned.of_to (Z.abs_N e)) at 2.
      now rewrite DecimalN.Unsigned.to_of. }
    rewrite Hu in Hn. destruct (N.to_uint (Z.abs_N e)); [congruence| ..];
      reflexivity. }
  destruct (e <? 0)%Z eqn:Hneg.
  - change (("-" =? "-")%char) with true. cbv iota.
    rewrite Hread, Hnil, digits_uint_digits, DecimalN.Unsigned.of_to.
    rewrite N2Z.inj_abs_N. apply Z.ltb_lt in Hneg.
    do 2 f_equal. lia.
  - change (("+" =? "-")%char) with false. change (("+" =? "+")%char) with true.
    cbv iota.
    rewrite Hread, Hnil, digits_uint_digits, DecimalN.Unsigned.of_to.
    rewrite N2Z.inj_abs_N. apply Z.ltb_ge in Hneg.
    do 2 f_equal. lia.
Qed.

Lemma read_exponent_delimited (rest : list ascii) :
  delimited rest -> read_exponent rest = Some (0%Z, rest).
Proof. destruct rest as [|c rest]; [easy|]. intros [->|[->| ->]]; reflexivity. Qed.

Lemma read_fraction_delimited (rest : list ascii) :
  delimited rest -> read_fraction rest = Some ([], rest).
Proof. destruct rest as [|c rest]; [easy|]. intros [->|[->| ->]]; reflexivity. Qed.

Lemma read_fraction_exponent (e : Z) (rest : list ascii) :
  read_fraction (exponent_chars e ++ rest) = Some ([], exponent_chars e ++ rest).
Proof. reflexivity. Qed.

Lemma read_fraction_chars (ds : list digit) (rest : list ascii) :
  ds <> [] -> no_digit rest ->
  read_fraction ("."%char :: map digit_char ds ++ rest) = Some (ds, rest).
Proof.
  intros Hne Hrest. unfold read_fraction.
  change (("." =? ".")%char) with true. cbv iota.
  rewrite (read_digits_chars _ _ Hrest). destruct ds; [congruence | reflexivity].
Qed.

Lemma no_digit_exponent (e : Z) (rest : list ascii) :
  no_digit (exponent_chars e ++ rest).
Proof. reflexivity. Qed.

Lemma no_digit_point (rest : list ascii) : no_digit ("."%char :: rest).
Proof. reflexivity. Qed.

Lemma map_repeat_zero (j : nat) :
  repeat "0"%char j = map digit_char (repeat dig0 j).
Proof. induction j; simpl; congruence. Qed.

Lemma strip_zeros_head (d : digit) (l : list digit) :
  d <> dig0 -> strip_zeros (d :: l) = d :: l.
Proof. destruct d; try reflexivity. congruence. Qed.

Lemma leading_zeros_head (d : digit) (l : list digit) :
  d <> dig0 -> leading_zeros (d :: l) = 0.
Proof. destruct d; try reflexivity. congruence. Qed.

Lemma normal_digits_zeros (neg : bool) (s : list digit) (j : nat) (n : Z) :
  significant s ->
  normal {| negative := neg; digits := s ++ repeat dig0 j; point := n |}
  = {| negative := neg; digits := s; point := n |}.
Proof.
  intros Hs. destruct (significant_head _ Hs) as (d & r & -> & Hd).
  destruct Hs as (_ & Hz & Ht). unfold normal. cbn [digits negative point].
  cbn [app]. rewrite (strip_zeros_head _ _ Hd), (leading_zeros_head _ _ Hd).
  change (d :: r ++ repeat dig0 j) with ((d :: r) ++ repeat dig0 j).
  rewrite strip_trailing_app_zeros, Ht. f_equal. lia.
Qed.

Lemma normal_zeros_digits (neg : bool) (s : list digit) (j : nat) (n : Z) :
  significant s ->
  normal {| negative := neg; digits := repeat dig0 j ++ s;
            point := (n + Z.of_nat j)%Z |}
  = {| negative := neg; digits := s; point := n |}.
Proof.
  intros Hs. destruct (significant_head _ Hs) as (d & r & -> & Hd).
  destruct Hs as (_ & Hz & Ht). unfold normal. cbn [digits negative point].
  rewrite strip_zeros_zeros_app, leading_zeros_zeros_app, Hz, Ht.
  rewrite (leading_zeros_head _ _ Hd). f_equal. lia.
Qed.

Lemma read_digits_one (d : digit) (s : list ascii) :
  no_digit s -> read_digits (digit_char d :: s) = ([d], s).
Proof. intros H. exact (read_digits_chars [d] s H). Qed.

Lemma parse_unsigned_chars (F : decimal -> number) (neg : bool)
    (first : digit) (rest : list digit) (n : Z) (tail : list ascii) :
  significant (first :: rest) -> delimited tail ->
  parse_unsigned F neg (positive_chars first rest n ++ tail)
  = Some (F {| negative := neg; digits := first :: rest; point := n |}, tail).
Proof.
  intros Hs Htail.
  pose proof (delimited_no_digit _ Htail) as Hnd.
  destruct (significant_head _ Hs) as (d & r & [= <- <-] & Hd).
  unfold parse_unsigned, positive_chars.
  destruct ((-5 <=? n) && (n <=? 21))%Z eqn:Hrange.
  - destruct (Z.of_nat (length (first :: rest)) <=? n)%Z eqn:Hk.
    + (* digits followed by zeros *)
      apply Z.leb_le in Hk.
      rewrite map_repeat_zero, <- map_app, (read_digits_chars _ _ Hnd).
      cbn [app is_nil]. rewrite (leading_zero_head _ _ Hd). cbn [orb].
      rewrite (read_fraction_delimited _ Htail), (read_exponent_delimited _ Htail).
      do 3 f_equal. rewrite app_nil_r.
      change (first :: rest ++ ?z) with ((first :: rest) ++ z).
      rewrite (normal_digits_zeros _ _ _ _ Hs). f_equal.
      rewrite length_app, repeat_length. lia.
    + destruct (0 <? n)%Z eqn:Hpos.
      * (* a point inside the digits *)
        apply Z.leb_gt in Hk. apply Z.ltb_lt in Hpos.
        rewrite <- app_assoc. cbn [app].
        rewrite (read_digits_chars _ _ (no_digit_point _)).
        assert (Hfirst : firstn (Z.to_nat n) (first :: rest)
                         = first :: firstn (Z.to_nat n - 1) rest).
        { destruct (Z.to_nat n) eqn:E; [lia|].
          cbn [firstn]. f_equal. f_equal. lia. }
        assert (Hlz : is_nil (firstn (Z.to_nat n) (first :: rest))
                      || leading_zero (firstn (Z.to_nat n) (first :: rest)) = false).
        { rewrite Hfirst. cbn [is_nil]. now rewrite (leading_zero_head _ _ Hd). }
        rewrite Hlz.
        assert (Hskip : skipn (Z.to_nat n) (first :: rest) <> []).
        { intros E. apply (f_equal (@length digit)) in E.
          rewrite length_skipn in E. cbn [length] in E, Hk. lia. }
        rewrite (read_fraction_chars _ _ Hskip Hnd),
          (read_exponent_delimited _ Htail).
        do 3 f_equal. rewrite firstn_skipn, length_firstn.
        replace (Z.of_nat (Nat.min (Z.to_nat n) (length (first :: rest))) + 0)%Z
          with n by lia.
        now apply normal_of_significant.
      * (* zeros between the point and the digits *)
        apply Z.ltb_ge in Hpos.
        assert (Hr : forall l, read_digits ("0"%char :: "."%char :: l)
                               = ([dig0], "."%char :: l)) by reflexivity.
        cbn [app]. rewrite Hr. cbn [is_nil leading_zero orb].
        rewrite map_repeat_zero, <- map_app.
        assert (Hfrac : repeat dig0 (Z.to_nat (- n)) ++ first :: rest <> [])
          by (destruct (repeat dig0 (Z.to_nat (- n))); discriminate).
        rewrite (read_fraction_chars _ _ Hfrac Hnd),
          (read_exponent_delimited _ Htail).
        do 3 f_equal.
        change ([dig0] ++ repeat dig0 (Z.to_nat (- n)) ++ first :: rest)
          with (repeat dig0 (S (Z.to_nat (- n))) ++ first :: rest).
        rewrite <- (normal_zeros_digits neg (first :: rest) (S (Z.to_nat (- n))) n Hs).
        do 2 f_equal. cbn [length]. lia.
  - destruct rest as [|d2 rest].
    + (* one digit and an exponent *)
      cbn [app]. rewrite (read_digits_one _ _ (no_digit_exponent _ _)).
      cbn [is_nil]. rewrite (leading_zero_head _ _ Hd). cbn [orb].
      rewrite read_fraction_exponent, (read_exponent_chars _ _ Hnd).
      do 3 f_equal. cbn [app length].
      replace (Z.of_nat 1 + (n - 1))%Z with n by lia.
      now apply normal_of_significant.
    + (* a point after the first digit, and an exponent *)
      cbn [app]. rewrite (read_digits_one _ _ (no_digit_point _)).
      cbn [is_nil]. rewrite (leading_zero_head _ _ Hd). cbn [orb].
      rewrite <- app_assoc.
      rewrite (read_fraction_chars (d2 :: rest) _ ltac:(discriminate)
                 (no_digit_exponent _ _)).
      rewrite (read_exponent_chars _ _ Hnd).
      do 3 f_equal. cbn [app length].
      replace (Z.of_nat 1 + (n - 1))%Z with n by lia.
      now apply normal_of_significant.
Qed.

Lemma positive_chars_start (first : digit) (rest : list digit) (n : Z) :
  exists c cs, positive_chars first rest n = c :: cs /\ is_digit c.
Proof.
  unfold positive_chars.
  destruct ((-5 <=? n) && (n <=? 21))%Z.
  - destruct (Z.of_nat (length (first :: rest)) <=? n)%Z.
    + cbn [map app]. eexists _, _. split; [reflexivity|].
      unfold is_digit. rewrite digit_of_digit_char. discriminate.
    + destruct (0 <? n)%Z eqn:Hpos.
      * apply Z.ltb_lt in Hpos. destruct (Z.to_nat n) eqn:E; [lia|].
        cbn [firstn map app]. eexists _, _. split; [reflexivity|].
        unfold is_digit. rewrite digit_of_digit_char. discriminate.
      * eexists _, _. split; [reflexivity|]. unfold is_digit. discriminate.
  - destruct rest; eexists _, _; (split; [reflexivity|]);
      unfold is_digit; rewrite digit_of_digit_char; discriminate.
Qed.

Lemma digit_not_minus (c : ascii) : is_digit c -> (c =? "-")%char = false.
Proof.
  intros H. destruct (Ascii.eqb_spec c "-"%char) as [->|]; [|reflexivity].
  exfalso. apply H. reflexivity.
Qed.

(** Reading back what [Number::toString] printed gives the Number value
    of the normal decimal. *)
Lemma parse_number_chars (F : decimal -> number) (d : decimal) (tail : list ascii) :
  delimited tail ->
  parse_number F (number_chars (Finite d) ++ tail) = Some (F (normal d), tail).
Proof.
  intros Htail. cbn [number_chars]. unfold parse_number.
  destruct (normal_significant d) as [Hzero|Hs].
  - rewrite Hzero. cbn [decimal_chars zero digits app].
    change (("0" =? "-")%char) with false. cbv iota.
    unfold parse_unsigned.
    change ("0"%char :: tail) with (digit_char dig0 :: tail).
    rewrite (read_digits_one dig0 _ (delimited_no_digit _ Htail)).
    cbn [is_nil leading_zero orb].
    rewrite (read_fraction_delimited _ Htail), (read_exponent_delimited _ Htail).
    reflexivity.
  - unfold decimal_chars. destruct (normal d) as [neg s n] eqn:E.
    cbn [digits negative point] in *.
    destruct s as [|first rest]; [now destruct Hs|].
    destruct neg.
    + cbn [app]. change (("-" =? "-")%char) with true. cbv iota.
      now apply parse_unsigned_chars.
    + cbn [app]. destruct (positive_chars_start first rest n) as (c & cs & Ec & Hc).
      rewrite Ec. cbn [app]. rewrite (digit_not_minus _ Hc).
      change (c :: cs ++ tail) with ((c :: cs) ++ tail). rewrite <- Ec.
      now apply parse_unsigned_chars.
Qed.

(** Texts of distinct numbers differ. *)
Lemma number_chars_injective (d1 d2 : decimal) :
  number_chars (Finite d1) = number_chars (Finite d2) -> normal d1 = normal d2.
Proof.
  intros E.
  pose proof (parse_number_chars Finite d1 [] I) as P1.
  pose proof (parse_number_chars Finite d2 [] I) as P2.
  rewrite E, P2 in P1. now injection P1.
Qed.

Lemma digit_chars_number (ds : list digit) : Forall number_char (map digit_char ds).
Proof.
  induction ds as [|d ds IH]; constructor; [|exact IH].
  left. unfold is_digit. rewrite digit_of_digit_char. discriminate.
Qed.

Lemma zeros_number (j : nat) : Forall number_char (repeat "0"%char j).
Proof. rewrite map_repeat_zero. apply digit_chars_number. Qed.

Lemma exponent_chars_number (e : Z) : Forall number_char (exponent_chars e).
Proof.
  unfold exponent_chars. constructor; [right; simpl; tauto|].
  constructor; [destruct (e <? 0)%Z; right; simpl; tauto|].
  rewrite uint_chars_digits_map. apply digit_chars_number.
Qed.

Lemma number_chars_alphabet (d : decimal) :
  Forall number_char (number_chars (Finite d)).
Proof.
  cbn [number_chars]. unfold decimal_chars.
  destruct (digits (normal d)) as [|first rest].
  - constructor; [|constructor]. left. unfold is_digit. discriminate.
  - apply Forall_app. split.
    + destruct (negative (normal d)); constructor; [|constructor].
      right. simpl. tauto.
    + unfold positive_chars.
      destruct ((-5 <=? point (normal d)) && (point (normal d) <=? 21))%Z.
      * destruct (Z.of_nat (length (first :: rest)) <=? point (normal d))%Z.
        -- apply Forall_app. split; [apply digit_chars_number | apply zeros_number].
        -- destruct (0 <? point (normal d))%Z.
           ++ apply Forall_app. split; [apply digit_chars_number|].
              constructor; [right; simpl; tauto | apply digit_chars_number].
           ++ constructor; [left; unfold is_digit; discriminate|].
              constructor; [right; simpl; tauto|].
              apply Forall_app. split; [apply zeros_number | apply digit_chars_number].
      * destruct rest as [|d2 rest].
        -- constructor; [|apply exponent_chars_number].
           left. unfold is_digit. rewrite digit_of_digit_char. discriminate.
        -- constructor;
             [left; unfold is_digit; rewrite digit_of_digit_char; discriminate|].
           constructor; [right; simpl; tauto|].
           apply Forall_app. split;
             [apply digit_chars_number | apply exponent_chars_number].
Qed.

Lemma strip_trailing_zeros (l : list digit) :
  l = strip_trailing l ++ repeat dig0 (length l - length (strip_trailing l)).
Proof.
  induction l as [|d l IH]; [reflexivity|]. cbn [strip_trailing].
  destruct (strip_trailing l) as [|x l'] eqn:E.
  - cbn [app length] in IH. rewrite Nat.sub_0_r in IH.
    destruct d; cbn [app length Nat.sub repeat]; rewrite ?Nat.sub_0_r;
      f_equal; exact IH.
  - assert (H : d :: l = (d :: x :: l')
                         ++ repeat dig0 (length (d :: l) - length (d :: x :: l'))).
    { cbn [app length]. f_equal. exact IH. }
    destruct d; exact H.
Qed.

Lemma strip_trailing_same_length (l1 l2 : list digit) :
  strip_trailing l1 = strip_trailing l2 -> length l1 = length l2 -> l1 = l2.
Proof.
  intros E Hlen. rewrite (strip_trailing_zeros l1), (strip_trailing_zeros l2).
  now rewrite E, Hlen.
Qed.

Lemma strip_zeros_uint (u : Decimal.uint) :
  strip_zeros (uint_digits u) = uint_digits (Decimal.nzhead u).
Proof. induction u; simpl; auto. Qed.

Lemma uint_digits_injective (u v : Decimal.uint) :
  uint_digits u = uint_digits v -> u = v.
Proof.
  intros E. apply (f_equal digits_uint) in E. now rewrite !digits_uint_digits in E.
Qed.

(** The digits of a natural number: the single digit 0, or digits that
    begin with another digit. *)
Lemma to_uint_digits (n : N) :
  uint_digits (N.to_uint n) = [dig0]
  \/ (uint_digits (N.to_uint n) <> []
      /\ strip_zeros (uint_digits (N.to_uint n)) = uint_digits (N.to_uint n)).
Proof.
  pose proof (to_uint_normal n) as Hn. unfold Decimal.unorm in Hn.
  destruct (Decimal.nzhead (N.to_uint n)) eqn:E.
  - left. now rewrite <- Hn.
  - right. rewrite strip_zeros_uint, E, Hn. split; [|reflexivity].
    rewrite <- Hn. discriminate.
  - right. rewrite strip_zeros_uint, E, Hn. split; [|reflexivity].
    rewrite <- Hn. discriminate.
  - right. rewrite strip_zeros_uint, E, Hn. split; [|reflexivity].
    rewrite <- Hn. discriminate.
  - right. rewrite strip_zeros_uint, E, Hn. split; [|reflexivity].
    rewrite <- Hn. discriminate.
  - right. rewrite strip_zeros_uint, E, Hn. split; [|reflexivity].
    rewrite <- Hn. discriminate.
  - right. rewrite strip_zeros_uint, E, Hn. split; [|reflexivity].
    rewrite <- Hn. discriminate.
  - right. rewrite strip_zeros_uint, E, Hn. split; [|reflexivity].
    rewrite <- Hn. discriminate.
  - right. rewrite strip_zeros_uint, E, Hn. split; [|reflexivity].
    rewrite <- Hn. discriminate.
  - right. rewrite strip_zeros_uint, E, Hn. split; [|reflexivity].
    rewrite <- Hn. discriminate.
  - right. rewrite strip_zeros_uint, E, Hn. split; [|reflexivity].
    rewrite <- Hn. discriminate.
Qed.

Lemma strip_trailing_not_nil (s : list digit) :
  s <> [] -> strip_zeros s = s -> strip_trailing s <> [].
Proof.
  intros Hne Hz. destruct s as [|d s]; [congruence|].
  cbn [strip_trailing]. destruct (strip_trailing s); [|destruct d; discriminate].
  destruct d; try discriminate.
  pose proof (strip_zeros_fixed _ Hz). discriminate.
Qed.

(** The normal decimal of an integer, by cases on its digits. *)
Lemma normal_integer (neg : bool) (s : list digit) :
  s <> [] -> strip_zeros s = s ->
  normal {| negative := neg; digits := s; point := Z.of_nat (length s) |}
  = {| negative := neg; digits := strip_trailing s;
       point := Z.of_nat (length s) |}.
Proof.
  intros Hne Hz. unfold normal. cbn [digits negative point].
  rewrite Hz, (strip_zeros_fixed _ Hz).
  pose proof (strip_trailing_not_nil s Hne Hz) as Hnn.
  destruct (strip_trailing s); [congruence|]. f_equal. lia.
Qed.

Lemma integer_injective (a b : Z) : integer a = integer b -> a = b.
Proof.
  unfold integer. intros E. injection E as E.
  assert (Hmag : Z.abs_N a = Z.abs_N b
                 /\ (Z.abs_N a <> 0%N -> (a <? 0)%Z = (b <? 0)%Z)).
  { destruct (to_uint_digits (Z.abs_N a)) as [Ha|[Ha1 Ha2]],
             (to_uint_digits (Z.abs_N b)) as [Hb|[Hb1 Hb2]].
    - split.
      + rewrite <- (DecimalN.Unsigned.of_to (Z.abs_N a)),
                <- (DecimalN.Unsigned.of_to (Z.abs_N b)).
        f_equal. apply uint_digits_injective. congruence.
      + intros Hnz. exfalso. apply Hnz.
        rewrite <- (DecimalN.Unsigned.of_to (Z.abs_N a)).
        replace (N.to_uint (Z.abs_N a)) with (Decimal.D0 Decimal.Nil);
          [reflexivity|]. apply uint_digits_injective. now rewrite Ha.
    - exfalso. rewrite Ha in E. rewrite (normal_integer _ _ Hb1 Hb2) in E.
      unfold normal in E. cbn in E. injection E as _ E _.
      pose proof (strip_trailing_not_nil _ Hb1 Hb2). congruence.
    - exfalso. rewrite Hb in E. rewrite (normal_integer _ _ Ha1 Ha2) in E.
      unfold normal in E. cbn in E. injection E as _ E _.
      pose proof (strip_trailing_not_nil _ Ha1 Ha2). congruence.
    - rewrite (normal_integer _ _ Ha1 Ha2), (normal_integer _ _ Hb1 Hb2) in E.
      injection E as Hsign Hdigits Hlen. split; [|intros _; exact Hsign].
      rewrite <- (DecimalN.Unsigned.of_to (Z.abs_N a)),
              <- (DecimalN.Unsigned.of_to (Z.abs_N b)).
      f_equal. apply uint_digits_injective.
      apply strip_trailing_same_length; [exact Hdigits | lia]. }
  destruct Hmag as [Hmag Hsign].
  apply (f_equal Z.of_N) in Hmag. rewrite !N2Z.inj_abs_N in Hmag.
  destruct (Z.eq_dec a 0) as [->|Hnz].
  - simpl in Hmag. lia.
  - assert (Hna : Z.abs_N a <> 0%N).
    { intros H0. apply (f_equal Z.of_N) in H0.
      rewrite N2Z.inj_abs_N in H0. simpl in H0. lia. }
    specialize (Hsign Hna).
    destruct (a <? 0)%Z eqn:Ea; symmetry in Hsign.
    + apply Z.ltb_lt in Ea, Hsign. lia.
    + apply Z.ltb_ge in Ea, Hsign. lia.
Qed.

(** The first character of a number sends [parse_value] to
    [parse_number]. *)
Lemma parse_value_number_start (F : decimal -> number) (fuel : nat)
    (c : ascii) (r : list ascii) :
  is_digit c \/ c = "-"%char ->
  parse_value F (S fuel) (c :: r)
  = match parse_number F (c :: r) with
    | Some (x, r') => Some (JNum x, r')
    | None => None
    end.
Proof.
  intros H.
  destruct c as [[] [] [] [] [] [] [] []];
    try reflexivity;
    (exfalso; destruct H as [H|H]; [apply H; reflexivity | discriminate H]).
Qed.

Lemma decimal_chars_start (d : decimal) :
  exists c cs, decimal_chars (normal d) = c :: cs /\ (is_digit c \/ c = "-"%char).
Proof.
  unfold decimal_chars. destruct (digits (normal d)) as [|first rest].
  - eexists _, _. split; [reflexivity|]. left. unfold is_digit. discriminate.
  - destruct (negative (normal d)); cbn [app].
    + eexists _, _. split; [reflexivity|]. now right.
    + destruct (positive_chars_start first rest (point (normal d)))
        as (c & cs & -> & Hc). eauto.
Qed.

Lemma starts_value_serialized (K : option (list string)) (v : json) (tail : list ascii) :
  starts_value (SerializeJSONProperty K v ++ tail).
Proof.
  destruct v as [| [] | [d|neg] | s | elems | members]; simpl.
  1-3, 5-8: unfold c_quote; repeat split; solve [reflexivity | discriminate].
  destruct (decimal_chars_start d) as (c & cs & -> & Hc). simpl.
  destruct Hc as [Hc| ->];
    [| repeat split; solve [reflexivity | discriminate]].
  destruct c as [[] [] [] [] [] [] [] []];
    try (repeat split; solve [reflexivity | discriminate]);
    (exfalso; apply Hc; reflexivity).
Qed.

Lemma skip_ws_starts_value (s : list ascii) : starts_value s -> skip_ws s = s.
Proof. destruct s as [|c s]; [easy|]. simpl. now intros [-> _]. Qed.

Lemma skip_ws_delimited (s : list ascii) : delimited s -> skip_ws s = s.
Proof.
  destruct s as [|c s]; [easy|]. now intros [->|[->| ->]].
Qed.


Lemma strip_close_none (close : ascii) (s : list ascii) :
  starts_value s -> close = "]"%char \/ close = "}"%char ->
  strip_prefix [close] s = None.
Proof.
  destruct s as [|c s]; [easy|]. intros (_ & H1 & H2) Hc. simpl.
  destruct (Ascii.eqb_spec close c) as [<-|]; [|reflexivity].
  destruct Hc; congruence.
Qed.

Lemma parse_elements_serialized (F : decimal -> number) (elems : list json) :
  elems <> [] -> Forall (reads_back F) elems ->
  forall fuel rest,
    fold_right (fun e acc => S (size e) + acc) 0 elems <= fuel ->
    parse_elements F fuel
      (join_comma (map (SerializeJSONProperty None) elems) ++ "]"%char :: rest)
    = Some (elems, rest).
Proof.
  induction elems as [|e elems IH]; [congruence|].
  intros _ Hall fuel rest Hfuel. inversion Hall as [|? ? He Hrest]; subst.
  destruct fuel as [|fuel]; [simpl in Hfuel; lia|].
  destruct elems as [|e' elems].
  - simpl in *. rewrite He by (simpl; auto; lia). reflexivity.
  - cbn [map join_comma] in *. rewrite <- app_assoc. cbn [app].
    cbn [parse_elements]. rewrite He by (simpl; auto; simpl in Hfuel; lia).
    cbn [skip_ws is_ws]. simpl.
    rewrite IH; [reflexivity | congruence | assumption | simpl in *; lia].
Qed.


Lemma parse_members_serialized (F : decimal -> number)
    (members : list (string * json)) :
  members <> [] -> Forall (fun kv => reads_back F (snd kv)) members ->
  forall fuel rest,
    fold_right (fun kv acc => S (size (snd kv)) + acc) 0 members <= fuel ->
    parse_members F fuel (join_comma (map member_text members) ++ "}"%char :: rest)
    = Some (members, rest).
Proof.
  induction members as [|[k v] members IH]; [congruence|].
  intros _ Hall fuel rest Hfuel. inversion Hall as [|? ? Hv Hrest]; subst.
  simpl in Hv.
  destruct fuel as [|fuel]; [simpl in Hfuel; lia|].
  assert (Hkey : forall tail,
    parse_members F (S fuel) (member_text (k, v) ++ tail)
    = match parse_value F fuel (SerializeJSONProperty None v ++ tail) with
      | None => None
      | Some (v', r3) =>
          match skip_ws r3 with
          | [] => None
          | c :: r4 =>
              if (c =? ",")%char then
                match parse_members F fuel r4 with
                | Some (ms, r5) => Some ((k, v') :: ms, r5)
                | None => None
                end
              else if (c =? "}")%char then Some ([(k, v')], r4)
              else None
          end
      end).
  { intros tail. unfold member_text, QuoteJSONString. cbn [fst snd].
    cbn [parse_members app skip_ws]. change (is_ws c_quote) with false.
    cbn [strip_prefix]. change (c_quote =? c_quote)%char with true. cbv iota.
    rewrite <- !app_assoc. cbn [app].
    rewrite parse_string_body_quoted.
    cbn [skip_ws]. change (is_ws ":") with false. cbv iota.
    cbn [strip_prefix]. change (":" =? ":")%char with true. cbv iota.
    unfold chars. rewrite string_of_list_ascii_of_string. reflexivity. }
  destruct members as [|kv' members].
  - cbn [map join_comma] in *. rewrite Hkey.
    rewrite Hv by (simpl; auto; simpl in Hfuel; lia). reflexivity.
  - cbn [map join_comma] in *. rewrite <- app_assoc. cbn [app].
    rewrite Hkey. rewrite Hv by (simpl; auto; simpl in Hfuel; lia).
    cbn [skip_ws]. change (is_ws ",") with false. cbv iota.
    change ("," =? ",")%char with true. cbv iota.
    rewrite IH; [reflexivity | congruence | assumption | simpl in *; lia].
Qed.

Lemma set_property_fresh (k : string) (v : json) (acc : list (string * json)) :
  ~ In k (map fst acc) -> set_property k v acc = acc ++ [(k, v)].
Proof.
  induction acc as [|[k' v'] acc IH]; intros Hin; [reflexivity|].
  simpl. destruct (String.eqb_spec k' k) as [->|Hne].
  - exfalso. apply Hin. now left.
  - rewrite IH; [reflexivity|]. intros H. apply Hin. now right.
Qed.

Lemma build_object_distinct (members : list (string * json)) :
  NoDup (map fst members) -> build_object members = members.
Proof.
  unfold build_object.
  assert (H : forall acc, NoDup (map fst (acc ++ members)) ->
    fold_left (fun acc kv => set_property (fst kv) (snd kv) acc) members acc
    = acc ++ members).
  { induction members as [|[k v] members IH]; intros acc Hnd; simpl.
    - now rewrite app_nil_r.
    - rewrite set_property_fresh.
      + rewrite IH; rewrite <- app_assoc; [reflexivity | exact Hnd].
      + rewrite map_app in Hnd. simpl in Hnd.
        apply NoDup_remove_2 in Hnd. intros Hin. apply Hnd.
        apply in_or_app. now left. }
  intros Hnd. apply (H []). exact Hnd.
Qed.

Lemma wf_elems (elems : list json) :
  wf (JArr elems) -> Forall wf elems.
Proof.
  induction elems as [|e elems IH]; [constructor|].
  intros [He Hrest]. constructor; [exact He | apply IH, Hrest].
Qed.

Lemma wf_members (members : list (string * json)) :
  wf (JObj members) ->
  NoDup (map fst members) /\ Forall (fun kv => wf (snd kv)) members.
Proof.
  intros [Hnd Hall]. split; [exact Hnd|]. clear Hnd.
  induction members as [|kv members IH]; [constructor|].
  destruct Hall as [Hkv Hrest]. constructor; [exact Hkv | apply IH, Hrest].
Qed.

Lemma representable_elems (F : decimal -> number) (elems : list json) :
  representable F (JArr elems) -> Forall (representable F) elems.
Proof.
  induction elems as [|e elems IH]; [constructor|].
  intros [He Hrest]. constructor; [exact He | apply IH, Hrest].
Qed.

Lemma representable_members (F : decimal -> number)
    (members : list (string * json)) :
  representable F (JObj members) ->
  Forall (fun kv => representable F (snd kv)) members.
Proof.
  induction members as [|kv members IH]; [constructor|].
  intros [Hkv Hrest]. constructor; [exact Hkv | apply IH, Hrest].
Qed.

Lemma Forall_modus_ponens2 {A : Type} (P Q R : A -> Prop) (l : list A) :
  Forall (fun x => P x -> Q x -> R x) l -> Forall P l -> Forall Q l ->
  Forall R l.
Proof.
  induction 1; intros HP HQ; inversion HP; inversion HQ; subst;
    constructor; auto.
Qed.

Lemma parse_value_serialized (F : decimal -> number) (v : json) :
  wf v -> representable F v -> reads_back F v.
Proof.
  induction v as [| b | n | s | elems IH | members IH] using json_ind;
    intros Hwf Hnum fuel rest Hfuel Hrest;
    (destruct fuel as [|fuel]; [simpl in Hfuel; lia|]).
  - reflexivity.
  - destruct b; reflexivity.
  - destruct n as [d|neg]; [|destruct Hnum].
    cbn [SerializeJSONProperty].
    destruct (decimal_chars_start d) as (c & cs & E & Hc).
    pose proof (parse_number_chars F d rest Hrest) as Hread.
    cbn [number_chars] in *. rewrite E in *. cbn [app] in *.
    rewrite parse_value_number_start by exact Hc.
    rewrite Hread. cbn [representable] in Hnum. now rewrite Hnum.
  - cbn [SerializeJSONProperty]. unfold QuoteJSONString.
    cbn [app parse_value skip_ws]. change (is_ws c_quote) with false. cbv iota.
    change (c_quote =? "n")%char with false.
    change (c_quote =? "t")%char with false.
    change (c_quote =? "f")%char with false.
    change (c_quote =? c_quote)%char with true. cbv iota.
    rewrite <- app_assoc. cbn [app]. rewrite parse_string_body_quoted.
    unfold chars. now rewrite string_of_list_ascii_of_string.
  - cbn [SerializeJSONProperty]. cbn [app parse_value skip_ws].
    change (is_ws "[") with false. cbv iota.
    change ("[" =? "n")%char with false.
    change ("[" =? "t")%char with false.
    change ("[" =? "f")%char with false.
    change ("[" =? c_quote)%char with false.
    change ("[" =? "[")%char with true. cbv iota.
    destruct elems as [|e elems]; [reflexivity|].
    rewrite <- app_assoc. cbn [app].
    assert (Hstart : starts_value
      (join_comma (map (SerializeJSONProperty None) (e :: elems)) ++ "]"%char :: rest)).
    { cbn [map join_comma]. destruct elems.
      - apply starts_value_serialized.
      - cbn [map]. rewrite <- app_assoc. apply starts_value_serialized. }
    rewrite (skip_ws_starts_value _ Hstart).
    rewrite (strip_close_none "]" _ Hstart) by now left.
    rewrite parse_elements_serialized; [reflexivity | congruence | |].
    + apply (Forall_modus_ponens2 wf (representable F) (reads_back F));
        [exact IH | now apply wf_elems | now apply representable_elems].
    + simpl in Hfuel. simpl. lia.
  - cbn [SerializeJSONProperty select_properties]. rewrite map_map.
    change (map _ members) with (map member_text members).
    cbn [app parse_value skip_ws].
    change (is_ws "{") with false. cbv iota.
    change ("{" =? "n")%char with false.
    change ("{" =? "t")%char with false.
    change ("{" =? "f")%char with false.
    change ("{" =? c_quote)%char with false.
    change ("{" =? "[")%char with false.
    change ("{" =? "{")%char with true. cbv iota.
    destruct (wf_members _ Hwf) as [Hnd Hall].
    destruct members as [|kv members]; [reflexivity|].
    rewrite <- app_assoc. cbn [app].
    assert (Hstart : starts_value
      (join_comma (map member_text (kv :: members)) ++ "}"%char :: rest)).
    { cbn [map join_comma]. unfold member_text at 1, QuoteJSONString.
      destruct members; simpl; unfold c_quote;
        repeat split; solve [reflexivity | discriminate]. }
    rewrite (skip_ws_starts_value _ Hstart).
    rewrite (strip_close_none "}" _ Hstart) by now right.
    rewrite parse_members_serialized; [| congruence | |].
    + now rewrite build_object_distinct.
    + apply (Forall_modus_ponens2 (fun kv => wf (snd kv))
               (fun kv => representable F (snd kv))
               (fun kv => reads_back F (snd kv)));
        [exact IH | exact Hall | now apply representable_members].
    + simpl in Hfuel. simpl. lia.
Qed.


Lemma join_comma_length (parts : list (list ascii)) :
  parts <> [] ->
  S (length (join_comma parts)) = fold_right (fun p acc => S (length p) + acc) 0 parts.
Proof.
  induction parts as [|p parts IH]; [congruence|]. intros _.
  destruct parts as [|q parts].
  - simpl. lia.
  - cbn [join_comma fold_right] in *. rewrite length_app. cbn [length].
    specialize (IH ltac:(congruence)). lia.
Qed.

Lemma size_le_length (v : json) :
  size v <= length (SerializeJSONProperty None v).
Proof.
  induction v as [| b | n | s | elems IH | members IH] using json_ind.
  - simpl. lia.
  - destruct b; simpl; lia.
  - destruct n as [d|neg]; [|simpl; lia].
    destruct (decimal_chars_start d) as (c & cs & E & _).
    cbn [SerializeJSONProperty size number_chars]. rewrite E. simpl. lia.
  - simpl. lia.
  - cbn [SerializeJSONProperty size length]. rewrite length_app. cbn [length].
    destruct elems as [|e elems]; [simpl; lia|].
    pose proof (join_comma_length (map (SerializeJSONProperty None) (e :: elems))
                  ltac:(discriminate)) as Hlen.
    assert (Hsum : fold_right (fun e acc => S (size e) + acc) 0 (e :: elems)
                   <= fold_right (fun p acc => S (length p) + acc) 0
                        (map (SerializeJSONProperty None) (e :: elems))).
    { clear Hlen. induction IH as [|x l Hx Hl IHl]; simpl in *; lia. }
    lia.
  - cbn [SerializeJSONProperty size select_properties length].
    rewrite map_map. change (map _ members) with (map member_text members).
    rewrite length_app. cbn [length].
    destruct members as [|kv members]; [simpl; lia|].
    match goal with |- context [join_comma (map ?f ?l)] =>
      pose proof (join_comma_length (map f l) ltac:(discriminate)) as Hlen;
      assert (Hsum : fold_right (fun kv acc => S (size (snd kv)) + acc) 0 l
                     <= fold_right (fun p acc => S (length p) + acc) 0 (map f l))
    end.
    { clear Hlen. induction IH as [|x l Hx Hl IHl]; [simpl; lia|].
      cbn [map fold_right]. unfold member_text at 1.
      rewrite length_app. cbn [length]. simpl in Hx. lia. }
    lia.
Qed.

(** [JSON.parse(JSON.stringify(v))] is [v]. *)
Lemma parse_stringify (F : decimal -> number) (v : json) :
  wf v -> representable F v -> parse F (stringify v) = Some v.
Proof.
  intros Hwf Hnum. unfold parse, stringify, chars.
  rewrite list_ascii_of_string_of_list_ascii.
  pose proof (parse_value_serialized F v Hwf Hnum) as Hread.
  specialize (Hread (S (length (SerializeJSONProperty None v))) []).
  rewrite app_nil_r in Hread. rewrite Hread; [reflexivity | | exact I].
  pose proof (size_le_length v). lia.
Qed.

End JsonFacts.

(** ** The encryption service *)

Section EncryptionFacts.
Import EncryptionService.

Lemma randomBytes_length (n : nat) (e : entropy) :
  length (fst (randomBytes n e)) = n.
Proof. unfold randomBytes. simpl. now rewrite length_map, length_seq. Qed.

(** The four fields of an envelope are found again at their offsets. *)
Lemma envelope_fields (iv salt tag encrypted : Buffer) :
  length iv = IV_LENGTH -> length salt = SALT_LENGTH -> length tag = TAG_LENGTH ->
  let buffer := iv ++ salt ++ tag ++ encrypted in
  subarray buffer 0 IV_LENGTH = iv
  /\ subarray buffer IV_LENGTH (IV_LENGTH + SALT_LENGTH) = salt
  /\ subarray buffer (IV_LENGTH + SALT_LENGTH)
              (IV_LENGTH + SALT_LENGTH + TAG_LENGTH) = tag
  /\ subarray_from buffer (IV_LENGTH + SALT_LENGTH + TAG_LENGTH) = encrypted.
Proof.
  intros Hiv Hsalt Htag buffer. unfold subarray, subarray_from, buffer.
  assert (Hskip : forall (a b : Buffer) n, length a = n -> skipn n (a ++ b) = b).
  { intros a b n <-. rewrite skipn_app, skipn_all, Nat.sub_diag. reflexivity. }
  assert (Htake : forall (a b : Buffer) n, length a = n -> firstn n (a ++ b) = a).
  { intros a b n <-. rewrite firstn_app, firstn_all, Nat.sub_diag.
    simpl. apply app_nil_r. }
  repeat split.
  - simpl skipn. rewrite Nat.sub_0_r. now apply Htake.
  - rewrite (Hskip iv _ IV_LENGTH Hiv).
    replace (IV_LENGTH + SALT_LENGTH - IV_LENGTH) with SALT_LENGTH by reflexivity.
    now apply Htake.
  - rewrite app_assoc.
    rewrite (Hskip (iv ++ salt) _ (IV_LENGTH + SALT_LENGTH))
      by (rewrite length_app; congruence).
    replace (IV_LENGTH + SALT_LENGTH + TAG_LENGTH - (IV_LENGTH + SALT_LENGTH))
      with TAG_LENGTH by reflexivity.
    now apply Htake.
  - rewrite !app_assoc.
    apply Hskip. rewrite !length_app. congruence.
Qed.

Lemma utf8_decode_encode (s : string) : utf8_decode (utf8_encode s) = s.
Proof. apply string_of_list_ascii_of_string. Qed.

Lemma constructor_key_length (k : option string) (this : t) :
  constructor k = Ok this -> length (key this) = 32.
Proof.
  unfold constructor. destruct k as [[|c k]|]; try discriminate.
  destruct (length (Base64.decode (String c k)) =? 32) eqn:E; simpl;
    [|discriminate].
  intros [= <-]. simpl. now apply Nat.eqb_eq.
Qed.


Lemma encrypt_envelope (C : Platform) (this : t) (v : json) (e : entropy) :
  length (key this) = 32 ->
  exists iv salt e',
    length iv = IV_LENGTH /\ length salt = SALT_LENGTH
    /\ encrypt C this v e = (Ok (envelope C this v iv salt), e').
Proof.
  intros Hkey. unfold encrypt.
  destruct (randomBytes IV_LENGTH e) as [iv e1] eqn:Eiv.
  destruct (randomBytes SALT_LENGTH e1) as [salt e2] eqn:Esalt.
  pose proof (randomBytes_length IV_LENGTH e) as Hiv. rewrite Eiv in Hiv.
  pose proof (randomBytes_length SALT_LENGTH e1) as Hsalt. rewrite Esalt in Hsalt.
  simpl in Hiv, Hsalt.
  assert (Hargs : check_gcm_args (key this) iv = None).
  { unfold check_gcm_args. rewrite Hkey, Hiv. reflexivity. }
  rewrite Hargs. exists iv, salt, e2. repeat split; assumption.
Qed.

Lemma decrypt_envelope (C : Platform) (this : t) (v : json) (iv salt : Buffer) :
  gcm_lawful C -> length (key this) = 32 ->
  Json.wf v -> Json.representable (number_value C) v ->
  length iv = IV_LENGTH -> length salt = SALT_LENGTH ->
  decrypt C this (envelope C this v iv salt) = Ok v.
Proof.
  intros Hgcm Hkey Hwf Hnum Hiv Hsalt. unfold envelope, decrypt.
  assert (Hne : iv <> []) by (intros ->; discriminate Hiv).
  destruct (Hgcm (key this) iv (utf8_encode (Json.stringify v)) Hkey Hne)
    as [Htag Hopen].
  rewrite decode_encode_url.
  destruct (envelope_fields iv salt _ (fst (gcm_seal C (key this) iv
              (utf8_encode (Json.stringify v)))) Hiv Hsalt Htag)
    as (E1 & _ & E3 & E4).
  rewrite E1, E3, E4, Htag.
  unfold check_gcm_args. rewrite Hkey, Hiv. simpl.
  rewrite Hopen, utf8_decode_encode, parse_stringify by assumption.
  reflexivity.
Qed.

Lemma decrypt_encrypt (C : Platform) (this : t) (v : json) (e : entropy) :
  gcm_lawful C -> length (key this) = 32 ->
  Json.wf v -> Json.representable (number_value C) v ->
  exists token e',
    encrypt C this v e = (Ok token, e') /\ decrypt C this token = Ok v.
Proof.
  intros Hgcm Hkey Hwf Hnum.
  destruct (encrypt_envelope C this v e Hkey) as (iv & salt & e' & Hiv & Hsalt & E).
  exists (envelope C this v iv salt), e'. split; [exact E|].
  now apply decrypt_envelope.
Qed.


Lemma encode_url_safe (b : Buffer) :
  Forall url_safe (list_ascii_of_string (Base64.encode true b)).
Proof.
  unfold Base64.encode, Base64.encode_chars.
  rewrite list_ascii_of_string_of_list_ascii. simpl Base64.padding.
  rewrite app_nil_r. apply Forall_forall. intros c Hc.
  apply in_map_iff in Hc. destruct Hc as (s & <- & _).
  destruct s as [[] [] [] [] [] []]; vm_compute; tauto.
Qed.

(** ** The small platform is lawful *)

Lemma xor_byte_involutive (b k : byte) : xor_byte (xor_byte b k) k = b.
Proof.
  destruct b, k. unfold xor_byte.
  now rewrite !xorb_assoc, !xorb_nilpotent, !xorb_false_r.
Qed.

Lemma key_stream_involutive (key text : Buffer) (i : nat) :
  key_stream key i (key_stream key i text) = text.
Proof.
  revert i. induction text as [|b text IH]; intros i; simpl; [reflexivity|].
  now rewrite xor_byte_involutive, IH.
Qed.

Lemma toy_lawful : gcm_lawful toy_platform.
Proof.
  intros key iv plaintext _ _.
  cbn [gcm_seal gcm_open toy_platform toy_seal fst snd]. split.
  - unfold toy_tag. now rewrite length_map, length_seq.
  - unfold toy_open.
    destruct (list_eq_dec ascii_dec _ _) as [_|Hne]; [|now contradiction Hne].
    now rewrite key_stream_involutive.
Qed.

End EncryptionFacts.

(** ** Claims about the codec *)

(** C1. An envelope made by [encrypt] under a service key decrypts, under
    the same key, to the value it was made from, for every value that
    JSON represents: [null], booleans, strings, finite numbers (any
    Number value of the platform, with or without a fraction or an
    exponent), arrays, and objects of distinct property names.  The
    envelope is the base64url text of IV (16 bytes), salt (64),
    authentication tag (16) and ciphertext, in this order, and [decrypt]
    finds the four fields at these offsets. *)
Theorem encrypt_decrypt_round_trip
    (C : Platform) (keyText : string) (this : EncryptionService.t)
    (v : json) (e : entropy) :
  gcm_lawful C ->
  EncryptionService.constructor (Some keyText) = Ok this ->
  Json.wf v ->
  Json.representable (number_value C) v ->
  exists token e' iv salt,
    EncryptionService.encrypt C this v e = (Ok token, e')
    /\ EncryptionService.decrypt C this token = Ok v
    /\ Forall url_safe (list_ascii_of_string token)
    /\ let sealed := gcm_seal C (EncryptionService.key this) iv
                       (utf8_encode (Json.stringify v)) in
       let buffer := Base64.decode token in
       subarray buffer 0 16 = iv
       /\ subarray buffer 16 80 = salt
       /\ subarray buffer 80 96 = snd sealed
       /\ subarray_from buffer 96 = fst sealed.
Proof.
  intros Hgcm Hctor Hwf Hnum.
  pose proof (constructor_key_length _ _ Hctor) as Hkey.
  destruct (encrypt_envelope C this v e Hkey)
    as (iv & salt & e' & Hiv & Hsalt & E).
  exists (envelope C this v iv salt), e', iv, salt.
  split; [exact E|]. split; [now apply decrypt_envelope|].
  split; [apply encode_url_safe|].
  unfold envelope. rewrite decode_encode_url.
  assert (Hne : iv <> []) by (intros ->; discriminate Hiv).
  destruct (Hgcm (EncryptionService.key this) iv
              (utf8_encode (Json.stringify v)) Hkey Hne) as [Htag _].
  exact (envelope_fields iv salt _ _ Hiv Hsalt Htag).
Qed.

Lemma encrypt_decrypt_round_trip_witness :
  exists token e' iv salt,
    EncryptionService.encrypt toy_platform Example.service Example.reading
      (Example.source 0) = (Ok token, e')
    /\ EncryptionService.decrypt toy_platform Example.service token
       = Ok Example.reading
    /\ Forall url_safe (list_ascii_of_string token)
    /\ let sealed := gcm_seal toy_platform (EncryptionService.key Example.service)
                       iv (utf8_encode (Json.stringify Example.reading)) in
       let buffer := Base64.decode token in
       subarray buffer 0 16 = iv
       /\ subarray buffer 16 80 = salt
       /\ subarray buffer 80 96 = snd sealed
       /\ subarray_from buffer 96 = fst sealed.
Proof.
  apply (encrypt_decrypt_round_trip toy_platform Example.key_text).
  - exact toy_lawful.
  - vm_compute. reflexivity.
  - simpl. repeat split; trivial.
    repeat constructor; simpl; intuition discriminate.
  - simpl. repeat split; reflexivity.
Defined.



(** C10. A token made by [generateToken] is never accepted.  Its text is
    the padded base64 of the 16-byte IV, a colon and more base64; the
    decoder of [decrypt] stops at the padding, so the buffer is the IV
    alone, the tag field is empty, and [setAuthTag] refuses it. *)
Theorem generated_token_rejected
    (C : Platform) (this : EncryptionService.t) (ENCRYPTION_KEY : option string)
    (data token : string) (e e' : entropy) :
  generateToken C ENCRYPTION_KEY data e = (Ok token, e') ->
  EncryptionService.decrypt C this token
  = Err (EncryptionService.CryptoError
           (if length (EncryptionService.key this) =? 32
            then InvalidAuthTagLength else InvalidKeyLength))
  /\ EncryptionService.validateToken C this token = false.
Proof.
  intros Hgen.
  assert (Hdec : EncryptionService.decrypt C this token
    = Err (EncryptionService.CryptoError
             (if length (EncryptionService.key this) =? 32
              then InvalidAuthTagLength else InvalidKeyLength))).
  { unfold generateToken in Hgen.
    destruct ENCRYPTION_KEY as [[|c k]|]; try discriminate.
    destruct (randomBytes 16 e) as [iv e1] eqn:Eiv.
    pose proof (randomBytes_length 16 e) as Hiv. rewrite Eiv in Hiv.
    simpl in Hiv.
    destruct (negb _); [discriminate|]. injection Hgen as <- _.
    unfold EncryptionService.decrypt.
    rewrite decode_encode_padded by (rewrite Hiv; discriminate).
    unfold subarray at 1. simpl skipn.
    replace (EncryptionService.IV_LENGTH - 0) with (length iv) by (now rewrite Hiv).
    rewrite firstn_all.
    assert (Htag : subarray iv
               (EncryptionService.IV_LENGTH + EncryptionService.SALT_LENGTH)
               (EncryptionService.IV_LENGTH + EncryptionService.SALT_LENGTH
                + EncryptionService.TAG_LENGTH) = []).
    { unfold subarray. rewrite skipn_all2; [apply firstn_nil|].
      rewrite Hiv. unfold EncryptionService.IV_LENGTH,
        EncryptionService.SALT_LENGTH. lia. }
    rewrite Htag. unfold check_gcm_args. rewrite Hiv.
    destruct (length (EncryptionService.key this) =? 32); reflexivity. }
  split; [exact Hdec|].
  unfold EncryptionService.validateToken. now rewrite Hdec.
Qed.

Lemma generated_token_rejected_witness :
  EncryptionService.decrypt toy_platform Example.service
    "AwoRGB8mLTQ7QklQV15lbA==:MzsjKysTGwMDeygyNDoACkRUQUcZUVdDWRRQUFA="
  = Err (EncryptionService.CryptoError
           (if length (EncryptionService.key Example.service) =? 32
            then InvalidAuthTagLength else InvalidKeyLength))
  /\ EncryptionService.validateToken toy_platform Example.service
       "AwoRGB8mLTQ7QklQV15lbA==:MzsjKysTGwMDeygyNDoACkRUQUcZUVdDWRRQUFA="
     = false.
Proof.
  apply (generated_token_rejected toy_platform Example.service
           (Some "0123456789abcdef0123456789abcdef"%string)
           "test-data-123" _ (Example.source 0)
           (Example.source 16)).
  vm_compute. reflexivity.
Defined.

(** The two utilities cannot share a key text.  A text that decodes to 32
    bytes has at least 43 characters, so with the key of a constructed
    service [generateToken] fails when it creates its cipher. *)
Lemma legal_prefix_length (cs : list ascii) :
  length (Base64.legal_prefix cs) <= length cs.
Proof.
  induction cs as [|c cs IH]; simpl; [lia|].
  destruct (Base64.unbase64 c); [simpl; lia|].
  destruct (c =? "=")%char; simpl; lia.
Qed.

Lemma regroup_length (n : nat) :
  forall ss, length ss <= n ->
    4 * length (Base64.regroup ss) <= 3 * length ss.
Proof.
  induction n as [|n IH]; intros ss Hlen.
  - destruct ss; simpl in *; lia.
  - destruct ss as [|s1 [|s2 [|s3 [|s4 rest]]]];
      cbn [Base64.regroup length] in *; try lia.
    assert (Hrest : length rest <= n) by lia.
    specialize (IH rest Hrest). lia.
Qed.

Lemma list_ascii_length (s : string) :
  length (list_ascii_of_string s) = String.length s.
Proof. induction s as [|c s IH]; simpl; [reflexivity | now rewrite IH]. Qed.

Lemma decode_length (s : string) :
  4 * length (Base64.decode s) <= 3 * String.length s.
Proof.
  unfold Base64.decode.
  pose proof (regroup_length _ (Base64.legal_prefix (list_ascii_of_string s))
                (le_n _)) as H1.
  pose proof (legal_prefix_length (list_ascii_of_string s)) as H2.
  pose proof (list_ascii_length s) as H3.
  lia.
Qed.

Lemma service_key_is_no_token_key (C : Platform) (k : string)
    (this : EncryptionService.t) (data : string) (e : entropy) :
  EncryptionService.constructor (Some k) = Ok this ->
  fst (generateToken C (Some k) data e) = Err TokenKeyLength.
Proof.
  intros Hctor. pose proof (constructor_key_length _ _ Hctor) as Hkey.
  unfold EncryptionService.constructor in Hctor.
  destruct k as [|c k]; [discriminate|].
  destruct (negb _); [discriminate|]. injection Hctor as <-.
  cbn [EncryptionService.key] in Hkey.
  pose proof (decode_length (String c k)) as Hlen. rewrite Hkey in Hlen.
  unfold generateToken. destruct (randomBytes 16 e) as [iv e1].
  assert (Hne : (length (utf8_encode (String c k)) =? 32) = false).
  { apply Nat.eqb_neq. unfold utf8_encode. rewrite list_ascii_length. lia. }
  now rewrite Hne.
Qed.


(** ** Claims about the token middleware *)

(** C5, as the code has it.  A request without a token, or with an empty
    one, is answered 400 "Missing token parameter"; a token that does not
    decrypt is answered 401 "Invalid token"; otherwise the decrypted
    payload goes to the handler.  Both routes behind the middleware answer a
    rejection with its status and leave the world as it was. *)
Theorem validateToken_outcomes (C : Platform) (srv : server) (token : option string) :
  match validateToken C srv token with
  | Respond status error =>
      (forall now req w,
          start_token req = token ->
          assessment_start C srv now req w = (StartError status error, w))
      /\ (forall now req w,
          submit_token req = token ->
          assessment_submit C srv now req w = (SubmitError status error, w))
      /\ match token with
         | None => status = 400 /\ error = "Missing token parameter"%string
         | Some t =>
             if String.eqb t EmptyString
             then status = 400 /\ error = "Missing token parameter"%string
             else status = 401 /\ error = "Invalid token"%string
                  /\ EncryptionService.validateToken C (encryption srv) t = false
         end
  | Next payload =>
      exists t, token = Some t /\ t <> EmptyString
        /\ EncryptionService.decrypt C (encryption srv) t = Ok payload
  end.
Proof.
  destruct (validateToken C srv token) as [status error|payload] eqn:E.
  - split; [|split].
    + intros now req w <-. unfold assessment_start. now rewrite E.
    + intros now req w <-. unfold assessment_submit. now rewrite E.
    + unfold validateToken in E. destruct token as [[|c t]|].
      * now injection E as <- <-.
      * simpl. unfold EncryptionService.validateToken.
        destruct (EncryptionService.decrypt _ _ _); [discriminate|].
        now injection E as <- <-.
      * now injection E as <- <-.
  - unfold validateToken in E. destruct token as [[|c t]|]; try discriminate.
    exists (String c t). split; [reflexivity|]. split; [discriminate|].
    destruct (EncryptionService.decrypt _ _ _); [|discriminate].
    now injection E as <-.
Qed.

(** C5 as stated fails: without a token the middleware answers 400, not
    401. *)
Lemma missing_token_is_400 :
  validateToken toy_platform Example.srv None
  = Respond 400 "Missing token parameter"
  /\ validateToken toy_platform Example.srv None
     <> Respond 401 "Invalid token".
Proof. split; [reflexivity | discriminate]. Qed.


(** ** Claims about the blind index *)

(** C9. The sorted names of the top-level properties are the property
    list at every depth, so a nested property with another name is left
    out of the text that is hashed: two leader identifiers that differ
    only there have the same hash. *)
Theorem leader_hash_ignores_nested_fields (C : Platform) :
  exists d1 d2 : json,
    d1 = JObj [("profile", JObj [("email", JStr "ann@example.org")])]%string
    /\ d2 = JObj [("profile", JObj [("email", JStr "bob@example.org")])]%string
    /\ d1 <> d2
    /\ Object_keys d1 = Some ["profile"%string]
    /\ Object_keys d2 = Some ["profile"%string]
    /\ Json.stringify_with (sort_keys ["profile"%string]) d1
       = Json.stringify_with (sort_keys ["profile"%string]) d2
    /\ createLeaderHash C d1 = createLeaderHash C d2
    /\ createLeaderHash C d1 <> None.
Proof.
  do 2 eexists. split; [reflexivity|]. split; [reflexivity|].
  split; [discriminate|]. split; [reflexivity|]. split; [reflexivity|].
  assert (E : Json.stringify_with (sort_keys ["profile"%string])
                (JObj [("profile", JObj [("email", JStr "ann@example.org")])]%string)
              = Json.stringify_with (sort_keys ["profile"%string])
                (JObj [("profile", JObj [("email", JStr "bob@example.org")])]%string))
    by (vm_compute; reflexivity).
  split; [exact E|]. unfold createLeaderHash. cbn [Object_keys map fst].
  rewrite E. split; [reflexivity | discriminate].
Qed.


(** ** Sorting *)

Section SortFacts.
Context {A : Type} (le : A -> A -> bool).

Lemma insert_sorted_perm (x : A) (l : list A) :
  Permutation (insert_sorted le x l) (x :: l).
Proof.
  induction l as [|y l IH]; simpl; [reflexivity|].
  destruct (le x y); [reflexivity|].
  rewrite IH. apply perm_swap.
Qed.

Lemma sort_by_perm (l : list A) : Permutation (sort_by le l) l.
Proof.
  induction l as [|x l IH]; simpl; [reflexivity|].
  now rewrite insert_sorted_perm, IH.
Qed.

Lemma sort_by_in (x : A) (l : list A) : In x (sort_by le l) <-> In x l.
Proof.
  split; apply Permutation_in;
    [apply sort_by_perm | apply Permutation_sym, sort_by_perm].
Qed.

Hypothesis le_total : forall a b, le a b = true \/ le b a = true.
Hypothesis le_trans : forall a b c, le a b = true -> le b c = true -> le a c = true.

Lemma insert_sorted_sorted (x : A) (l : list A) :
  StronglySorted (fun a b => le a b = true) l ->
  StronglySorted (fun a b => le a b = true) (insert_sorted le x l).
Proof.
  induction 1 as [|y l Hsorted IH Hall]; simpl.
  - repeat constructor.
  - destruct (le x y) eqn:E.
    + constructor; [now constructor|]. constructor; [exact E|].
      eapply Forall_impl; [|exact Hall]. intros z Hz. now apply le_trans with y.
    + constructor; [exact IH|].
      apply Forall_forall. intros z Hz.
      apply (Permutation_in _ (insert_sorted_perm x l)) in Hz.
      destruct Hz as [<-|Hz].
      * destruct (le_total x y); congruence.
      * now apply (proj1 (Forall_forall _ _) Hall).
Qed.

Lemma sort_by_sorted (l : list A) :
  StronglySorted (fun a b => le a b = true) (sort_by le l).
Proof.
  induction l as [|x l IH]; simpl; [constructor|].
  now apply insert_sorted_sorted.
Qed.

Hypothesis le_antisym : forall a b, le a b = true -> le b a = true -> a = b.

Lemma sorted_perm_unique (l1 l2 : list A) :
  StronglySorted (fun a b => le a b = true) l1 ->
  StronglySorted (fun a b => le a b = true) l2 ->
  Permutation l1 l2 -> l1 = l2.
Proof.
  intros H1. revert l2.
  induction H1 as [|x l1 Hs1 IH Hall1]; intros l2 H2 Hperm.
  - now apply Permutation_nil in Hperm.
  - destruct H2 as [|y l2 Hs2 Hall2].
    + now apply Permutation_sym, Permutation_nil in Hperm.
    + assert (Hxy : x = y).
      { assert (Hx : In x (y :: l2))
          by (apply (Permutation_in _ Hperm); now left).
        assert (Hy : In y (x :: l1))
          by (apply (Permutation_in _ (Permutation_sym Hperm)); now left).
        destruct Hx as [Hx|Hx]; [now symmetry|].
        destruct Hy as [Hy|Hy]; [exact Hy|].
        apply le_antisym.
        - now apply (proj1 (Forall_forall _ _) Hall1).
        - now apply (proj1 (Forall_forall _ _) Hall2). }
      subst y. f_equal. apply IH; [exact Hs2|].
      now apply Permutation_cons_inv with x.
Qed.

Lemma sort_by_perm_invariant (l1 l2 : list A) :
  Permutation l1 l2 -> sort_by le l1 = sort_by le l2.
Proof.
  intros Hperm. apply sorted_perm_unique; try apply sort_by_sorted.
  rewrite !sort_by_perm. exact Hperm.
Qed.

End SortFacts.

(** The order of [sort_keys] is a total order. *)
Lemma ascii_compare_N (a b : ascii) :
  Ascii.compare a b = N.compare (N_of_ascii a) (N_of_ascii b).
Proof. reflexivity. Qed.

Lemma string_compare_lt_trans (a b c : string) :
  String.compare a b = Lt -> String.compare b c = Lt -> String.compare a c = Lt.
Proof.
  revert b c. induction a as [|x a IH]; intros [|y b] [|z c]; simpl;
    try discriminate; try reflexivity.
  rewrite !ascii_compare_N.
  destruct (N.compare_spec (N_of_ascii x) (N_of_ascii y)) as [Exy|Lxy|Gxy];
    destruct (N.compare_spec (N_of_ascii y) (N_of_ascii z)) as [Eyz|Lyz|Gyz];
    try discriminate; intros Hab Hbc.
  - rewrite Exy, Eyz, N.compare_refl. now apply IH with b.
  - rewrite Exy. now apply N.compare_lt_iff in Lyz as ->.
  - rewrite <- Eyz. now apply N.compare_lt_iff in Lxy as ->.
  - assert (H : (N_of_ascii x < N_of_ascii z)%N) by lia.
    now apply N.compare_lt_iff in H as ->.
Qed.

Lemma string_leb_trans (a b c : string) :
  String.leb a b = true -> String.leb b c = true -> String.leb a c = true.
Proof.
  unfold String.leb.
  destruct (String.compare a b) eqn:Eab; try discriminate;
    destruct (String.compare b c) eqn:Ebc; try discriminate; intros _ _.
  - apply String.compare_eq_iff in Eab. subst. now rewrite Ebc.
  - apply String.compare_eq_iff in Eab. subst. now rewrite Ebc.
  - apply String.compare_eq_iff in Ebc. subst. now rewrite Eab.
  - now rewrite (string_compare_lt_trans _ _ _ Eab Ebc).
Qed.

Lemma sort_keys_perm_invariant (k1 k2 : list string) :
  Permutation k1 k2 -> sort_keys k1 = sort_keys k2.
Proof.
  apply sort_by_perm_invariant.
  - apply String.leb_total.
  - apply string_leb_trans.
  - apply String.leb_antisym.
Qed.

(** ** The blind index and the order of properties *)

Section BlindIndexFacts.
Import Json.

Lemma get_property_map {A B : Type} (f : A -> B) (P : string)
    (members : list (string * A)) :
  get_property P (map (fun kv => (fst kv, f (snd kv))) members)
  = option_map f (get_property P members).
Proof.
  induction members as [|[k x] members IH]; simpl; [reflexivity|].
  destruct (String.eqb k P); [reflexivity | exact IH].
Qed.

Lemma get_property_in {A : Type} (P : string) (members : list (string * A)) (x : A) :
  get_property P members = Some x -> In (P, x) members.
Proof.
  induction members as [|[k y] members IH]; simpl; [discriminate|].
  destruct (String.eqb_spec k P) as [->|_].
  - intros [= ->]. now left.
  - intros H. right. now apply IH.
Qed.

Lemma get_property_none {A : Type} (P : string) (members : list (string * A)) :
  get_property P members = None <-> ~ In P (map fst members).
Proof.
  induction members as [|[k y] members IH]; simpl; [tauto|].
  destruct (String.eqb_spec k P) as [->|Hne].
  - split; [discriminate | intros H; exfalso; apply H; now left].
  - rewrite IH. tauto.
Qed.

Lemma same_members_each (ms ns : list (string * json)) :
  same_value (JObj ms) (JObj ns) ->
  forall k v, In (k, v) ms ->
    exists v', get_property k ns = Some v' /\ same_value v v'.
Proof.
  intros [_ Heach]. induction ms as [|[k0 v0] ms IH]; [easy|].
  destruct Heach as [Hhead Htail]. intros k v [[= <- <-]|Hin].
  - exact Hhead.
  - now apply IH.
Qed.

(** Under a property list, values that are the same have the same
    text. *)
Lemma serialize_same_value (K : list string) (a : json) :
  forall b, same_value a b ->
    SerializeJSONProperty (Some K) a = SerializeJSONProperty (Some K) b.
Proof.
  induction a as [| x | x | x | xs IH | ms IH] using json_ind;
    intros [| y | y | y | ys | ns] Hsame; simpl in Hsame;
    try contradiction; try (subst; reflexivity).
  - cbn [SerializeJSONProperty]. do 3 f_equal.
    revert ys Hsame. induction IH as [|x xs Hx _ IHxs]; intros [|y ys] Hsame;
      try contradiction; [reflexivity|].
    destruct Hsame as [Hxy Hrest]. simpl. f_equal; [now apply Hx | now apply IHxs].
  - cbn [SerializeJSONProperty]. do 4 f_equal.
    unfold select_properties. apply flat_map_ext. intros P.
    rewrite !get_property_map.
    destruct (get_property P ms) as [v|] eqn:Ems.
    + apply get_property_in in Ems.
      destruct (same_members_each ms ns Hsame P v Ems) as (v' & -> & Hv).
      rewrite Forall_forall in IH.
      pose proof (IH (P, v) Ems v' Hv) as E. simpl in E.
      simpl. now rewrite E.
    + apply get_property_none in Ems.
      destruct Hsame as [Hkeys _].
      assert (Ens : get_property P ns = None).
      { apply get_property_none. intros H. apply Ems. now apply Hkeys. }
      now rewrite Ens.
Qed.

Lemma same_value_keys (a b : json) :
  same_value a b -> wf a -> wf b ->
  match Object_keys a, Object_keys b with
  | Some ka, Some kb => sort_keys ka = sort_keys kb
  | None, None => True
  | _, _ => False
  end.
Proof.
  destruct a as [| x | x | x | xs | ms], b as [| y | y | y | ys | ns];
    simpl; try contradiction; try easy.
  - intros -> _ _. reflexivity.
  - intros Hsame _ _.
    assert (Hlen : length xs = length ys).
    { revert ys Hsame. induction xs as [|x xs IH]; intros [|y ys] H;
        try contradiction; [reflexivity|]. simpl. f_equal. now apply IH. }
    now rewrite Hlen.
  - intros [Hkeys _] [Hnd1 _] [Hnd2 _].
    apply sort_keys_perm_invariant. now apply NoDup_Permutation.
Qed.

(** The hash does not depend on the order of the properties. *)
Lemma createLeaderHash_same_value (C : Platform) (a b : json) :
  same_value a b -> wf a -> wf b ->
  createLeaderHash C a = createLeaderHash C b.
Proof.
  intros Hsame Ha Hb. pose proof (same_value_keys a b Hsame Ha Hb) as Hkeys.
  unfold createLeaderHash.
  destruct (Object_keys a) as [ka|], (Object_keys b) as [kb|];
    try contradiction; [|reflexivity].
  unfold stringify_with. rewrite Hkeys.
  now rewrite (serialize_same_value _ a b Hsame).
Qed.


Lemma same_members_intro (ms ns : list (string * json)) :
  (forall k, In k (map fst ms) <-> In k (map fst ns)) ->
  (forall k v, In (k, v) ms ->
     exists v', get_property k ns = Some v' /\ same_value v v') ->
  same_value (JObj ms) (JObj ns).
Proof.
  intros Hkeys Hall. split; [exact Hkeys|]. clear Hkeys.
  induction ms as [|[k v] ms IH]; [exact I|]. split.
  - apply Hall. now left.
  - apply IH. intros k' v' Hin. apply Hall. now right.
Qed.

Lemma get_property_distinct {A : Type} (k : string) (x : A)
    (members : list (string * A)) :
  NoDup (map fst members) -> In (k, x) members -> get_property k members = Some x.
Proof.
  induction members as [|[k' y] members IH]; [easy|].
  simpl. intros Hnd [[= -> ->]|Hin].
  - now rewrite String.eqb_refl.
  - inversion Hnd as [|? ? Hnotin Hnd']; subst.
    destruct (String.eqb_spec k' k) as [->|_].
    + exfalso. apply Hnotin. apply in_map_iff. now exists (k, x).
    + now apply IH.
Qed.

Lemma same_value_refl (v : json) : wf v -> same_value v v.
Proof.
  induction v as [| x | x | x | xs IH | ms IH] using json_ind; intros Hwf;
    try reflexivity.
  - apply wf_elems in Hwf. simpl.
    induction IH as [|x xs Hx _ IHxs]; [exact I|].
    inversion Hwf; subst. split; [now apply Hx | now apply IHxs].
  - destruct (wf_members _ Hwf) as [Hnd Hall].
    apply same_members_intro; [tauto|]. intros k v Hin.
    exists v. split; [now apply get_property_distinct|].
    rewrite Forall_forall in IH, Hall.
    exact (IH (k, v) Hin (Hall (k, v) Hin)).
Qed.

(** An object and a rearrangement of its properties are the same
    value. *)
Lemma same_value_permuted (ms ns : list (string * json)) :
  Permutation ms ns -> wf (JObj ms) -> same_value (JObj ms) (JObj ns).
Proof.
  intros Hperm Hwf. destruct (wf_members _ Hwf) as [Hnd Hall].
  apply same_members_intro.
  - intros k. split; apply Permutation_in;
      [| apply Permutation_sym]; now apply Permutation_map.
  - intros k v Hin. exists v. split.
    + apply get_property_distinct.
      * eapply Permutation_NoDup; [|exact Hnd]. now apply Permutation_map.
      * now apply (Permutation_in _ Hperm).
    + apply same_value_refl. rewrite Forall_forall in Hall.
      exact (Hall (k, v) Hin).
Qed.

End BlindIndexFacts.

(** ** The assessment routes and the leader listing *)

Lemma start_appends (C : Platform) (srv : server) (now : timestamp)
    (req : start_request) (w w' : world) (i : uuid) :
  assessment_start C srv now req w = (Started i, w') ->
  exists t leaderData h a,
    body_encrypted_leader_identifier req = Some t
    /\ EncryptionService.decrypt C (encryption srv) t = Ok leaderData
    /\ createLeaderHash C leaderData = Some h
    /\ assessments (db w') = assessments (db w) ++ [a]
    /\ assessment_responses (db w') = assessment_responses (db w)
    /\ id a = i /\ leader_hash a = h /\ completed_at a = None.
Proof.
  unfold assessment_start.
  destruct (validateToken C srv (start_token req)) as [|decryptedToken];
    [discriminate|].
  destruct (token_role decryptedToken) as [role_text|]; [|discriminate].
  destruct (body_encrypted_leader_identifier req) as [t|]; [|discriminate].
  destruct (EncryptionService.decrypt C (encryption srv) t) as [leaderData|] eqn:Ed;
    [|discriminate].
  destruct (createLeaderHash C leaderData) as [h|] eqn:Eh; [|discriminate].
  unfold insert_assessment.
  destruct (body_encrypted_rater_identifier req) as [r|]; [|discriminate].
  destruct role_text as [label|]; [|discriminate].
  destruct (assessment_role_in label) as [ro|]; [|discriminate].
  destruct (_ || _); [discriminate|].
  intros [= <- <-]. exists t, leaderData, h. eexists.
  repeat split; solve [reflexivity | assumption].
Qed.

Lemma leader_listing_contains (C : Platform) (srv : server)
    (adminKey : option string) (t : string) (leaderData : json) (h : string)
    (d : database) :
  adminAuth srv adminKey = Next tt ->
  EncryptionService.decrypt C (encryption srv) t = Ok leaderData ->
  createLeaderHash C leaderData = Some h ->
  (exists a, In a (assessments d) /\ leader_hash a = h) ->
  exists rows,
    admin_leader_assessments C srv adminKey t d = AdminOk rows
    /\ forall a, In a (assessments d) -> leader_hash a = h ->
         In a (map leader_row rows).
Proof.
  intros Hauth Hdec Hhash Hex. unfold admin_leader_assessments.
  rewrite Hauth, Hdec, Hhash.
  assert (Hin : forall a, In a (assessments d) -> leader_hash a = h ->
    In a (map leader_row (map (transform_leader C srv)
            (joined_rows (fun a => String.eqb (leader_hash a) h) d)))).
  { intros a Ha Hh. rewrite map_map. unfold joined_rows. rewrite map_map.
    simpl. rewrite map_id. apply sort_by_in. apply filter_In.
    split; [exact Ha|]. now apply String.eqb_eq. }
  destruct (joined_rows (fun a => String.eqb (leader_hash a) h) d) as [|r rows] eqn:E.
  - destruct Hex as (a & Ha & Hh). destruct (Hin a Ha Hh).
  - eexists. split; [reflexivity|]. exact Hin.
Qed.

(** C3. The fingerprint is a function of the decrypted identifier that
    does not depend on the order of its properties: identifiers that are
    the same value have the same hash.  Hence, when two assessments are
    started with leader tokens that decrypt to the same value, the leader
    listing under either token contains both. *)
Theorem leader_hash_key_order
    (C : Platform) (srv : server) (d1 d2 : json) :
  same_value d1 d2 -> Json.wf d1 -> Json.wf d2 ->
  createLeaderHash C d1 = createLeaderHash C d2
  /\ forall (t1 t2 : string) (now1 now2 : timestamp) (req1 req2 : start_request)
            (w0 w1 w2 : world) (id1 id2 : uuid) (adminKey : option string),
       EncryptionService.decrypt C (encryption srv) t1 = Ok d1 ->
       EncryptionService.decrypt C (encryption srv) t2 = Ok d2 ->
       body_encrypted_leader_identifier req1 = Some t1 ->
       body_encrypted_leader_identifier req2 = Some t2 ->
       assessment_start C srv now1 req1 w0 = (Started id1, w1) ->
       assessment_start C srv now2 req2 w1 = (Started id2, w2) ->
       adminAuth srv adminKey = Next tt ->
       forall t, t = t1 \/ t = t2 ->
         exists rows,
           admin_leader_assessments C srv adminKey t (db w2) = AdminOk rows
           /\ In id1 (map (fun r => id (leader_row r)) rows)
           /\ In id2 (map (fun r => id (leader_row r)) rows).
Proof.
  intros Hsame Hwf1 Hwf2.
  pose proof (createLeaderHash_same_value C d1 d2 Hsame Hwf1 Hwf2) as Hhash.
  split; [exact Hhash|].
  intros t1 t2 now1 now2 req1 req2 w0 w1 w2 id1 id2 adminKey
    Hd1 Hd2 Hb1 Hb2 Hs1 Hs2 Hauth t Ht.
  destruct (start_appends _ _ _ _ _ _ _ Hs1)
    as (t1' & d1' & h1 & a1 & Hb1' & Hd1' & Hh1 & Ha1 & _ & Hid1 & Hlh1 & _).
  destruct (start_appends _ _ _ _ _ _ _ Hs2)
    as (t2' & d2' & h2 & a2 & Hb2' & Hd2' & Hh2 & Ha2 & _ & Hid2 & Hlh2 & _).
  rewrite Hb1 in Hb1'. injection Hb1' as <-.
  rewrite Hb2 in Hb2'. injection Hb2' as <-.
  rewrite Hd1 in Hd1'. injection Hd1' as <-.
  rewrite Hd2 in Hd2'. injection Hd2' as <-.
  assert (Hh : h2 = h1) by congruence. subst h2.
  assert (Hin1 : In a1 (assessments (db w2))).
  { rewrite Ha2, Ha1. apply in_or_app. left. apply in_or_app. right. now left. }
  assert (Hin2 : In a2 (assessments (db w2))).
  { rewrite Ha2. apply in_or_app. right. now left. }
  assert (Hlist : exists leaderData,
    EncryptionService.decrypt C (encryption srv) t = Ok leaderData
    /\ createLeaderHash C leaderData = Some h1).
  { destruct Ht as [-> | ->]; [exists d1 | exists d2]; split; congruence. }
  destruct Hlist as (leaderData & Hdec & Hdata).
  destruct (leader_listing_contains C srv adminKey t leaderData h1 (db w2)
              Hauth Hdec Hdata) as (rows & Hrows & Hall).
  { exists a1. split; assumption. }
  exists rows. split; [exact Hrows|].
  rewrite <- (map_map leader_row id). split.
  - rewrite <- Hid1. apply in_map. now apply Hall.
  - rewrite <- Hid2. apply in_map. now apply Hall.
Qed.

Lemma leader_hash_key_order_witness :
  createLeaderHash toy_platform Example.leader
  = createLeaderHash toy_platform Example.leader_reordered
  /\ (exists rows,
        admin_leader_assessments toy_platform Example.srv Example.admin
          Example.leaderToken (db Example.world2) = AdminOk rows
        /\ In 1 (map (fun r => id (leader_row r)) rows)
        /\ In 2 (map (fun r => id (leader_row r)) rows))
  /\ (exists rows,
        admin_leader_assessments toy_platform Example.srv Example.admin
          Example.leaderToken2 (db Example.world2) = AdminOk rows
        /\ In 1 (map (fun r => id (leader_row r)) rows)
        /\ In 2 (map (fun r => id (leader_row r)) rows)).
Proof.
  assert (Hsame : same_value Example.leader Example.leader_reordered).
  { apply same_value_permuted; [apply perm_swap|].
    simpl. repeat split; trivial.
    repeat constructor; simpl; intuition discriminate. }
  assert (Hwf1 : Json.wf Example.leader).
  { simpl. repeat split; trivial.
    repeat constructor; simpl; intuition discriminate. }
  assert (Hwf2 : Json.wf Example.leader_reordered).
  { simpl. repeat split; trivial.
    repeat constructor; simpl; intuition discriminate. }
  destruct (leader_hash_key_order toy_platform Example.srv
              Example.leader Example.leader_reordered Hsame Hwf1 Hwf2)
    as [Hhash Hlist].
  split; [exact Hhash|].
  assert (H : forall t, t = Example.leaderToken \/ t = Example.leaderToken2 ->
    exists rows,
      admin_leader_assessments toy_platform Example.srv Example.admin t
        (db Example.world2) = AdminOk rows
      /\ In 1 (map (fun r => id (leader_row r)) rows)
      /\ In 2 (map (fun r => id (leader_row r)) rows)).
  { apply (Hlist Example.leaderToken Example.leaderToken2 10%Z 11%Z
             Example.start1 Example.start2
             Example.empty_world Example.world1 Example.world2 1 2 Example.admin);
      vm_compute; reflexivity. }
  split; apply H; [now left | now right].
Defined.


(** ** Submission *)

Lemma insert_response_ok (now : timestamp) (aid : uuid) (q value : string)
    (d d' : database) (fresh : uuid) :
  insert_response now aid q value d fresh = Ok d' ->
  assessments d' = assessments d
  /\ assessment_responses d'
     = assessment_responses d
       ++ [{| response_id := fresh; assessment_id := aid; question_id := q;
              response := value; response_created_at := now |}]
  /\ (exists a, In a (assessments d) /\ id a = aid)
  /\ (forall r, In r (assessment_responses d) -> assessment_id r = aid ->
        question_id r <> q).
Proof.
  unfold insert_response.
  destruct (existsb (fun a => id a =? aid) (assessments d)) eqn:Efk;
    simpl; [|discriminate].
  destruct (existsb (fun r => response_id r =? fresh) (assessment_responses d));
    simpl; [discriminate|].
  destruct (existsb _ (assessment_responses d)) eqn:Euq; [discriminate|].
  intros [= <-]. simpl. repeat split.
  - apply existsb_exists in Efk. destruct Efk as (a & Ha & Hid).
    exists a. split; [exact Ha | now apply Nat.eqb_eq].
  - intros r Hr Haid Hq.
    assert (H : existsb (fun r => (assessment_id r =? aid)
                                  && String.eqb (question_id r) q)
                        (assessment_responses d) = true).
    { apply existsb_exists. exists r. split; [exact Hr|].
      apply andb_true_intro. split;
        [now apply Nat.eqb_eq | now apply String.eqb_eq]. }
    congruence.
Qed.

Lemma insert_responses_ok (C : Platform) (srv : server) (now : timestamp)
    (aid : uuid) (entries : list response_entry) :
  forall w w',
    insert_responses C srv now aid entries w = (Ok tt, w') ->
    assessments (db w') = assessments (db w)
    /\ (entries <> [] -> exists a, In a (assessments (db w)) /\ id a = aid)
    /\ NoDup (map questionId entries)
    /\ (forall r, In r (assessment_responses (db w)) -> assessment_id r = aid ->
          ~ In (question_id r) (map questionId entries))
    /\ exists rows,
         assessment_responses (db w') = assessment_responses (db w) ++ rows
         /\ Forall2 (stored_as C srv aid) entries rows.
Proof.
  induction entries as [|entry rest IH]; intros w w' H.
  - injection H as <-. repeat split; try easy; [constructor|].
    exists []. split; [now rewrite app_nil_r | constructor].
  - cbn [insert_responses] in H.
    remember (if startsWith (questionId entry) "open_"
              then EncryptionService.encrypt C (encryption srv)
                     (JStr (entry_response entry)) (rng w)
              else (Ok (entry_response entry), rng w)) as chosen eqn:Echosen.
    destruct chosen as [[value|err] e1]; [|discriminate].
    destruct (insert_response now aid (questionId entry) value (db w)
                (uuid_counter w)) as [d|err] eqn:Eins; [|discriminate].
    destruct (insert_response_ok _ _ _ _ _ _ _ Eins)
      as (Hassess & Hresp & Hexists & Hfresh).
    destruct (IH _ _ H) as (IHa & _ & IHnd & IHclash & rows & IHrows & IHstored).
    cbn [db] in *.
    assert (Hnotin : ~ In (questionId entry) (map questionId rest)).
    { apply (IHclash {| response_id := uuid_counter w; assessment_id := aid;
                        question_id := questionId entry; response := value;
                        response_created_at := now |}); [|reflexivity].
      rewrite Hresp. apply in_or_app. right. now left. }
    split; [congruence|]. split; [intros _; exact Hexists|].
    split; [now constructor|]. split.
    + intros r Hr Haid [Hq|Hq].
      * now apply (Hfresh r Hr Haid).
      * apply (IHclash r); [|exact Haid|exact Hq].
        rewrite Hresp. apply in_or_app. now left.
    + eexists. split.
      * rewrite IHrows, Hresp, <- app_assoc. reflexivity.
      * constructor; [|exact IHstored].
        unfold stored_as. cbn [assessment_id question_id response].
        split; [reflexivity|]. split; [reflexivity|].
        destruct (startsWith (questionId entry) "open_").
        -- exists (rng w), e1. now rewrite <- Echosen.
        -- now injection Echosen as -> _.
Qed.

Lemma update_completed_sets (now : timestamp) (aid : uuid) (d : database) :
  forall a, In a (assessments (update_completed now aid d)) -> id a = aid ->
    completed_at a = Some now.
Proof.
  intros a Ha Hid. unfold update_completed in Ha. cbn [assessments] in Ha.
  apply in_map_iff in Ha. destruct Ha as (a0 & <- & _).
  destruct (id a0 =? aid) eqn:E; [reflexivity|].
  apply Nat.eqb_neq in E. contradiction.
Qed.

(** C2. Submission is all or nothing.  When the answer is an error, be it
    a rejected token or any statement of the transaction that failed, the
    tables are as they were before the call: [completed_at] is untouched
    and no row of the batch is stored.  When the answer is success,
    [completed_at] of the assessment is the time of the call and the
    batch is stored, one row per entry, after the rows that were there.
    Success requires that no question occurs twice in the batch and that
    none of its questions was stored for the assessment before, so a
    duplicate anywhere in the batch leads to the first case. *)
Theorem submit_atomic (C : Platform) (srv : server) (now : timestamp)
    (req : submit_request) (w : world) :
  let aid := assessmentId req in
  let answer := fst (assessment_submit C srv now req w) in
  let w' := snd (assessment_submit C srv now req w) in
  match answer with
  | SubmitError _ _ => db w' = db w
  | Submitted =>
      assessments (db w') = assessments (update_completed now aid (db w))
      /\ (forall a, In a (assessments (db w')) -> id a = aid ->
            completed_at a = Some now)
      /\ (exists rows,
            assessment_responses (db w') = assessment_responses (db w) ++ rows
            /\ length rows = length (responses req)
            /\ Forall2 (stored_as C srv aid) (responses req) rows)
      /\ NoDup (map questionId (responses req))
      /\ (forall r, In r (assessment_responses (db w)) -> assessment_id r = aid ->
            ~ In (question_id r) (map questionId (responses req)))
  end.
Proof.
  intros aid. unfold assessment_submit.
  destruct (validateToken C srv (submit_token req)); [reflexivity|].
  destruct (insert_responses C srv now (assessmentId req) (responses req) _)
    as [[[]|err] w1] eqn:E; [|reflexivity].
  destruct (insert_responses_ok _ _ _ _ _ _ _ E)
    as (Ha & _ & Hnd & Hclash & rows & Hrows & Hstored).
  cbn [fst snd db] in *.
  split; [exact Ha|]. split.
  - intros a Hin Hid. rewrite Ha in Hin.
    now apply (update_completed_sets now aid (db w)).
  - split; [|split; assumption].
    exists rows. split; [exact Hrows|]. split; [|exact Hstored].
    symmetry. now apply Forall2_length in Hstored.
Qed.


Lemma encrypt_then_decrypt (C : Platform) (this : EncryptionService.t)
    (v : json) (e e' : entropy) (token : string) :
  gcm_lawful C -> length (EncryptionService.key this) = 32 ->
  Json.wf v -> Json.representable (number_value C) v ->
  EncryptionService.encrypt C this v e = (Ok token, e') ->
  EncryptionService.decrypt C this token = Ok v.
Proof.
  intros Hgcm Hkey Hwf Hnum E.
  destruct (encrypt_envelope C this v e Hkey) as (iv & salt & e2 & Hiv & Hsalt & E2).
  rewrite E in E2. injection E2 as -> _. now apply decrypt_envelope.
Qed.

Lemma Forall2_in_left {A B : Type} (R : A -> B -> Prop) (l : list A) (l' : list B) :
  Forall2 R l l' -> forall x, In x l -> exists y, In y l' /\ R x y.
Proof.
  induction 1 as [|x y l l' Hxy _ IH]; intros z Hz; [easy|].
  destruct Hz as [<-|Hz].
  - exists y. split; [now left | exact Hxy].
  - destruct (IH z Hz) as (y' & Hy' & Hr). exists y'. split; [now right | exact Hr].
Qed.

(** What the detail route shows for a stored entry. *)
Lemma process_detail_stored (C : Platform) (srv : server) (aid : uuid)
    (entry : response_entry) (r : assessment_response) :
  gcm_lawful C -> length (EncryptionService.key (encryption srv)) = 32 ->
  stored_as C srv aid entry r ->
  detail_shown (process_detail C srv r) = JStr (entry_response entry).
Proof.
  intros Hgcm Hkey (_ & Hq & Hvalue). unfold process_detail. cbn [detail_shown].
  rewrite Hq. destruct (startsWith (questionId entry) "open_") eqn:Eopen.
  - destruct Hvalue as (e & e' & Henc).
    rewrite (encrypt_then_decrypt C _ (JStr (entry_response entry)) e e' _
               Hgcm Hkey I I Henc).
    destruct (questionId entry); [discriminate Eopen | reflexivity].
  - rewrite andb_false_r. now rewrite Hvalue.
Qed.

(** ** Claims about stored responses *)

(** C6. A successful submission stores each entry of the batch for the
    assessment under its question: as an envelope made by the codec when
    the question identifier starts with ["open_"], and as the text given
    otherwise.  The detail route then shows [completed_at] set, and for
    every entry the text that was submitted: the rating as it was given,
    the open-ended answer decrypted. *)
Theorem submit_then_detail
    (C : Platform) (srv : server) (keyText : string) (now : timestamp)
    (req : submit_request) (w w' : world) (adminKey : option string) :
  gcm_lawful C ->
  EncryptionService.constructor (Some keyText) = Ok (encryption srv) ->
  adminAuth srv adminKey = Next tt ->
  (exists a, In a (assessments (db w)) /\ id a = assessmentId req) ->
  assessment_submit C srv now req w = (Submitted, w') ->
  (exists rows,
     assessment_responses (db w') = assessment_responses (db w) ++ rows
     /\ Forall2 (stored_as C srv (assessmentId req)) (responses req) rows)
  /\ exists detail,
       admin_assessment C srv adminKey (assessmentId req) (db w') = AdminOk detail
       /\ completed_at (detail_assessment detail) = Some now
       /\ forall entry, In entry (responses req) ->
            exists shown,
              In shown (detail_responses detail)
              /\ question_id (detail_row shown) = questionId entry
              /\ detail_shown shown = JStr (entry_response entry).
Proof.
  intros Hgcm Hctor Hauth (a0 & Ha0 & Hid0) Hsubmit.
  pose proof (constructor_key_length _ _ Hctor) as Hkey.
  unfold assessment_submit in Hsubmit.
  destruct (validateToken C srv (submit_token req)); [discriminate|].
  destruct (insert_responses C srv now (assessmentId req) (responses req) _)
    as [[[]|err] w1] eqn:E; [|discriminate].
  injection Hsubmit as ->.
  destruct (insert_responses_ok _ _ _ _ _ _ _ E)
    as (Hassess & _ & _ & _ & rows & Hrows & Hstored).
  cbn [db] in Hassess, Hrows.
  assert (Hdone : forall a, In a (assessments (db w')) ->
                    id a = assessmentId req -> completed_at a = Some now).
  { intros a Hin Hid. rewrite Hassess in Hin.
    now apply (update_completed_sets now (assessmentId req) (db w)). }
  split; [exists rows; split; assumption|].
  unfold admin_assessment. rewrite Hauth.
  destruct (filter (fun a => id a =? assessmentId req) (assessments (db w')))
    as [|a1 others] eqn:Efilter.
  - exfalso.
    assert (Hin : In (if id a0 =? assessmentId req
                      then {| id := id a0;
                              encrypted_leader_identifier := encrypted_leader_identifier a0;
                              encrypted_rater_identifier := encrypted_rater_identifier a0;
                              leader_hash := leader_hash a0;
                              role := role a0;
                              created_at := created_at a0;
                              updated_at := now;
                              completed_at := Some now |}
                      else a0)
                     (filter (fun a => id a =? assessmentId req)
                             (assessments (db w')))).
    { apply filter_In. split.
      - rewrite Hassess. unfold update_completed. cbn [assessments].
        apply in_map_iff. exists a0. split; [reflexivity | exact Ha0].
      - rewrite (proj2 (Nat.eqb_eq _ _) Hid0). cbn [id].
        now apply Nat.eqb_eq. }
    rewrite Efilter in Hin. destruct Hin.
  - eexists. split; [reflexivity|]. cbn [detail_assessment detail_responses].
    assert (Ha1 : In a1 (filter (fun a => id a =? assessmentId req)
                                (assessments (db w'))))
      by (rewrite Efilter; now left).
    apply filter_In in Ha1. destruct Ha1 as [Hin1 Hid1].
    apply Nat.eqb_eq in Hid1. split; [now apply Hdone|].
    intros entry Hentry.
    destruct (Forall2_in_left _ _ _ Hstored entry Hentry) as (r & Hr & Hs).
    exists (process_detail C srv r). split; [|split].
    + apply in_map. apply sort_by_in. apply filter_In. split.
      * rewrite Hrows. apply in_or_app. now right.
      * destruct Hs as [-> _]. now apply Nat.eqb_eq.
    + cbn [process_detail detail_row]. now destruct Hs as (_ & -> & _).
    + now apply (process_detail_stored C srv (assessmentId req)).
Qed.


Lemma submit_then_detail_witness :
  (exists rows,
     assessment_responses (db Example.world3)
     = assessment_responses (db Example.world2) ++ rows
     /\ Forall2 (stored_as toy_platform Example.srv 1)
          (responses Example.submit1) rows)
  /\ exists detail,
       admin_assessment toy_platform Example.srv Example.admin 1
         (db Example.world3) = AdminOk detail
       /\ completed_at (detail_assessment detail) = Some 20%Z
       /\ forall entry, In entry (responses Example.submit1) ->
            exists shown,
              In shown (detail_responses detail)
              /\ question_id (detail_row shown) = questionId entry
              /\ detail_shown shown = JStr (entry_response entry).
Proof.
  apply (submit_then_detail toy_platform Example.srv Example.key_text 20%Z
           Example.submit1 Example.world2 Example.world3 Example.admin).
  - exact toy_lawful.
  - vm_compute. reflexivity.
  - vm_compute. reflexivity.
  - vm_compute. eexists. split; [left; reflexivity | reflexivity].
  - vm_compute. reflexivity.
Defined.

(** A batch of three whose third entry repeats the question of the first
    is refused, and the tables are as before: the assessment is not
    completed and no row of the batch is stored. *)
Example duplicate_rolls_back :
  fst (assessment_submit toy_platform Example.srv 30%Z Example.submit_twice
         Example.world3)
  = SubmitError 500 INTERNAL_ERROR
  /\ db (snd (assessment_submit toy_platform Example.srv 30%Z
                Example.submit_twice Example.world3))
     = db Example.world3.
Proof. split; vm_compute; reflexivity. Qed.


(** ** Claims about the admin routes *)

Lemma filter_all {A : Type} (l : list A) : filter (fun _ => true) l = l.
Proof. induction l as [|x l IH]; simpl; [reflexivity | now rewrite IH]. Qed.

Lemma joined_rows_rows (keep : assessment -> bool) (d : database) :
  map row (joined_rows keep d) = sort_by newest_first (filter keep (assessments d)).
Proof. unfold joined_rows. rewrite map_map. simpl. apply map_id. Qed.

Lemma newest_first_total (a b : assessment) :
  newest_first a b = true \/ newest_first b a = true.
Proof. unfold newest_first. rewrite !Z.leb_le. lia. Qed.

Lemma newest_first_trans (a b c : assessment) :
  newest_first a b = true -> newest_first b c = true -> newest_first a c = true.
Proof. unfold newest_first. rewrite !Z.leb_le. lia. Qed.

Lemma open_question_not_empty (q : string) :
  negb (String.eqb q EmptyString) && startsWith q "open_" = startsWith q "open_".
Proof. destruct q; reflexivity. Qed.

(** The responses shown for a row of a listing query. *)
Lemma processed_responses_shown (C : Platform) (srv : server) (d : database)
    (a : assessment) (s : assessment_response) :
  In s (assessment_responses d) -> assessment_id s = id a ->
  exists shown,
    In shown
       (processedResponses C srv
          match filter (fun r => assessment_id r =? id a)
                       (assessment_responses d) with
          | [] => [Some {| agg_question_id := None;
                           agg_response_text := None;
                           agg_created_at := None |}]
          | rs =>
              map (fun r =>
                     Some {| agg_question_id := Some (question_id r);
                             agg_response_text := Some (response r);
                             agg_created_at := Some (response_created_at r) |})
                  rs
          end)
    /\ shown_question_id shown = Some (question_id s)
    /\ shown_value shown = response_shown C srv s
    /\ shown_created_at shown = Some (response_created_at s).
Proof.
  intros Hs Haid.
  assert (Hin : In s (filter (fun r => assessment_id r =? id a)
                             (assessment_responses d))).
  { apply filter_In. split; [exact Hs | now apply Nat.eqb_eq]. }
  destruct (filter (fun r => assessment_id r =? id a) (assessment_responses d))
    as [|s0 rs]; [destruct Hin|].
  exists (process_response C srv
            {| agg_question_id := Some (question_id s);
               agg_response_text := Some (response s);
               agg_created_at := Some (response_created_at s) |}).
  split; [|split; [reflexivity|split; [|reflexivity]]].
  - unfold processedResponses. cbn [map]. apply in_flat_map.
    exists (Some {| agg_question_id := Some (question_id s);
                    agg_response_text := Some (response s);
                    agg_created_at := Some (response_created_at s) |}).
    split; [|now left].
    change (In (Some {| agg_question_id := Some (question_id s);
                        agg_response_text := Some (response s);
                        agg_created_at := Some (response_created_at s) |})
               (map (fun r =>
                       Some {| agg_question_id := Some (question_id r);
                               agg_response_text := Some (response r);
                               agg_created_at := Some (response_created_at r) |})
                    (s0 :: rs))).
    apply in_map_iff. exists s. split; [reflexivity | exact Hin].
  - unfold process_response, response_shown.
    cbn [shown_value agg_question_id agg_response_text text_or_null].
    now rewrite open_question_not_empty.
Qed.

(** C8, as the code has it.  The listing never fails for a row that does
    not decrypt: it answers every assessment, newest first.  In a row the
    two identifiers stand or fall together: both are shown decrypted when
    both decrypt, and both are replaced by the marker when either does
    not.  Each stored response is treated on its own: a rating is shown as
    stored, an open-ended answer decrypted, or replaced by the marker when
    it does not decrypt.  What a row shows depends on that row alone. *)
Theorem listing_tolerates_decryption_failure
    (C : Platform) (srv : server) (adminKey : option string) (d : database) :
  adminAuth srv adminKey = Next tt ->
  exists rows,
    admin_assessments C srv adminKey d = AdminOk rows
    /\ Permutation (map listed_row rows) (assessments d)
    /\ StronglySorted (fun a b => (created_at b <= created_at a)%Z)
         (map listed_row rows)
    /\ Forall (fun r => identifiers_shown C srv r /\ responses_shown C srv d r)
         rows.
Proof.
  intros Hauth. unfold admin_assessments. rewrite Hauth.
  eexists. split; [reflexivity|].
  assert (Hrows : map listed_row
                    (map (transform_listed C srv) (joined_rows (fun _ => true) d))
                  = sort_by newest_first (assessments d)).
  { rewrite map_map. cbn [transform_listed listed_row].
    change (map (fun x => row x) ?l) with (map row l).
    now rewrite joined_rows_rows, filter_all. }
  rewrite Hrows. split; [apply sort_by_perm|]. split.
  - pose proof (sort_by_sorted newest_first newest_first_total
                  newest_first_trans (assessments d)) as Hsorted.
    eapply StronglySorted_ind with (P := fun l =>
      StronglySorted (fun a b => (created_at b <= created_at a)%Z) l);
      [constructor | | exact Hsorted].
    intros a l _ IH Hall. constructor; [exact IH|].
    eapply Forall_impl; [|exact Hall]. intros b Hb.
    now apply Z.leb_le.
  - apply Forall_forall. intros r Hr.
    apply in_map_iff in Hr. destruct Hr as (j & <- & Hj).
    split.
    + unfold identifiers_shown, transform_listed, decrypt_identifiers.
      cbn [listed_row listed_leader_identifier listed_rater_identifier].
      destruct (EncryptionService.decrypt C (encryption srv)
                  (encrypted_leader_identifier (row j)));
        destruct (EncryptionService.decrypt C (encryption srv)
                    (encrypted_rater_identifier (row j)));
        split; reflexivity.
    + intros s Hs Haid. unfold joined_rows in Hj.
      apply in_map_iff in Hj. destruct Hj as (a & <- & _).
      cbn [transform_listed listed_row listed_responses row row_responses] in *.
      now apply processed_responses_shown.
Qed.

Lemma listing_tolerates_decryption_failure_witness :
  exists rows,
    admin_assessments toy_platform Example.srv Example.admin Example.mixed_db
    = AdminOk rows
    /\ Permutation (map listed_row rows) (assessments Example.mixed_db)
    /\ StronglySorted (fun a b => (created_at b <= created_at a)%Z)
         (map listed_row rows)
    /\ Forall (fun r => identifiers_shown toy_platform Example.srv r
                        /\ responses_shown toy_platform Example.srv
                             Example.mixed_db r)
         rows.
Proof.
  apply (listing_tolerates_decryption_failure toy_platform Example.srv
           Example.admin Example.mixed_db).
  vm_compute. reflexivity.
Defined.

(** The listing of tables with damaged rows beside intact ones: the
    assessment whose leader ciphertext is damaged shows the marker for
    both identifiers, the damaged response shows the marker, and every
    other field of every row is shown decrypted. *)
Example listing_of_damaged_tables :
  exists r3 r2 r1,
    admin_assessments toy_platform Example.srv Example.admin Example.mixed_db
    = AdminOk [r3; r2; r1]
    /\ map (fun r => id (listed_row r)) [r3; r2; r1] = [3; 2; 1]
    /\ listed_leader_identifier r3 = DECRYPTION_ERROR
    /\ listed_rater_identifier r3 = DECRYPTION_ERROR
    /\ listed_leader_identifier r2 = Example.leader_reordered
    /\ listed_rater_identifier r2 = Example.rater2
    /\ map shown_value (listed_responses r2) = [DECRYPTION_ERROR]
    /\ listed_leader_identifier r1 = Example.leader
    /\ listed_rater_identifier r1 = Example.rater1
    /\ map shown_value (listed_responses r1) = [JStr "4"; JStr "Great listener"].
Proof.
  do 3 eexists. split; [vm_compute; reflexivity|].
  repeat split; vm_compute; reflexivity.
Qed.

(** C8 as stated fails: in a row whose leader ciphertext does not decrypt,
    the rater identifier is replaced by the marker although it
    decrypts. *)
Lemma marker_replaces_valid_rater :
  exists r,
    admin_assessments toy_platform Example.srv Example.admin Example.corrupt_db
    = AdminOk [r]
    /\ EncryptionService.decrypt toy_platform Example.service
         (encrypted_rater_identifier (listed_row r)) = Ok Example.rater1
    /\ listed_rater_identifier r = DECRYPTION_ERROR
    /\ listed_rater_identifier r <> Example.rater1.
Proof.
  eexists. split; [vm_compute; reflexivity|].
  split; [vm_compute; reflexivity|].
  split; [reflexivity | discriminate].
Qed.


Lemma cast_all_fails (C : Platform) (texts : list string) (t : string) :
  In t texts -> float8in C t = None -> is_ok (cast_all C texts) = false.
Proof.
  induction texts as [|x texts IH]; [easy|]. intros [->|Hin] Hnone; simpl.
  - now rewrite Hnone.
  - destruct (float8in C x); [|reflexivity].
    specialize (IH Hin Hnone). now destruct (cast_all C texts).
Qed.

Lemma group_stats_fails (C : Platform) (d : database) (questions : list string)
    (r : assessment_response) :
  In r (assessment_responses d) -> In (question_id r) questions ->
  float8in C (response r) = None ->
  is_ok (group_stats C d questions) = false.
Proof.
  intros Hr Hq Hnone. induction questions as [|q questions IH]; [easy|].
  simpl. destruct Hq as [->|Hq].
  - pose proof (cast_all_fails C
      (map response (filter (fun r0 => String.eqb (question_id r0) (question_id r))
                            (assessment_responses d)))
      (response r)) as Hfail.
    destruct (cast_all C _); [|reflexivity].
    discriminate Hfail; [|exact Hnone].
    apply in_map. apply filter_In. split; [exact Hr | apply String.eqb_refl].
  - destruct (cast_all C _); [|reflexivity].
    specialize (IH Hq). now destruct (group_stats C d questions).
Qed.

(** C7 on the code.  The first statement of the route compares the role
    with ['leader'] and ['rater'], which are not labels of the
    enumeration, so it is refused whatever the tables hold and the route
    answers 500: no count is returned, in total, completed or by role.
    The second statement casts the response of every row: a stored
    response that is not a number, as the envelope of an open-ended answer
    is, makes it fail instead of being left out of the average. *)
Theorem statistics_never_answered
    (C : Platform) (srv : server) (adminKey : option string) (d : database) :
  assessment_stats_query d = Err (InvalidEnumInput "leader")
  /\ admin_statistics C srv adminKey d
     = match adminAuth srv adminKey with
       | Respond status error => AdminError status error
       | Next _ => AdminError 500 INTERNAL_ERROR
       end
  /\ (forall r, In r (assessment_responses d) ->
        float8in C (response r) = None ->
        is_ok (response_stats_query C d) = false).
Proof.
  split; [reflexivity|]. split.
  - unfold admin_statistics. destruct (adminAuth srv adminKey); reflexivity.
  - intros r Hr Hnone. unfold response_stats_query.
    apply (group_stats_fails C d _ r Hr); [|exact Hnone].
    apply sort_by_in. apply nodup_In. now apply in_map.
Qed.

(** The statistics of the example: one completed assessment of a peer
    with a rating and an open-ended answer, and one that is not
    completed. *)
Example statistics_of_example :
  admin_statistics toy_platform Example.srv Example.admin (db Example.world3)
  = AdminError 500 INTERNAL_ERROR.
Proof. vm_compute. reflexivity. Qed.

(* ================================================================== *)
(** * Part III. Further properties of the code                        *)
(* ================================================================== *)

(** ** The token utility *)

Lemma split_on_no_separator (sep : ascii) (s : list ascii) :
  ~ In sep s -> split_on sep s = [s].
Proof.
  induction s as [|c s IH]; intros Hin; [reflexivity|].
  simpl. destruct (Ascii.eqb_spec c sep) as [->|_].
  - exfalso. apply Hin. now left.
  - rewrite IH; [reflexivity|]. intros H. apply Hin. now right.
Qed.

Lemma split_on_once (sep : ascii) (a b : list ascii) :
  ~ In sep a -> ~ In sep b -> split_on sep (a ++ sep :: b) = [a; b].
Proof.
  intros Ha Hb. induction a as [|c a IH]; simpl.
  - rewrite Ascii.eqb_refl. now rewrite split_on_no_separator.
  - destruct (Ascii.eqb_spec c sep) as [->|_].
    + exfalso. apply Ha. now left.
    + rewrite IH; [reflexivity|]. intros H. apply Ha. now right.
Qed.

Lemma encode_char_not_colon (url : bool) (s : Base64.sextet) :
  Base64.encode_char url s <> ":"%char.
Proof. destruct url; destruct s as [[] [] [] [] [] []]; discriminate. Qed.

Lemma encode_chars_no_colon (url : bool) (b : Buffer) :
  ~ In ":"%char (Base64.encode_chars url b).
Proof.
  unfold Base64.encode_chars. intros H. apply in_app_or in H.
  destruct H as [H|H].
  - apply in_map_iff in H. destruct H as (s & Hs & _).
    exact (encode_char_not_colon url s Hs).
  - unfold Base64.padding in H. destruct url; [destruct H|].
    destruct (length b mod 3) as [|[|[|n]]]; simpl in H;
      intuition discriminate.
Qed.

Lemma sextets_not_nil (b : Buffer) : b <> [] -> Base64.sextets b <> [].
Proof.
  destruct b as [|x [|y [|z b]]]; [congruence| | |]; intros _.
  - destruct x; discriminate.
  - destruct x, y; discriminate.
  - destruct x, y, z; discriminate.
Qed.

Lemma encode_chars_not_empty (url : bool) (b : Buffer) :
  b <> [] -> is_empty (Base64.encode_chars url b) = false.
Proof.
  intros Hb. unfold Base64.encode_chars.
  pose proof (sextets_not_nil b Hb) as Hs.
  destruct (Base64.sextets b); [congruence | reflexivity].
Qed.

(** Padded base64 decodes to the buffer it came from. *)
Lemma decode_encode_std (b : Buffer) : Base64.decode (Base64.encode false b) = b.
Proof.
  destruct (Nat.eq_dec (length b mod 3) 0) as [E|E].
  - unfold Base64.decode, Base64.encode, Base64.encode_chars, Base64.padding.
    rewrite list_ascii_of_string_of_list_ascii, E, legal_prefix_encoded.
    simpl. rewrite app_nil_r. apply regroup_sextets.
  - pose proof (decode_encode_padded b EmptyString E) as H.
    assert (Hnil : forall s : string, (s ++ "")%string = s).
    { induction s as [|c s IH]; simpl; [reflexivity | now rewrite IH]. }
    now rewrite Hnil in H.
Qed.

Lemma list_ascii_app (a b : string) :
  list_ascii_of_string (a ++ b)%string
  = list_ascii_of_string a ++ list_ascii_of_string b.
Proof. induction a as [|c a IH]; simpl; [reflexivity | now rewrite IH]. Qed.

(** X1. The self-test of the utility holds for every text: with a key of
    32 bytes, [decryptToken] gives back the text from which
    [generateToken] made the token. *)
Theorem decryptToken_generateToken
    (C : Platform) (D : CbcDecipher) (ENCRYPTION_KEY : option string)
    (data token : string) (e e' : entropy) :
  cbc_lawful C D ->
  generateToken C ENCRYPTION_KEY data e = (Ok token, e') ->
  decryptToken C D ENCRYPTION_KEY token = Ok data.
Proof.
  intros Hcbc Hgen. unfold generateToken in Hgen.
  destruct ENCRYPTION_KEY as [[|c k]|]; try discriminate.
  destruct (randomBytes 16 e) as [iv e1] eqn:Eiv.
  pose proof (randomBytes_length 16 e) as Hiv. rewrite Eiv in Hiv. simpl in Hiv.
  destruct (length (utf8_encode (String c k)) =? 32) eqn:Hkey;
    cbn [negb] in Hgen; [|discriminate].
  injection Hgen as <- _. apply Nat.eqb_eq in Hkey.
  destruct (Hcbc (utf8_encode (String c k)) iv (utf8_encode data) Hkey Hiv)
    as [Hne Hopen].
  unfold decryptToken.
  rewrite list_ascii_app. cbn [list_ascii_of_string append].
  unfold Base64.encode. rewrite !list_ascii_of_string_of_list_ascii.
  rewrite split_on_once by apply encode_chars_no_colon.
  rewrite !encode_chars_not_empty
    by (try exact Hne; intros ->; discriminate Hiv).
  cbn [orb].
  change (string_of_list_ascii (Base64.encode_chars false ?b))
    with (Base64.encode false b).
  rewrite !decode_encode_std, Hkey, Hiv. cbn [Nat.eqb negb].
  change (c :: utf8_encode k) with (utf8_encode (String c k)).
  now rewrite Hopen, utf8_decode_encode.
Qed.

Lemma toy_cbc_lawful : cbc_lawful toy_platform toy_decipher.
Proof.
  intros key iv plaintext _ Hiv. cbn [cbc_seal cbc_open toy_platform toy_decipher].
  split.
  - destruct iv; [discriminate | discriminate].
  - rewrite key_stream_involutive, skipn_app, skipn_all, Nat.sub_diag.
    reflexivity.
Qed.

Lemma decryptToken_generateToken_witness :
  decryptToken toy_platform toy_decipher
    (Some "0123456789abcdef0123456789abcdef"%string)
    "AwoRGB8mLTQ7QklQV15lbA==:MzsjKysTGwMDeygyNDoACkRUQUcZUVdDWRRQUFA="
  = Ok "test-data-123"%string.
Proof.
  apply (decryptToken_generateToken toy_platform toy_decipher _ _ _
           (Example.source 0) (Example.source 16)).
  - exact toy_cbc_lawful.
  - vm_compute. reflexivity.
Defined.

(** X2. The two formats do not mix in the other direction either: an
    envelope of [EncryptionService.encrypt] has no colon, and
    [decryptToken] refuses it as an invalid format whatever key is
    set. *)
Theorem decryptToken_refuses_envelopes
    (C : Platform) (D : CbcDecipher) (this : EncryptionService.t)
    (ENCRYPTION_KEY : string) (v : json) (e e' : entropy) (token : string) :
  ENCRYPTION_KEY <> EmptyString ->
  EncryptionService.encrypt C this v e = (Ok token, e') ->
  decryptToken C D (Some ENCRYPTION_KEY) token = Err InvalidTokenFormat.
Proof.
  intros Hkey Henc. unfold EncryptionService.encrypt in Henc.
  destruct (randomBytes EncryptionService.IV_LENGTH e) as [iv e1].
  destruct (randomBytes EncryptionService.SALT_LENGTH e1) as [salt e2].
  destruct (check_gcm_args _ _); [discriminate|]. injection Henc as <- _.
  unfold decryptToken. destruct ENCRYPTION_KEY as [|c k]; [congruence|].
  unfold Base64.encode. rewrite list_ascii_of_string_of_list_ascii.
  now rewrite split_on_no_separator by apply encode_chars_no_colon.
Qed.

Lemma decryptToken_refuses_envelopes_witness :
  decryptToken toy_platform toy_decipher
    (Some "0123456789abcdef0123456789abcdef"%string) Example.leaderToken
  = Err InvalidTokenFormat.
Proof.
  apply (decryptToken_refuses_envelopes toy_platform toy_decipher
           Example.service _ Example.leader (Example.source 0)
           (Example.source 80)).
  - discriminate.
  - vm_compute. reflexivity.
Defined.

(** ** Short envelopes *)

(** X3. A text of fewer than 112 characters decodes to fewer than 84
    bytes, which leaves fewer than four bytes for the tag field:
    [decrypt] refuses it while it sets up the decipher (for its IV, its
    key or its authentication tag), before any data is authenticated,
    and [validateToken] is false. *)
Theorem decrypt_refuses_short_text
    (C : Platform) (this : EncryptionService.t) (text : string) :
  String.length text < 112 ->
  EncryptionService.validateToken C this text = false
  /\ exists err,
       EncryptionService.decrypt C this text
       = Err (EncryptionService.CryptoError err)
       /\ err <> UnableToAuthenticate.
Proof.
  intros Hlen. pose proof (decode_length text) as Hdec.
  assert (Hshort : length (Base64.decode text) < 84) by lia.
  assert (Hgoal : exists err,
    EncryptionService.decrypt C this text
    = Err (EncryptionService.CryptoError err) /\ err <> UnableToAuthenticate).
  { unfold EncryptionService.decrypt.
    destruct (check_gcm_args _ _) as [err|] eqn:Eargs.
    - exists err. split; [reflexivity|]. unfold check_gcm_args in Eargs.
      destruct (_ =? 0); [now injection Eargs as <-|].
      destruct (negb _); [now injection Eargs as <- | discriminate].
    - assert (Htag : valid_gcm_tag_length
                (length (subarray (Base64.decode text)
                   (EncryptionService.IV_LENGTH + EncryptionService.SALT_LENGTH)
                   (EncryptionService.IV_LENGTH + EncryptionService.SALT_LENGTH
                    + EncryptionService.TAG_LENGTH))) = false).
      { unfold subarray. rewrite length_firstn, length_skipn.
        unfold EncryptionService.IV_LENGTH, EncryptionService.SALT_LENGTH,
          EncryptionService.TAG_LENGTH.
        remember (Nat.min (16 + 64 + 16 - (16 + 64))
                          (length (Base64.decode text) - (16 + 64))) as n.
        assert (Hn : n < 4) by lia.
        destruct n as [|[|[|[|n]]]]; try reflexivity; lia. }
      rewrite Htag. exists InvalidAuthTagLength. split; [reflexivity | discriminate]. }
  split; [|exact Hgoal].
  destruct Hgoal as (err & E & _).
  unfold EncryptionService.validateToken. now rewrite E.
Qed.

Lemma decrypt_refuses_short_text_witness :
  EncryptionService.validateToken toy_platform Example.service "not-an-envelope"
  = false
  /\ exists err,
       EncryptionService.decrypt toy_platform Example.service "not-an-envelope"
       = Err (EncryptionService.CryptoError err)
       /\ err <> UnableToAuthenticate.
Proof.
  apply (decrypt_refuses_short_text toy_platform Example.service "not-an-envelope").
  vm_compute. lia.
Defined.

(** ** Admin authorisation *)

(** X4. Each of the four admin routes answers 401 "Unauthorized" exactly
    when the [x-admin-key] header differs from [ADMIN_KEY].  The two are
    compared as they are: when [ADMIN_KEY] is not set, a request without
    the header is let through. *)
Theorem admin_routes_unauthorized
    (C : Platform) (srv : server) (adminKey : option string)
    (assessmentId : uuid) (leaderToken : string) (d : database) :
  let denied := negb (option_string_eqb adminKey (ADMIN_KEY srv)) in
  (admin_assessments C srv adminKey d = AdminError 401 "Unauthorized"
     <-> denied = true)
  /\ (admin_assessment C srv adminKey assessmentId d
        = AdminError 401 "Unauthorized" <-> denied = true)
  /\ (admin_statistics C srv adminKey d = AdminError 401 "Unauthorized"
        <-> denied = true)
  /\ (admin_leader_assessments C srv adminKey leaderToken d
        = AdminError 401 "Unauthorized" <-> denied = true)
  /\ (ADMIN_KEY srv = None -> adminAuth srv None = Next tt).
Proof.
  intros denied. subst denied.
  unfold admin_assessments, admin_assessment, admin_statistics,
    admin_leader_assessments, adminAuth.
  destruct (negb (option_string_eqb adminKey (ADMIN_KEY srv))) eqn:E.
  - repeat split; try reflexivity. intros ->. reflexivity.
  - split; [split; [discriminate | discriminate]|].
    split; [split; [|discriminate]|].
    { destruct (filter _ _); discriminate. }
    split; [split; [|discriminate]|].
    { destruct (assessment_stats_query d); [|discriminate].
      destruct (response_stats_query C d); discriminate. }
    split; [split; [|discriminate]|].
    { destruct (EncryptionService.decrypt _ _ _); [|discriminate].
      destruct (createLeaderHash _ _); [|discriminate].
      destruct (joined_rows _ _); discriminate. }
    intros ->. reflexivity.
Qed.

(** ** Starting an assessment *)

(** The two ways in which the start route ends. *)
Lemma start_cases (C : Platform) (srv : server) (now : timestamp)
    (req : start_request) (w : world) :
  (exists status error w',
      assessment_start C srv now req w = (StartError status error, w')
      /\ db w' = db w)
  \/ (exists l r label ro members leaderData h,
        body_encrypted_leader_identifier req = Some l
        /\ body_encrypted_rater_identifier req = Some r
        /\ validateToken C srv (start_token req) = Next (JObj members)
        /\ Json.get_property "role" members = Some (JStr label)
        /\ assessment_role_in label = Some ro
        /\ EncryptionService.decrypt C (encryption srv) l = Ok leaderData
        /\ createLeaderHash C leaderData = Some h
        /\ ~ In (uuid_counter w) (map id (assessments (db w)))
        /\ ~ In r (map encrypted_rater_identifier (assessments (db w)))
        /\ assessment_start C srv now req w
           = (Started (uuid_counter w),
              {| db := {| assessments :=
                            assessments (db w)
                            ++ [{| id := uuid_counter w;
                                   encrypted_leader_identifier := l;
                                   encrypted_rater_identifier := r;
                                   leader_hash := h;
                                   role := ro;
                                   created_at := now;
                                   updated_at := now;
                                   completed_at := None |}];
                          assessment_responses := assessment_responses (db w) |};
                 uuid_counter := S (uuid_counter w);
                 rng := rng w |})).
Proof.
  unfold assessment_start.
  destruct w as [d counter e]. cbn [db uuid_counter rng].
  destruct (validateToken C srv (start_token req)) as [status error|payload] eqn:Egate;
    [left; do 3 eexists; split; reflexivity|].
  destruct (token_role payload) as [role_text|] eqn:Erole; [|left; do 3 eexists; split; reflexivity].
  destruct (body_encrypted_leader_identifier req) as [l|]; [|left; do 3 eexists; split; reflexivity].
  destruct (EncryptionService.decrypt C (encryption srv) l) as [leaderData|] eqn:Ed;
    [|left; do 3 eexists; split; reflexivity].
  destruct (createLeaderHash C leaderData) as [h|] eqn:Eh; [|left; do 3 eexists; split; reflexivity].
  unfold insert_assessment.
  destruct (body_encrypted_rater_identifier req) as [r|]; [|left; do 3 eexists; split; reflexivity].
  destruct role_text as [label|]; [|left; do 3 eexists; split; reflexivity].
  destruct (assessment_role_in label) as [ro|] eqn:Ero; [|left; do 3 eexists; split; reflexivity].
  destruct (existsb (fun a => id a =? counter) (assessments d)) eqn:Eid;
    [left; do 3 eexists; split; reflexivity|].
  destruct (existsb (fun a => String.eqb (encrypted_rater_identifier a) r)
              (assessments d)) eqn:Er; [left; do 3 eexists; split; reflexivity|].
  right. cbn [orb].
  assert (Hmembers : exists members,
    payload = JObj members /\ Json.get_property "role" members = Some (JStr label)).
  { unfold token_role in Erole.
    destruct payload as [| | | | |members]; try discriminate.
    exists members. split; [reflexivity|].
    destruct (Json.get_property "role" members) as [[| | |s| |]|]; try discriminate.
    now injection Erole as ->. }
  destruct Hmembers as (members & -> & Hrole).
  exists l, r, label, ro, members, leaderData, h.
  repeat split; try assumption; try reflexivity.
  - intros Hin. apply in_map_iff in Hin. destruct Hin as (a & Ha & Hin).
    assert (H : existsb (fun a => id a =? counter) (assessments d) = true).
    { apply existsb_exists. exists a. split; [exact Hin | now apply Nat.eqb_eq]. }
    congruence.
  - intros Hin. apply in_map_iff in Hin. destruct Hin as (a & Ha & Hin).
    assert (H : existsb (fun a => String.eqb (encrypted_rater_identifier a) r)
                  (assessments d) = true).
    { apply existsb_exists. exists a. split; [exact Hin | now apply String.eqb_eq]. }
    congruence.
Qed.

(** X5. The start route either answers an error and leaves both tables
    as they were, or stores exactly one new assessment after the
    existing ones and answers its identifier.  The new assessment is not
    completed, carries the two ciphertexts of the request as they were
    sent, the role named in the decrypted rater token, which is one of
    the four labels of the enumeration, and the fingerprint of the
    decrypted leader token.  No response is written. *)
Theorem start_outcome (C : Platform) (srv : server) (now : timestamp)
    (req : start_request) (w : world) :
  let answer := fst (assessment_start C srv now req w) in
  let w' := snd (assessment_start C srv now req w) in
  assessment_responses (db w') = assessment_responses (db w)
  /\ match answer with
     | StartError _ _ => assessments (db w') = assessments (db w)
     | Started i =>
         exists a label members leaderData,
           assessments (db w') = assessments (db w) ++ [a]
           /\ id a = i
           /\ ~ In i (map id (assessments (db w)))
           /\ completed_at a = None
           /\ created_at a = now
           /\ Some (encrypted_leader_identifier a)
              = body_encrypted_leader_identifier req
           /\ Some (encrypted_rater_identifier a)
              = body_encrypted_rater_identifier req
           /\ validateToken C srv (start_token req) = Next (JObj members)
           /\ Json.get_property "role" members = Some (JStr label)
           /\ assessment_role_in label = Some (role a)
           /\ EncryptionService.decrypt C (encryption srv)
                (encrypted_leader_identifier a) = Ok leaderData
           /\ createLeaderHash C leaderData = Some (leader_hash a)
     end.
Proof.
  destruct (start_cases C srv now req w)
    as [(status & error & w1 & E & Hdb)
       |(l & r & label & ro & members & leaderData & h & Hl & Hr & Hgate
         & Hrole & Hro & Hdec & Hh & Hfresh & _ & E)];
    rewrite E; cbn [fst snd db assessments assessment_responses].
  - rewrite Hdb. split; reflexivity.
  - split; [reflexivity|].
    eexists. exists label, members, leaderData.
    split; [reflexivity|].
    cbn [id completed_at created_at encrypted_leader_identifier
         encrypted_rater_identifier role leader_hash].
    repeat split; try assumption; try reflexivity; now symmetry.
Qed.

(** ** The submit route on requests as they arrive *)

Lemma existsb_all_false {A : Type} (p : A -> bool) (l : list A) :
  (forall x, In x l -> p x = false) -> existsb p l = false.
Proof.
  induction l as [|x l IH]; intros H; [reflexivity|]. simpl.
  rewrite (H x) by now left. apply IH. intros y Hy. apply H. now right.
Qed.

Lemma url_safe_not_nul (c : ascii) :
  url_safe c -> (N_of_ascii c =? 0)%N = false.
Proof.
  unfold url_safe. cbn [Base64.alphabet_url list_ascii_of_string].
  intros H. repeat (destruct H as [<-|H]; [reflexivity|]). destruct H.
Qed.

(** An envelope is a text the database accepts. *)
Lemma encrypt_no_nul (C : Platform) (this : EncryptionService.t) (v : json)
    (e e' : entropy) (token : string) :
  EncryptionService.encrypt C this v e = (Ok token, e') -> has_nul token = false.
Proof.
  unfold EncryptionService.encrypt.
  destruct (randomBytes _ e) as [iv e1]. destruct (randomBytes _ e1) as [salt e2].
  destruct (check_gcm_args _ _); [discriminate|]. intros [= <- _].
  unfold has_nul. apply existsb_all_false. intros c Hc.
  pose proof (encode_url_safe
                (iv ++ salt
                 ++ snd (gcm_seal C (EncryptionService.key this) iv
                           (utf8_encode (Json.stringify v)))
                 ++ fst (gcm_seal C (EncryptionService.key this) iv
                           (utf8_encode (Json.stringify v))))) as Hsafe.
  rewrite Forall_forall in Hsafe. now apply url_safe_not_nul, Hsafe.
Qed.

(** On a request whose identifier is the text of a uuid and whose texts
    the database accepts, the loop is the loop on bound parameters. *)
Lemma insert_entries_bound (C : Platform) (srv : server) (now : timestamp)
    (text : string) (aid : uuid) (entries : list response_entry) :
  uuid_in C text = Some aid -> Forall storable entries ->
  forall w,
    insert_entries C srv now (Some text) entries w
    = insert_responses C srv now aid entries w.
Proof.
  intros Hid Hall. induction Hall as [|entry rest [Hq Hv] _ IH]; intros w;
    [reflexivity|].
  cbn [insert_entries insert_responses].
  destruct (if startsWith (questionId entry) "open_"
            then EncryptionService.encrypt C (encryption srv)
                   (JStr (entry_response entry)) (rng w)
            else (Ok (entry_response entry), rng w))
    as [[value|err] e1] eqn:Evalue; [|reflexivity].
  assert (Hvalue : has_nul value = false).
  { destruct (startsWith (questionId entry) "open_").
    - exact (encrypt_no_nul _ _ _ _ _ _ Evalue).
    - injection Evalue as <- _. destruct Hv as [Hv|Hv]; [discriminate | exact Hv]. }
  unfold bind_response, uuid_parameter. rewrite Hid, Hq, Hvalue.
  cbn [orb insert_response_bound].
  destruct (insert_response now aid (questionId entry) value (db w)
              (uuid_counter w)); [apply IH | reflexivity].
Qed.

(** The loop succeeds only on such a request, or on no entry at all. *)
Lemma insert_entries_ok (C : Platform) (srv : server) (now : timestamp)
    (assessmentId : option string) (entries : list response_entry) :
  forall w w',
    insert_entries C srv now assessmentId entries w = (Ok tt, w') ->
    entries = []
    \/ (Forall storable entries
        /\ exists text aid, assessmentId = Some text /\ uuid_in C text = Some aid).
Proof.
  induction entries as [|entry rest IH]; intros w w' H; [now left|]. right.
  cbn [insert_entries] in H.
  destruct (if startsWith (questionId entry) "open_"
            then EncryptionService.encrypt C (encryption srv)
                   (JStr (entry_response entry)) (rng w)
            else (Ok (entry_response entry), rng w))
    as [[value|err] e1] eqn:Evalue; [|discriminate].
  unfold bind_response, uuid_parameter in H.
  destruct assessmentId as [text|].
  - destruct (uuid_in C text) as [aid|] eqn:Eid; [|discriminate].
    destruct (has_nul (questionId entry)) eqn:Hq; [discriminate|].
    destruct (has_nul value) eqn:Hv; [discriminate|].
    cbn [orb insert_response_bound] in H.
    destruct (insert_response now aid (questionId entry) value (db w)
                (uuid_counter w)) as [d|err]; [|discriminate].
    split; [|now exists text, aid]. constructor.
    + split; [exact Hq|].
      destruct (startsWith (questionId entry) "open_"); [now left|].
      right. now injection Evalue as <- _.
    + destruct (IH _ _ H) as [->|[Hrest _]]; [constructor | exact Hrest].
  - destruct (has_nul (questionId entry) || has_nul value); [discriminate|].
    cbn [insert_response_bound] in H. discriminate.
Qed.

(** The route on a request as it arrives is the route on bound
    parameters when the identifier is the text of a uuid and the
    database accepts the texts. *)
Lemma submit_route_bound (C : Platform) (srv : server) (now : timestamp)
    (token : option string) (text : string) (aid : uuid)
    (entries : list response_entry) (w : world) :
  uuid_in C text = Some aid -> Forall storable entries ->
  submit_route C srv now
    {| body_token := token; body_assessmentId := Some text;
       body_responses := entries |} w
  = assessment_submit C srv now
      {| submit_token := token; assessmentId := aid; responses := entries |} w.
Proof.
  intros Hid Hall. unfold submit_route, assessment_submit, uuid_parameter.
  cbn [body_token body_assessmentId body_responses submit_token assessmentId
       responses].
  destruct (validateToken C srv token); [reflexivity|].
  rewrite Hid. cbn [update_completed_where].
  now rewrite (insert_entries_bound C srv now text aid entries Hid Hall).
Qed.

(** A request as it arrives leaves the tables as they were, or is a
    request on bound parameters. *)
Lemma submit_route_cases (C : Platform) (srv : server) (now : timestamp)
    (req : submit_body) (w : world) :
  db (snd (submit_route C srv now req w)) = db w
  \/ exists text aid,
       body_assessmentId req = Some text /\ uuid_in C text = Some aid
       /\ Forall storable (body_responses req)
       /\ submit_route C srv now req w
          = assessment_submit C srv now
              {| submit_token := body_token req; assessmentId := aid;
                 responses := body_responses req |} w.
Proof.
  destruct req as [token oid entries]. unfold submit_route.
  cbn [body_token body_assessmentId body_responses].
  destruct (validateToken C srv token) eqn:Etoken; [now left|].
  unfold uuid_parameter. destruct oid as [text|].
  - destruct (uuid_in C text) as [aid|] eqn:Eid; [|now left].
    destruct (insert_entries C srv now (Some text) entries _)
      as [[[]|err] w1] eqn:E; [|now left]. right.
    assert (Hall : Forall storable entries).
    { destruct (insert_entries_ok _ _ _ _ _ _ _ E) as [->|[Hall _]];
        [constructor | exact Hall]. }
    exists text, aid. repeat split; try assumption.
    rewrite <- (submit_route_bound C srv now token text aid entries w Eid Hall).
    unfold submit_route, uuid_parameter.
    cbn [body_token body_assessmentId body_responses].
    now rewrite Etoken, Eid, E.
  - left. cbn [update_completed_where].
    destruct (insert_entries C srv now None entries _)
      as [[[]|err] w1] eqn:E; [|reflexivity].
    destruct (insert_entries_ok _ _ _ _ _ _ _ E) as [->|(_ & t & a & Ht & _)];
      [|discriminate].
    cbn [insert_entries] in E. now injection E as <-.
Qed.

(** ** The rater ciphertext is a key *)

Lemma start_keeps_raters (C : Platform) (srv : server) (now : timestamp)
    (req : start_request) (w : world) (r : string) :
  In r (map encrypted_rater_identifier (assessments (db w))) ->
  In r (map encrypted_rater_identifier
          (assessments (db (snd (assessment_start C srv now req w))))).
Proof.
  intros Hr.
  destruct (start_cases C srv now req w)
    as [(status & error & w' & E & Hdb)
       |(l & r' & label & ro & members & leaderData & h & _ & _ & _ & _ & _
         & _ & _ & _ & _ & E)];
    rewrite E; cbn [snd db assessments]; [now rewrite Hdb|].
  rewrite map_app. apply in_or_app. now left.
Qed.

Lemma assessment_submit_keeps_raters (C : Platform) (srv : server)
    (now : timestamp) (req : submit_request) (w : world) :
  map encrypted_rater_identifier
    (assessments (db (snd (assessment_submit C srv now req w))))
  = map encrypted_rater_identifier (assessments (db w)).
Proof.
  unfold assessment_submit.
  destruct (validateToken C srv (submit_token req)); [reflexivity|].
  destruct (insert_responses C srv now (assessmentId req) (responses req) _)
    as [[[]|err] w1] eqn:E; [|reflexivity].
  destruct (insert_responses_ok _ _ _ _ _ _ _ E) as (Ha & _).
  cbn [snd db] in *. rewrite Ha. cbn [update_completed assessments].
  rewrite map_map. apply map_ext. intros a.
  now destruct (id a =? assessmentId req).
Qed.

Lemma later_keeps_raters (C : Platform) (srv : server) (w w' : world)
    (r : string) :
  later C srv w w' ->
  In r (map encrypted_rater_identifier (assessments (db w))) ->
  In r (map encrypted_rater_identifier (assessments (db w'))).
Proof.
  intros Hlater Hr. induction Hlater as [|now req w' _ IH|now req w' _ IH].
  - exact Hr.
  - now apply start_keeps_raters.
  - destruct (submit_route_cases C srv now req w')
      as [Hdb|(text & aid & _ & _ & _ & E)].
    + now rewrite Hdb.
    + rewrite E, assessment_submit_keeps_raters. exact IH.
Qed.

(** X6. One assessment per rater ciphertext: once an assessment was
    started with a rater ciphertext, every start request that carries
    the same ciphertext, after whatever start and submit requests were
    served in between, is answered with an error, 500 when its token is
    accepted, and stores nothing. *)
Theorem start_twice_refused (C : Platform) (srv : server)
    (now1 now2 : timestamp) (req1 req2 : start_request) (w w1 w2 : world)
    (i : uuid) :
  assessment_start C srv now1 req1 w = (Started i, w1) ->
  later C srv w1 w2 ->
  body_encrypted_rater_identifier req2 = body_encrypted_rater_identifier req1 ->
  fst (assessment_start C srv now2 req2 w2)
  = match validateToken C srv (start_token req2) with
    | Respond status error => StartError status error
    | Next _ => StartError 500 INTERNAL_ERROR
    end
  /\ db (snd (assessment_start C srv now2 req2 w2)) = db w2.
Proof.
  intros Hfirst Hlater Hsame.
  destruct (start_cases C srv now1 req1 w)
    as [(status & error & w' & E & _)
       |(l & r & label & ro & members & leaderData & h & _ & Hr & _ & _ & _
         & _ & _ & _ & _ & E)];
    rewrite E in Hfirst; [discriminate|].
  injection Hfirst as _ <-.
  assert (Hstored : In r (map encrypted_rater_identifier (assessments (db w2)))).
  { apply (later_keeps_raters C srv _ w2 r Hlater). cbn [db assessments].
    rewrite map_app. apply in_or_app. right. now left. }
  rewrite Hr in Hsame.
  destruct (start_cases C srv now2 req2 w2)
    as [(status & error & w' & E2 & Hdb)
       |(l2 & r2 & label2 & ro2 & members2 & leaderData2 & h2 & _ & Hr2 & _ & _
         & _ & _ & _ & _ & Hnew & _)].
  - rewrite E2. cbn [fst snd]. split; [|exact Hdb].
    unfold assessment_start in E2.
    destruct (validateToken C srv (start_token req2)) as [s0 e0|payload].
    + now injection E2 as <- <- _.
    + destruct (token_role payload); [|now injection E2 as <- <- _].
      destruct (body_encrypted_leader_identifier req2);
        [|now injection E2 as <- <- _].
      destruct (EncryptionService.decrypt _ _ _); [|now injection E2 as <- <- _].
      destruct (createLeaderHash _ _); [|now injection E2 as <- <- _].
      destruct (insert_assessment _ _ _ _ _ _ _); [discriminate|].
      now injection E2 as <- <- _.
  - exfalso. apply Hnew. congruence.
Qed.

Lemma start_twice_refused_witness :
  fst (assessment_start toy_platform Example.srv 30%Z Example.start1
         Example.world4)
  = match validateToken toy_platform Example.srv (start_token Example.start1) with
    | Respond status error => StartError status error
    | Next _ => StartError 500 INTERNAL_ERROR
    end
  /\ db (snd (assessment_start toy_platform Example.srv 30%Z Example.start1
                Example.world4))
     = db Example.world4.
Proof.
  apply (start_twice_refused toy_platform Example.srv 10%Z 30%Z
           Example.start1 Example.start1
           Example.empty_world Example.world1 Example.world4 1).
  - vm_compute. reflexivity.
  - apply later_submit, later_start, later_now.
  - reflexivity.
Defined.

(** ** Invariants of the tables *)

Lemma NoDup_snoc {A : Type} (l : list A) (x : A) :
  NoDup l -> ~ In x l -> NoDup (l ++ [x]).
Proof.
  intros Hnd Hin. apply NoDup_app; [exact Hnd | repeat constructor; easy |].
  intros y Hy [<-|[]]. contradiction.
Qed.

Lemma existsb_none {A : Type} (p : A -> bool) (l : list A) :
  existsb p l = false -> forall x, In x l -> p x = false.
Proof.
  intros H x Hx. destruct (p x) eqn:E; [|reflexivity].
  assert (existsb p l = true) by (apply existsb_exists; eauto). congruence.
Qed.

Lemma update_completed_consistent (now : timestamp) (aid : uuid) (d : database) :
  consistent d -> consistent (update_completed now aid d).
Proof.
  intros [H1 H2 H3 H4 H5].
  assert (Hid : map id (assessments (update_completed now aid d))
                = map id (assessments d)).
  { unfold update_completed. cbn [assessments]. rewrite map_map.
    apply map_ext. intros a. now destruct (id a =? aid). }
  assert (Hr : map encrypted_rater_identifier
                 (assessments (update_completed now aid d))
               = map encrypted_rater_identifier (assessments d)).
  { unfold update_completed. cbn [assessments]. rewrite map_map.
    apply map_ext. intros a. now destruct (id a =? aid). }
  constructor; rewrite ?Hid, ?Hr; assumption.
Qed.

Lemma insert_response_consistent (now : timestamp) (aid : uuid)
    (q value : string) (d d' : database) (fresh : uuid) :
  consistent d -> insert_response now aid q value d fresh = Ok d' ->
  consistent d'.
Proof.
  intros [H1 H2 H3 H4 H5]. unfold insert_response.
  destruct (existsb (fun a => id a =? aid) (assessments d)) eqn:Efk;
    cbn [negb]; [|discriminate].
  destruct (existsb (fun r => response_id r =? fresh) (assessment_responses d))
    eqn:Eid; cbn [orb]; [discriminate|].
  destruct (existsb (fun r => (assessment_id r =? aid)
                              && String.eqb (question_id r) q)
              (assessment_responses d)) eqn:Euq; [discriminate|].
  intros [= <-]. constructor; cbn [assessments assessment_responses];
    try assumption.
  - rewrite map_app. apply NoDup_snoc; [exact H3|]. cbn [map response_id].
    intros Hin. apply in_map_iff in Hin. destruct Hin as (r & Hr & Hin).
    pose proof (existsb_none _ _ Eid r Hin) as Hf. cbn beta in Hf.
    apply Nat.eqb_neq in Hf. contradiction.
  - rewrite map_app. apply NoDup_snoc; [exact H4|].
    cbn [map response_key assessment_id question_id].
    intros Hin. apply in_map_iff in Hin. destruct Hin as (r & Hr & Hin).
    pose proof (existsb_none _ _ Euq r Hin) as Hf. cbn beta in Hf.
    unfold response_key in Hr. injection Hr as Ha Hq.
    rewrite Ha, Hq, Nat.eqb_refl, String.eqb_refl in Hf. discriminate.
  - intros r Hin. apply in_app_or in Hin. destruct Hin as [Hin|[<-|[]]].
    + now apply H5.
    + cbn [assessment_id]. apply existsb_exists in Efk.
      destruct Efk as (a & Ha & Heq). apply Nat.eqb_eq in Heq. subst aid.
      now apply in_map.
Qed.

Lemma insert_responses_consistent (C : Platform) (srv : server)
    (now : timestamp) (aid : uuid) (entries : list response_entry) :
  forall w, consistent (db w) ->
    consistent (db (snd (insert_responses C srv now aid entries w))).
Proof.
  induction entries as [|entry rest IH]; intros w Hw; [exact Hw|].
  cbn [insert_responses].
  destruct (if startsWith (questionId entry) "open_"
            then EncryptionService.encrypt C (encryption srv)
                   (JStr (entry_response entry)) (rng w)
            else (Ok (entry_response entry), rng w)) as [[value|err] e1];
    [|exact Hw].
  destruct (insert_response now aid (questionId entry) value (db w)
              (uuid_counter w)) as [d|err] eqn:Eins; [|exact Hw].
  apply IH. cbn [db]. exact (insert_response_consistent _ _ _ _ _ _ _ Hw Eins).
Qed.

Lemma start_keeps_constraints (C : Platform) (srv : server) (now : timestamp)
    (req : start_request) (w : world) :
  consistent (db w) ->
  consistent (db (snd (assessment_start C srv now req w))).
Proof.
  intros Hw.
  destruct (start_cases C srv now req w)
    as [(status & error & w' & E & Hdb)
       |(l & r & label & ro & members & leaderData & h & _ & _ & _ & _ & _
         & _ & _ & Hid & Hrater & E)];
    rewrite E; cbn [snd db]; [now rewrite Hdb|].
  destruct Hw as [H1 H2 H3 H4 H5].
  constructor; cbn [assessments assessment_responses]; try assumption.
  - rewrite map_app. now apply NoDup_snoc.
  - rewrite map_app. now apply NoDup_snoc.
  - intros x Hx. rewrite map_app. apply in_or_app. left. now apply H5.
Qed.

Lemma assessment_submit_keeps_constraints (C : Platform) (srv : server)
    (now : timestamp) (req : submit_request) (w : world) :
  consistent (db w) ->
  consistent (db (snd (assessment_submit C srv now req w))).
Proof.
  intros Hw. unfold assessment_submit.
  destruct (validateToken C srv (submit_token req)); [exact Hw|].
  pose proof (insert_responses_consistent C srv now (assessmentId req)
                (responses req)
                {| db := update_completed now (assessmentId req) (db w);
                   uuid_counter := uuid_counter w; rng := rng w |}
                (update_completed_consistent _ _ _ Hw)) as Hafter.
  destruct (insert_responses C srv now (assessmentId req)
              (responses req) _) as [[[]|err] w1]; [exact Hafter | exact Hw].
Qed.

(** X7. The routes that write keep the constraints of the schema: when
    the tables satisfy the primary keys, the uniqueness of rater
    ciphertexts, the uniqueness of the question within an assessment and
    the reference of every response to an existing assessment, they
    still do after any start and submit requests, in any order and
    whatever the answers. *)
Theorem routes_keep_constraints (C : Platform) (srv : server) (w w' : world) :
  consistent (db w) -> later C srv w w' -> consistent (db w').
Proof.
  intros Hw Hlater. induction Hlater as [|now req w' _ IH|now req w' _ IH].
  - exact Hw.
  - now apply start_keeps_constraints.
  - destruct (submit_route_cases C srv now req w')
      as [Hdb|(text & aid & _ & _ & _ & E)].
    + now rewrite Hdb.
    + rewrite E. now apply assessment_submit_keeps_constraints.
Qed.

Lemma routes_keep_constraints_witness : consistent (db Example.world5).
Proof.
  apply (routes_keep_constraints toy_platform Example.srv Example.world2).
  - constructor; vm_compute.
    + repeat constructor; simpl; intuition discriminate.
    + repeat constructor; simpl; intuition discriminate.
    + constructor.
    + constructor.
    + intros r [].
  - apply later_start, later_submit, later_now.
Defined.

Lemma start_keeps_hashes (C : Platform) (srv : server) (now : timestamp)
    (req : start_request) (w : world) :
  hashes_match C srv (db w) ->
  hashes_match C srv (db (snd (assessment_start C srv now req w))).
Proof.
  intros Hw.
  destruct (start_cases C srv now req w)
    as [(status & error & w' & E & Hdb)
       |(l & r & label & ro & members & leaderData & h & _ & _ & _ & _ & _
         & Hdec & Hh & _ & _ & E)];
    rewrite E; cbn [snd db]; [now rewrite Hdb|].
  intros a Ha. cbn [assessments] in Ha. apply in_app_or in Ha.
  destruct Ha as [Ha|[<-|[]]]; [now apply Hw|].
  exists leaderData. now split.
Qed.

Lemma assessment_submit_keeps_hashes (C : Platform) (srv : server)
    (now : timestamp) (req : submit_request) (w : world) :
  hashes_match C srv (db w) ->
  hashes_match C srv (db (snd (assessment_submit C srv now req w))).
Proof.
  intros Hw.
  assert (Hupd : hashes_match C srv
                   (update_completed now (assessmentId req) (db w))).
  { intros a Ha. unfold update_completed in Ha. cbn [assessments] in Ha.
    apply in_map_iff in Ha. destruct Ha as (a0 & <- & Ha0).
    destruct (Hw a0 Ha0) as (leaderData & Hd & Hh).
    exists leaderData. now destruct (id a0 =? assessmentId req). }
  unfold assessment_submit.
  destruct (validateToken C srv (submit_token req)); [exact Hw|].
  destruct (insert_responses C srv now (assessmentId req)
              (responses req) _) as [[[]|err] w1] eqn:E; [|exact Hw].
  destruct (insert_responses_ok _ _ _ _ _ _ _ E) as (Ha & _).
  cbn [snd db] in *. intros a Hin. rewrite Ha in Hin. now apply Hupd.
Qed.

(** X8. The blind index stays in step with the ciphertext: when every
    stored [leader_hash] is the fingerprint of what the stored leader
    ciphertext decrypts to, this is still so after any start and submit
    requests. *)
Theorem routes_keep_hashes (C : Platform) (srv : server) (w w' : world) :
  hashes_match C srv (db w) -> later C srv w w' ->
  hashes_match C srv (db w').
Proof.
  intros Hw Hlater. induction Hlater as [|now req w' _ IH|now req w' _ IH].
  - exact Hw.
  - now apply start_keeps_hashes.
  - destruct (submit_route_cases C srv now req w')
      as [Hdb|(text & aid & _ & _ & _ & E)].
    + now rewrite Hdb.
    + rewrite E. now apply assessment_submit_keeps_hashes.
Qed.

Lemma routes_keep_hashes_witness :
  hashes_match toy_platform Example.srv (db Example.world5).
Proof.
  apply (routes_keep_hashes toy_platform Example.srv Example.world2).
  - intros a Ha. vm_compute in Ha.
    destruct Ha as [<-|[<-|[]]]; eexists; split; vm_compute; reflexivity.
  - apply later_start, later_submit, later_now.
Defined.

(** ** The read routes in full *)

Lemma sorted_by_leb {A : Type} (le : A -> A -> bool) (l : list A) :
  (forall a b, le a b = true \/ le b a = true) ->
  (forall a b c, le a b = true -> le b c = true -> le a c = true) ->
  StronglySorted (fun a b => le a b = true) (sort_by le l).
Proof. intros Htotal Htrans. now apply sort_by_sorted. Qed.

Lemma process_detail_shown (C : Platform) (srv : server) (r : assessment_response) :
  detail_shown (process_detail C srv r) = response_shown C srv r.
Proof.
  unfold process_detail, response_shown. cbn [detail_shown].
  now rewrite open_question_not_empty.
Qed.

Lemma newest_first_sorted (l : list assessment) :
  StronglySorted (fun a b => (created_at b <= created_at a)%Z)
    (sort_by newest_first l).
Proof.
  pose proof (sort_by_sorted newest_first newest_first_total
                newest_first_trans l) as Hsorted.
  induction Hsorted as [|a l' _ IH Hall]; constructor; [exact IH|].
  eapply Forall_impl; [|exact Hall]. intros b Hb. now apply Z.leb_le.
Qed.

(** The detail route once its parameter is bound. *)
Lemma admin_assessment_answers (C : Platform) (srv : server)
    (adminKey : option string) (aid : uuid) (d : database) :
  collation_lawful C ->
  adminAuth srv adminKey = Next tt ->
  match admin_assessment C srv adminKey aid d with
  | AdminError status error =>
      status = 404 /\ error = "Assessment not found"%string
      /\ ~ In aid (map id (assessments d))
  | AdminOk detail =>
      In (detail_assessment detail) (assessments d)
      /\ id (detail_assessment detail) = aid
      /\ Permutation (map detail_row (detail_responses detail))
           (filter (fun r => assessment_id r =? aid) (assessment_responses d))
      /\ StronglySorted
           (fun a b => collate_le C (question_id a) (question_id b) = true)
           (map detail_row (detail_responses detail))
      /\ Forall (fun s => detail_shown s = response_shown C srv (detail_row s))
           (detail_responses detail)
  end.
Proof.
  intros [Htotal Htrans] Hauth. unfold admin_assessment. rewrite Hauth.
  destruct (filter (fun a => id a =? aid) (assessments d)) as [|a others] eqn:E.
  - repeat split. intros Hin. apply in_map_iff in Hin.
    destruct Hin as (a & Ha & Hin).
    assert (H : In a (filter (fun a => id a =? aid) (assessments d))).
    { apply filter_In. split; [exact Hin | now apply Nat.eqb_eq]. }
    rewrite E in H. destruct H.
  - assert (Ha : In a (filter (fun a => id a =? aid) (assessments d)))
      by (rewrite E; now left).
    apply filter_In in Ha. destruct Ha as [Hin Hid]. apply Nat.eqb_eq in Hid.
    cbn [detail_assessment detail_responses].
    assert (Hrows : map detail_row
              (map (process_detail C srv)
                 (sort_by (by_question_id C)
                    (filter (fun r => assessment_id r =? aid)
                            (assessment_responses d))))
            = sort_by (by_question_id C)
                (filter (fun r => assessment_id r =? aid)
                        (assessment_responses d))).
    { rewrite map_map. cbn [process_detail detail_row]. apply map_id. }
    rewrite Hrows. repeat split; try assumption.
    + apply sort_by_perm.
    + apply (sorted_by_leb (by_question_id C)).
      * intros x y. apply Htotal.
      * intros x y z. apply Htrans.
    + apply Forall_forall. intros s Hs. apply in_map_iff in Hs.
      destruct Hs as (r & <- & _). apply process_detail_shown.
Qed.

Lemma toy_collation_lawful : collation_lawful toy_platform.
Proof.
  split; [exact String.leb_total | exact string_leb_trans].
Qed.

(** X9. For an authorised caller the detail route answers 500 exactly
    when the path parameter is not the text of a uuid, and 404 exactly
    when it is the text of a uuid that no assessment has.  Otherwise it
    answers an assessment with that identifier together with all
    responses stored for it and no others, in the order of the
    database's collation on the question, each shown as the listing
    shows it: a rating as stored, an open-ended answer decrypted or
    replaced by the marker. *)
Theorem detail_route_answers (C : Platform) (srv : server)
    (adminKey : option string) (id_text : string) (d : database) :
  collation_lawful C ->
  adminAuth srv adminKey = Next tt ->
  match assessment_route C srv adminKey id_text d with
  | AdminError status error =>
      (status = 500 /\ error = INTERNAL_ERROR /\ uuid_in C id_text = None)
      \/ (status = 404 /\ error = "Assessment not found"%string
          /\ exists aid, uuid_in C id_text = Some aid
                         /\ ~ In aid (map id (assessments d)))
  | AdminOk detail =>
      exists aid,
        uuid_in C id_text = Some aid
        /\ In (detail_assessment detail) (assessments d)
        /\ id (detail_assessment detail) = aid
        /\ Permutation (map detail_row (detail_responses detail))
             (filter (fun r => assessment_id r =? aid) (assessment_responses d))
        /\ StronglySorted
             (fun a b => collate_le C (question_id a) (question_id b) = true)
             (map detail_row (detail_responses detail))
        /\ Forall (fun s => detail_shown s = response_shown C srv (detail_row s))
             (detail_responses detail)
  end.
Proof.
  intros Hcoll Hauth. unfold assessment_route. rewrite Hauth.
  destruct (uuid_in C id_text) as [aid|]; [|left; repeat split].
  pose proof (admin_assessment_answers C srv adminKey aid d Hcoll Hauth) as H.
  destruct (admin_assessment C srv adminKey aid d) as [status error|detail].
  - right. destruct H as (-> & -> & Hnot). repeat split. now exists aid.
  - exists aid. split; [reflexivity | exact H].
Qed.

Lemma detail_route_answers_witness :
  match assessment_route toy_platform Example.srv Example.admin
          Example.first_id (db Example.world3) with
  | AdminError status error =>
      (status = 500 /\ error = INTERNAL_ERROR
       /\ uuid_in toy_platform Example.first_id = None)
      \/ (status = 404 /\ error = "Assessment not found"%string
          /\ exists aid, uuid_in toy_platform Example.first_id = Some aid
                         /\ ~ In aid (map id (assessments (db Example.world3))))
  | AdminOk detail =>
      exists aid,
        uuid_in toy_platform Example.first_id = Some aid
        /\ In (detail_assessment detail) (assessments (db Example.world3))
        /\ id (detail_assessment detail) = aid
        /\ Permutation (map detail_row (detail_responses detail))
             (filter (fun r => assessment_id r =? aid)
                     (assessment_responses (db Example.world3)))
        /\ StronglySorted
             (fun a b => collate_le toy_platform (question_id a) (question_id b)
                         = true)
             (map detail_row (detail_responses detail))
        /\ Forall (fun s => detail_shown s
                            = response_shown toy_platform Example.srv (detail_row s))
             (detail_responses detail)
  end.
Proof.
  apply (detail_route_answers toy_platform Example.srv Example.admin
           Example.first_id (db Example.world3)).
  - exact toy_collation_lawful.
  - vm_compute. reflexivity.
Defined.

(** X10. For an authorised caller the leader listing answers 500 when
    the token does not decrypt or decrypts to [null]; otherwise, with the
    fingerprint of the decrypted token, it answers 404 when no assessment
    carries that fingerprint, and else the assessments that carry it, all
    of them and no others, newest first, each with its identifiers shown
    as the general listing shows them. *)
Theorem leader_listing_answers (C : Platform) (srv : server)
    (adminKey : option string) (leaderToken : string) (d : database) :
  adminAuth srv adminKey = Next tt ->
  match EncryptionService.decrypt C (encryption srv) leaderToken with
  | Err _ =>
      admin_leader_assessments C srv adminKey leaderToken d
      = AdminError 500 INTERNAL_ERROR
  | Ok leaderData =>
      match createLeaderHash C leaderData with
      | None =>
          leaderData = JNull
          /\ admin_leader_assessments C srv adminKey leaderToken d
             = AdminError 500 INTERNAL_ERROR
      | Some h =>
          match admin_leader_assessments C srv adminKey leaderToken d with
          | AdminError status error =>
              status = 404
              /\ error = "No assessments found for this leader"%string
              /\ forall a, In a (assessments d) -> leader_hash a <> h
          | AdminOk rows =>
              rows <> []
              /\ Permutation (map leader_row rows)
                   (filter (fun a => String.eqb (leader_hash a) h) (assessments d))
              /\ StronglySorted (fun a b => (created_at b <= created_at a)%Z)
                   (map leader_row rows)
              /\ Forall (fun r => (leader_info r, rater_info r)
                                  = decrypt_identifiers C srv (leader_row r))
                   rows
          end
      end
  end.
Proof.
  intros Hauth. unfold admin_leader_assessments. rewrite Hauth.
  destruct (EncryptionService.decrypt C (encryption srv) leaderToken)
    as [leaderData|]; [|reflexivity].
  destruct (createLeaderHash C leaderData) as [h|] eqn:Eh.
  - pose proof (joined_rows_rows (fun a => String.eqb (leader_hash a) h) d)
      as Hrows.
    destruct (joined_rows (fun a => String.eqb (leader_hash a) h) d)
      as [|j js] eqn:E.
    + repeat split. intros a Ha Hh.
      assert (Hin : In a (sort_by newest_first
                (filter (fun a => String.eqb (leader_hash a) h) (assessments d)))).
      { apply sort_by_in. apply filter_In. split; [exact Ha|].
        now apply String.eqb_eq. }
      rewrite <- Hrows in Hin. destruct Hin.
    + split; [discriminate|].
      assert (Hmap : map leader_row (map (transform_leader C srv) (j :: js))
                     = map row (j :: js)).
      { rewrite map_map. reflexivity. }
      rewrite Hmap, Hrows. split; [apply sort_by_perm|]. split.
      * apply newest_first_sorted.
      * apply Forall_forall. intros r Hr. apply in_map_iff in Hr.
        destruct Hr as (x & <- & _). unfold transform_leader.
        cbn [leader_info rater_info leader_row].
        now destruct (decrypt_identifiers C srv (row x)).
  - split; [|reflexivity]. unfold createLeaderHash in Eh.
    destruct leaderData; try discriminate. reflexivity.
Qed.

Lemma leader_listing_answers_witness :
  match EncryptionService.decrypt toy_platform (encryption Example.srv)
          Example.leaderToken2 with
  | Err _ =>
      admin_leader_assessments toy_platform Example.srv Example.admin
        Example.leaderToken2 (db Example.world3)
      = AdminError 500 INTERNAL_ERROR
  | Ok leaderData =>
      match createLeaderHash toy_platform leaderData with
      | None =>
          leaderData = JNull
          /\ admin_leader_assessments toy_platform Example.srv Example.admin
               Example.leaderToken2 (db Example.world3)
             = AdminError 500 INTERNAL_ERROR
      | Some h =>
          match admin_leader_assessments toy_platform Example.srv Example.admin
                  Example.leaderToken2 (db Example.world3) with
          | AdminError status error =>
              status = 404
              /\ error = "No assessments found for this leader"%string
              /\ forall a, In a (assessments (db Example.world3)) ->
                   leader_hash a <> h
          | AdminOk rows =>
              rows <> []
              /\ Permutation (map leader_row rows)
                   (filter (fun a => String.eqb (leader_hash a) h)
                           (assessments (db Example.world3)))
              /\ StronglySorted (fun a b => (created_at b <= created_at a)%Z)
                   (map leader_row rows)
              /\ Forall (fun r => (leader_info r, rater_info r)
                                  = decrypt_identifiers toy_platform Example.srv
                                      (leader_row r))
                   rows
          end
      end
  end.
Proof.
  apply (leader_listing_answers toy_platform Example.srv Example.admin
           Example.leaderToken2 (db Example.world3)).
  vm_compute. reflexivity.
Defined.

Lemma processed_stored (C : Platform) (srv : server)
    (l : list assessment_response) :
  processedResponses C srv
    (map (fun r =>
            Some {| agg_question_id := Some (question_id r);
                    agg_response_text := Some (response r);
                    agg_created_at := Some (response_created_at r) |}) l)
  = map (shown_of C srv) l.
Proof.
  assert (H : forall l : list assessment_response,
    flat_map (fun o : option agg_response =>
                match o with
                | Some r => [process_response C srv r]
                | None => []
                end)
      (map (fun r =>
              Some {| agg_question_id := Some (question_id r);
                      agg_response_text := Some (response r);
                      agg_created_at := Some (response_created_at r) |}) l)
    = map (shown_of C srv) l).
  { clear l. induction l as [|s l IH]; [reflexivity|]. cbn [map flat_map app].
    rewrite IH. f_equal. unfold process_response, shown_of, response_shown.
    cbn [agg_question_id agg_response_text agg_created_at text_or_null].
    now rewrite open_question_not_empty. }
  destruct l as [|s l]; [reflexivity|].
  unfold processedResponses. cbn [map]. exact (H (s :: l)).
Qed.

(** X11. In the general listing the responses of a row are exactly the
    responses stored for its assessment, one shown element for each, in
    an order the query leaves open.  An assessment without stored
    responses is not shown with an empty list: the test for a [null]
    first element never holds for the objects the query builds, and the
    row carries one element whose question, response and time are all
    [null]. *)
Theorem listing_shows_stored_responses (C : Platform) (srv : server)
    (adminKey : option string) (d : database) :
  adminAuth srv adminKey = Next tt ->
  exists rows,
    admin_assessments C srv adminKey d = AdminOk rows
    /\ Forall (fun r =>
                 match filter (fun s => assessment_id s =? id (listed_row r))
                              (assessment_responses d) with
                 | [] => listed_responses r = [no_response]
                 | stored =>
                     Permutation (listed_responses r)
                                 (map (shown_of C srv) stored)
                 end)
         rows.
Proof.
  intros Hauth. unfold admin_assessments. rewrite Hauth.
  eexists. split; [reflexivity|].
  apply Forall_forall. intros r Hr. apply in_map_iff in Hr.
  destruct Hr as (j & <- & Hj). unfold joined_rows in Hj.
  apply in_map_iff in Hj. destruct Hj as (a & <- & _).
  cbn [transform_listed listed_row listed_responses row row_responses].
  destruct (filter (fun s => assessment_id s =? id a) (assessment_responses d))
    as [|s0 stored]; [reflexivity|].
  rewrite (processed_stored C srv (s0 :: stored)). apply Permutation_refl.
Qed.

Lemma listing_shows_stored_responses_witness :
  exists rows,
    admin_assessments toy_platform Example.srv Example.admin (db Example.world3)
    = AdminOk rows
    /\ Forall (fun r =>
                 match filter (fun s => assessment_id s =? id (listed_row r))
                              (assessment_responses (db Example.world3)) with
                 | [] => listed_responses r = [no_response]
                 | stored =>
                     Permutation (listed_responses r)
                                 (map (shown_of toy_platform Example.srv) stored)
                 end)
         rows.
Proof.
  apply (listing_shows_stored_responses toy_platform Example.srv Example.admin
           (db Example.world3)).
  vm_compute. reflexivity.
Defined.

(** ** Submitting again *)

(** X12. An answer that was stored stays as it is: after a successful
    submission, a later submission for the same assessment that names
    one of its questions again is answered with an error, 500 when its
    token is accepted, and changes neither table.  It neither replaces
    the stored answer nor moves [completed_at]. *)
Theorem resubmission_refused (C : Platform) (srv : server)
    (now1 now2 : timestamp) (req1 req2 : submit_request) (w w1 w2 : world)
    (entry : response_entry) :
  assessment_submit C srv now1 req1 w = (Submitted, w1) ->
  (forall r, In r (assessment_responses (db w1)) ->
             In r (assessment_responses (db w2))) ->
  assessmentId req2 = assessmentId req1 ->
  In entry (responses req1) ->
  In (questionId entry) (map questionId (responses req2)) ->
  fst (assessment_submit C srv now2 req2 w2)
  = match validateToken C srv (submit_token req2) with
    | Respond status error => SubmitError status error
    | Next _ => SubmitError 500 INTERNAL_ERROR
    end
  /\ db (snd (assessment_submit C srv now2 req2 w2)) = db w2.
Proof.
  intros Hfirst Hkept Hsame Hentry Hagain.
  unfold assessment_submit in Hfirst.
  destruct (validateToken C srv (submit_token req1)); [discriminate|].
  destruct (insert_responses C srv now1 (assessmentId req1) (responses req1) _)
    as [[[]|err] w'] eqn:E1; [|discriminate].
  injection Hfirst as ->.
  destruct (insert_responses_ok _ _ _ _ _ _ _ E1)
    as (_ & _ & _ & _ & rows & Hrows & Hstored).
  cbn [db] in Hrows.
  destruct (Forall2_in_left _ _ _ Hstored entry Hentry) as (r & Hr & Haid & Hq & _).
  assert (Hin : In r (assessment_responses (db w2))).
  { apply Hkept. rewrite Hrows. apply in_or_app. now right. }
  unfold assessment_submit.
  destruct (validateToken C srv (submit_token req2)); [split; reflexivity|].
  destruct (insert_responses C srv now2 (assessmentId req2) (responses req2) _)
    as [[[]|err] w3] eqn:E2; [|split; reflexivity].
  exfalso.
  destruct (insert_responses_ok _ _ _ _ _ _ _ E2) as (_ & _ & _ & Hclash & _).
  cbn [db update_completed assessment_responses] in Hclash.
  apply (Hclash r Hin); [congruence|]. now rewrite Hq.
Qed.

Lemma resubmission_refused_witness :
  fst (assessment_submit toy_platform Example.srv 30%Z Example.submit1
         Example.world3)
  = match validateToken toy_platform Example.srv
            (submit_token Example.submit1) with
    | Respond status error => SubmitError status error
    | Next _ => SubmitError 500 INTERNAL_ERROR
    end
  /\ db (snd (assessment_submit toy_platform Example.srv 30%Z Example.submit1
                Example.world3))
     = db Example.world3.
Proof.
  apply (resubmission_refused toy_platform Example.srv 20%Z 30%Z
           Example.submit1 Example.submit1
           Example.world2 Example.world3 Example.world3
           {| questionId := "open_0"; entry_response := "Great listener" |}).
  - vm_compute. reflexivity.
  - intros r Hr. exact Hr.
  - reflexivity.
  - right. left. reflexivity.
  - right. left. reflexivity.
Defined.

(** ** The blind index on identifiers without nesting *)

Section FlatIdentifiers.
Import Json.

Lemma property_list_distinct (names seen : list string) :
  NoDup names -> (forall n, In n names -> ~ In n seen) ->
  property_list seen names = names.
Proof.
  revert seen. induction names as [|n names IH]; intros seen Hnd Hseen;
    [reflexivity|].
  simpl. inversion Hnd as [|? ? Hn Hnd']; subst.
  destruct (in_dec string_dec n seen) as [Hin|_].
  - exfalso. apply (Hseen n); [now left | exact Hin].
  - f_equal. apply IH; [exact Hnd'|].
    intros m Hm [<-|Hs]; [contradiction|].
    apply (Hseen m); [now right | exact Hs].
Qed.

Lemma serialize_scalar (K : option (list string)) (v : json) :
  scalar v -> SerializeJSONProperty K v = SerializeJSONProperty None v.
Proof. destruct v as [| | [|] | | |]; simpl; easy. Qed.

Lemma select_properties_map {A B : Type} (f : A -> B) (K : list string)
    (members : list (string * A)) :
  select_properties (Some K) (map (fun kv => (fst kv, f (snd kv))) members)
  = map (fun kv => (fst kv, f (snd kv))) (select_properties (Some K) members).
Proof.
  unfold select_properties. induction K as [|P K IH]; [reflexivity|].
  cbn [flat_map]. rewrite map_app, IH, get_property_map. f_equal.
  now destruct (get_property P members).
Qed.

Lemma select_properties_in {A : Type} (K : list string)
    (members : list (string * A)) (k : string) (x : A) :
  In (k, x) (select_properties (Some K) members)
  <-> In k K /\ get_property k members = Some x.
Proof.
  unfold select_properties. rewrite in_flat_map. split.
  - intros (P & HP & Hin). destruct (get_property P members) as [y|] eqn:E;
      [|destruct Hin]. destruct Hin as [[= <- <-]|[]]. now split.
  - intros [Hk Hget]. exists k. split; [exact Hk|]. rewrite Hget. now left.
Qed.

Lemma select_properties_keys {A : Type} (K : list string)
    (members : list (string * A)) :
  (forall k, In k K -> In k (map fst members)) ->
  map fst (select_properties (Some K) members) = K.
Proof.
  intros Hall. unfold select_properties.
  induction K as [|P K IH]; [reflexivity|].
  cbn [flat_map]. rewrite map_app, IH by (intros k Hk; apply Hall; now right).
  destruct (get_property P members) as [x|] eqn:E; [reflexivity|].
  exfalso. apply get_property_none in E. apply E, Hall. now left.
Qed.

(** The text hashed for a flat identifier is [JSON.stringify] of the
    identifier with its properties in the order of their names. *)
Lemma hashed_text_flat (members : list (string * json)) :
  NoDup (map fst members) ->
  Forall (fun kv => scalar (snd kv)) members ->
  hashed_text (JObj members)
  = Some (stringify
            (JObj (select_properties (Some (sort_keys (map fst members)))
                     members))).
Proof.
  intros Hnd Hflat. unfold hashed_text, stringify_with, stringify.
  cbn [Object_keys]. do 2 f_equal.
  assert (Hsorted : NoDup (sort_keys (map fst members))).
  { eapply Permutation_NoDup; [|exact Hnd].
    apply Permutation_sym, sort_by_perm. }
  rewrite property_list_distinct by (try exact Hsorted; intros n _ []).
  cbn [SerializeJSONProperty]. do 3 f_equal.
  assert (Hmap : map (fun kv => (fst kv,
                        SerializeJSONProperty
                          (Some (sort_keys (map fst members))) (snd kv))) members
                 = map (fun kv => (fst kv, SerializeJSONProperty None (snd kv)))
                     members).
  { apply map_ext_in. intros kv Hkv. f_equal.
    apply serialize_scalar. rewrite Forall_forall in Hflat. now apply Hflat. }
  rewrite Hmap, select_properties_map. reflexivity.
Qed.

(** Values whose numbers are finite and given by their normal decimals
    are told apart by their texts. *)
Lemma stringify_injective (a b : json) :
  wf a -> wf b -> representable Finite a -> representable Finite b ->
  stringify a = stringify b -> a = b.
Proof.
  intros Ha Hb Na Nb E. pose proof (parse_stringify Finite a Ha Na) as Pa.
  rewrite E, (parse_stringify Finite b Hb Nb) in Pa. now injection Pa.
Qed.

Lemma scalar_wf (v : json) : scalar v -> wf v.
Proof. destruct v as [| | [|] | | |]; simpl; easy. Qed.

Lemma scalar_representable (v : json) : scalar v -> representable Finite v.
Proof.
  destruct v as [| | [d|] | | |]; simpl; try easy. now intros ->.
Qed.

Lemma scalar_same (v : json) : scalar v -> same_value v v.
Proof. destruct v as [| | [|] | | |]; simpl; easy. Qed.

Lemma canonical_representable (members : list (string * json)) :
  Forall (fun kv => scalar (snd kv)) members ->
  representable Finite
    (JObj (select_properties (Some (sort_keys (map fst members))) members)).
Proof.
  intros Hflat. cbn [representable].
  assert (H : Forall (fun kv => representable Finite (snd kv))
                (select_properties (Some (sort_keys (map fst members))) members)).
  { apply Forall_forall. intros [k x] Hin.
    apply select_properties_in in Hin. destruct Hin as [_ Hget].
    apply get_property_in in Hget. rewrite Forall_forall in Hflat.
    apply scalar_representable. exact (Hflat (k, x) Hget). }
  induction H as [|kv l Hkv _ IH]; [exact I | split; assumption].
Qed.

Lemma canonical_wf (members : list (string * json)) :
  NoDup (map fst members) ->
  Forall (fun kv => scalar (snd kv)) members ->
  wf (JObj (select_properties (Some (sort_keys (map fst members))) members)).
Proof.
  intros Hnd Hflat. cbn [wf]. split.
  - rewrite select_properties_keys.
    + eapply Permutation_NoDup; [|exact Hnd]. apply Permutation_sym, sort_by_perm.
    + intros k Hk. now apply sort_by_in in Hk.
  - assert (H : Forall (fun kv => wf (snd kv))
                  (select_properties (Some (sort_keys (map fst members))) members)).
    { apply Forall_forall. intros [k x] Hin.
      apply select_properties_in in Hin. destruct Hin as [_ Hget].
      apply get_property_in in Hget. rewrite Forall_forall in Hflat.
      apply scalar_wf. exact (Hflat (k, x) Hget). }
    induction H as [|kv l Hkv _ IH]; [exact I | split; assumption].
Qed.

(** X13. On identifiers without nesting the blind index loses nothing:
    two such identifiers are hashed from the same text exactly when they
    are the same value up to the order of their properties. *)
Theorem flat_identifiers_distinguished (d1 d2 : json) :
  wf d1 -> wf d2 -> flat d1 -> flat d2 ->
  (hashed_text d1 = hashed_text d2 <-> same_value d1 d2)
  /\ forall C, createLeaderHash C d1
               = option_map (fun text => hex (sha256 C (utf8_encode text)))
                   (hashed_text d1).
Proof.
  intros Hwf1 Hwf2 Hflat1 Hflat2.
  destruct d1 as [| | | | |m1]; try contradiction.
  destruct d2 as [| | | | |m2]; try contradiction.
  cbn [flat] in Hflat1, Hflat2.
  destruct (wf_members _ Hwf1) as [Hnd1 _].
  destruct (wf_members _ Hwf2) as [Hnd2 _].
  split; [|intros C; reflexivity]. split.
  - rewrite !hashed_text_flat by assumption. intros Htext.
    assert (E : select_properties (Some (sort_keys (map fst m1))) m1
                = select_properties (Some (sort_keys (map fst m2))) m2).
    { enough (JObj (select_properties (Some (sort_keys (map fst m1))) m1)
              = JObj (select_properties (Some (sort_keys (map fst m2))) m2))
        by congruence.
      apply stringify_injective;
        try (now apply canonical_wf); try (now apply canonical_representable).
      congruence. }
    assert (Hkeys : sort_keys (map fst m1) = sort_keys (map fst m2)).
    { rewrite <- (select_properties_keys (sort_keys (map fst m1)) m1)
        by (intros k Hk; now apply sort_by_in in Hk).
      rewrite E. apply select_properties_keys.
      intros k Hk. now apply sort_by_in in Hk. }
    apply same_members_intro.
    + intros k. unfold sort_keys in Hkeys.
      rewrite <- (sort_by_in String.leb k (map fst m1)), Hkeys.
      apply sort_by_in.
    + intros k v Hin. exists v. split.
      * assert (H : In (k, v) (select_properties
                                 (Some (sort_keys (map fst m1))) m1)).
        { apply select_properties_in. split.
          - apply sort_by_in. apply in_map_iff. now exists (k, v).
          - now apply get_property_distinct. }
        rewrite E in H. now apply select_properties_in in H.
      * apply scalar_same. rewrite Forall_forall in Hflat1.
        exact (Hflat1 (k, v) Hin).
  - intros Hsame. unfold hashed_text.
    pose proof (same_value_keys _ _ Hsame Hwf1 Hwf2) as Hkeys.
    cbn [Object_keys] in *. unfold stringify_with. rewrite Hkeys.
    now rewrite (serialize_same_value _ _ _ Hsame).
Qed.

End FlatIdentifiers.

Lemma flat_identifiers_distinguished_witness :
  (hashed_text Example.leader = hashed_text Example.leader_reordered
   <-> same_value Example.leader Example.leader_reordered)
  /\ forall C, createLeaderHash C Example.leader
               = option_map (fun text => hex (sha256 C (utf8_encode text)))
                   (hashed_text Example.leader).
Proof.
  apply (flat_identifiers_distinguished Example.leader Example.leader_reordered).
  - simpl. repeat split; trivial.
    repeat constructor; simpl; intuition discriminate.
  - simpl. repeat split; trivial.
    repeat constructor; simpl; intuition discriminate.
  - simpl. repeat constructor.
  - simpl. repeat constructor.
Defined.

(** ** When a submission is accepted *)

Lemma insert_responses_succeeds (C : Platform) (srv : server) (now : timestamp)
    (aid : uuid) (entries : list response_entry) :
  length (EncryptionService.key (encryption srv)) = 32 ->
  forall w,
    In aid (map id (assessments (db w))) ->
    NoDup (map questionId entries) ->
    (forall r, In r (assessment_responses (db w)) -> assessment_id r = aid ->
               ~ In (question_id r) (map questionId entries)) ->
    (forall r, In r (assessment_responses (db w)) ->
               response_id r < uuid_counter w) ->
    exists w', insert_responses C srv now aid entries w = (Ok tt, w').
Proof.
  intros Hkey. induction entries as [|entry rest IH];
    intros w Haid Hnd Hclash Hfresh; [eexists; reflexivity|].
  cbn [insert_responses].
  assert (Hvalue : exists value e1,
             (if startsWith (questionId entry) "open_"
              then EncryptionService.encrypt C (encryption srv)
                     (JStr (entry_response entry)) (rng w)
              else (Ok (entry_response entry), rng w)) = (Ok value, e1)).
  { destruct (startsWith (questionId entry) "open_"); [|eauto].
    destruct (encrypt_envelope C (encryption srv) (JStr (entry_response entry))
                (rng w) Hkey) as (iv & salt & e1 & _ & _ & E).
    rewrite E. eauto. }
  destruct Hvalue as (value & e1 & ->).
  inversion Hnd as [|? ? Hnotin Hnd']; subst.
  assert (Hins : insert_response now aid (questionId entry) value (db w)
                   (uuid_counter w)
                 = Ok {| assessments := assessments (db w);
                         assessment_responses :=
                           assessment_responses (db w)
                           ++ [{| response_id := uuid_counter w;
                                  assessment_id := aid;
                                  question_id := questionId entry;
                                  response := value;
                                  response_created_at := now |}] |}).
  { unfold insert_response.
    assert (H1 : existsb (fun a => id a =? aid) (assessments (db w)) = true).
    { apply existsb_exists. apply in_map_iff in Haid.
      destruct Haid as (a & Ha & Hin). exists a. split; [exact Hin|].
      now apply Nat.eqb_eq. }
    assert (H2 : existsb (fun r => response_id r =? uuid_counter w)
                   (assessment_responses (db w)) = false).
    { apply existsb_all_false. intros r Hr. apply Nat.eqb_neq.
      specialize (Hfresh r Hr). lia. }
    assert (H3 : existsb (fun r => (assessment_id r =? aid)
                                   && String.eqb (question_id r) (questionId entry))
                   (assessment_responses (db w)) = false).
    { apply existsb_all_false. intros r Hr.
      destruct (assessment_id r =? aid) eqn:Ea; [|reflexivity].
      apply Nat.eqb_eq in Ea. cbn [andb]. apply String.eqb_neq.
      intros Hq. apply (Hclash r Hr Ea). left. now rewrite Hq. }
    rewrite H1, H2, H3. reflexivity. }
  rewrite Hins. apply IH; cbn [db uuid_counter assessments assessment_responses].
  - exact Haid.
  - exact Hnd'.
  - intros r Hr Hra Hin. apply in_app_or in Hr. destruct Hr as [Hr|[<-|[]]].
    + apply (Hclash r Hr Hra). now right.
    + cbn [question_id] in Hin. contradiction.
  - intros r Hr. apply in_app_or in Hr. destruct Hr as [Hr|[<-|[]]].
    + specialize (Hfresh r Hr). lia.
    + cbn [response_id]. lia.
Qed.

(** X14. With an accepted token, and every stored response identifier
    older than the next one generated, a submission is answered with
    success exactly in these cases.  Without an [assessmentId]: when the
    batch is empty.  With one: when it is the text of a uuid and the
    batch is empty, or the assessment exists, the batch names no
    question twice and none that is already stored for the assessment,
    and the database accepts its texts.  So an empty batch succeeds even
    for an identifier that names no assessment, and any batch fails for
    an identifier that is not the text of a uuid. *)
Theorem submit_accepted_iff (C : Platform) (srv : server) (keyText : string)
    (now : timestamp) (req : submit_body) (w : world) (passed : json) :
  EncryptionService.constructor (Some keyText) = Ok (encryption srv) ->
  validateToken C srv (body_token req) = Next passed ->
  (forall r, In r (assessment_responses (db w)) ->
             response_id r < uuid_counter w) ->
  fst (submit_route C srv now req w) = Submitted
  <-> match body_assessmentId req with
      | None => body_responses req = []
      | Some text =>
          match uuid_in C text with
          | None => False
          | Some aid =>
              body_responses req = []
              \/ (In aid (map id (assessments (db w)))
                  /\ NoDup (map questionId (body_responses req))
                  /\ Forall storable (body_responses req)
                  /\ forall r, In r (assessment_responses (db w)) ->
                       assessment_id r = aid ->
                       ~ In (question_id r)
                            (map questionId (body_responses req)))
          end
      end.
Proof.
  intros Hctor Htoken Hfresh.
  pose proof (constructor_key_length _ _ Hctor) as Hkey.
  unfold submit_route, uuid_parameter. rewrite Htoken.
  destruct (body_assessmentId req) as [text|].
  - destruct (uuid_in C text) as [aid|] eqn:Eid; [|split; [discriminate|easy]].
    cbn [update_completed_where].
    assert (Hids : map id (assessments (update_completed now aid (db w)))
                   = map id (assessments (db w))).
    { cbn [update_completed assessments]. rewrite map_map. apply map_ext.
      intros a. now destruct (id a =? aid). }
    split.
    + destruct (insert_entries C srv now (Some text) (body_responses req) _)
        as [[[]|err] w1] eqn:E; [|discriminate]. intros _.
      destruct (insert_entries_ok _ _ _ _ _ _ _ E) as [Hnil|[Hall _]];
        [now left|].
      rewrite (insert_entries_bound C srv now text aid _ Eid Hall) in E.
      destruct (insert_responses_ok _ _ _ _ _ _ _ E)
        as (_ & Hexists & Hnd & Hclash & _).
      destruct (body_responses req) as [|entry rest] eqn:Er; [now left|]. right.
      cbn [db] in Hexists, Hclash. repeat split; try assumption.
      destruct Hexists as (a & Ha & <-); [discriminate|].
      rewrite <- Hids. now apply in_map.
    + intros [Hempty|(Haid & Hnd & Hall & Hclash)].
      * rewrite Hempty. reflexivity.
      * rewrite (insert_entries_bound C srv now text aid _ Eid Hall).
        destruct (insert_responses_succeeds C srv now aid
                    (body_responses req) Hkey
                    {| db := update_completed now aid (db w);
                       uuid_counter := uuid_counter w; rng := rng w |})
          as (w1 & ->); cbn [db uuid_counter]; try assumption.
        -- now rewrite Hids.
        -- reflexivity.
  - cbn [update_completed_where].
    destruct (body_responses req) as [|entry rest]; [easy|].
    split; [|discriminate].
    destruct (insert_entries C srv now None (entry :: rest) _)
      as [[[]|err] w1] eqn:E; [|discriminate].
    destruct (insert_entries_ok _ _ _ _ _ _ _ E) as [Hnil|(_ & t & a & Ht & _)];
      discriminate.
Qed.

Lemma submit_accepted_iff_witness :
  fst (submit_route toy_platform Example.srv 20%Z Example.body1 Example.world2)
  = Submitted
  <-> match body_assessmentId Example.body1 with
      | None => body_responses Example.body1 = []
      | Some text =>
          match uuid_in toy_platform text with
          | None => False
          | Some aid =>
              body_responses Example.body1 = []
              \/ (In aid (map id (assessments (db Example.world2)))
                  /\ NoDup (map questionId (body_responses Example.body1))
                  /\ Forall storable (body_responses Example.body1)
                  /\ forall r, In r (assessment_responses (db Example.world2)) ->
                       assessment_id r = aid ->
                       ~ In (question_id r)
                            (map questionId (body_responses Example.body1)))
          end
      end.
Proof.
  apply (submit_accepted_iff toy_platform Example.srv Example.key_text 20%Z
           Example.body1 Example.world2 Example.rater1).
  - vm_compute. reflexivity.
  - vm_compute. reflexivity.
  - intros r Hr. vm_compute in Hr. destruct Hr.
Defined.

(** ** The client *)

Section ClientFacts.
Import Client.

Lemma set_property_names (key value : string) (object : list (string * string)) :
  forall k, In k (map fst (set_property key value object))
            <-> k = key \/ In k (map fst object).
Proof.
  induction object as [|[k0 v0] rest IH]; intros k; simpl.
  - intuition congruence.
  - destruct (String.eqb k0 key) eqn:E; simpl.
    + apply String.eqb_eq in E. subst. intuition congruence.
    + rewrite IH. intuition congruence.
Qed.

Lemma set_property_distinct (key value : string) (object : list (string * string)) :
  NoDup (map fst object) -> NoDup (map fst (set_property key value object)).
Proof.
  induction object as [|[k0 v0] rest IH]; intros Hnd; simpl.
  - constructor; [intros []|constructor].
  - inversion Hnd as [|? ? Hnotin Hnd']; subst.
    destruct (String.eqb k0 key) eqn:E; simpl.
    + now constructor.
    + constructor; [|now apply IH].
      rewrite set_property_names. intros [->|Hin]; [|contradiction].
      now rewrite String.eqb_refl in E.
Qed.

Lemma set_property_new (key value : string) (object : list (string * string)) :
  ~ In key (map fst object) ->
  set_property key value object = object ++ [(key, value)].
Proof.
  induction object as [|[k0 v0] rest IH]; intros Hnotin; simpl; [reflexivity|].
  destruct (String.eqb k0 key) eqn:E.
  - apply String.eqb_eq in E. exfalso. apply Hnotin. now left.
  - f_equal. apply IH. intros Hin. apply Hnotin. now right.
Qed.

Lemma record_answers_names (pairs object : list (string * string)) :
  forall k, In k (map fst (fold_left record_answer pairs object))
            <-> In k (map fst object) \/ In k (map fst pairs).
Proof.
  revert object. induction pairs as [|[q a] pairs IH]; intros object k; simpl.
  - intuition.
  - rewrite IH. change (record_answer object (q, a)) with (set_property q a object).
    rewrite set_property_names. intuition congruence.
Qed.

Lemma record_answers_distinct (pairs object : list (string * string)) :
  NoDup (map fst object) ->
  NoDup (map fst (fold_left record_answer pairs object)).
Proof.
  revert object. induction pairs as [|p pairs IH]; intros object Hnd; simpl;
    [exact Hnd|].
  apply IH. now apply set_property_distinct.
Qed.

Lemma record_answers_new (pairs object : list (string * string)) :
  NoDup (map fst object ++ map fst pairs) ->
  fold_left record_answer pairs object = object ++ pairs.
Proof.
  revert object. induction pairs as [|[q a] pairs IH]; intros object Hnd; simpl.
  - now rewrite app_nil_r.
  - cbn [map fst] in Hnd.
    assert (Hq : ~ In q (map fst object)).
    { intros Hin. apply NoDup_remove_2 in Hnd. apply Hnd.
      apply in_or_app. now left. }
    change (record_answer object (q, a)) with (set_property q a object).
    rewrite (set_property_new _ _ _ Hq).
    rewrite IH.
    + now rewrite <- app_assoc.
    + rewrite map_app. cbn [map fst]. rewrite <- app_assoc. exact Hnd.
Qed.

Lemma combine_names {A B : Type} (ks : list A) (vs : list B) :
  length ks = length vs -> map fst (combine ks vs) = ks.
Proof.
  revert vs. induction ks as [|k ks IH]; intros [|v vs] Hl; try discriminate;
    [reflexivity|].
  simpl. f_equal. apply IH. simpl in Hl. lia.
Qed.

Variable f : framework.
Variable rater_token : option string.

Lemma skipn_identifiers (k : nat) (q : question) :
  nth_error (allQuestions f) k = Some q ->
  skipn k (map question_ident (allQuestions f))
  = question_ident q :: skipn (S k) (map question_ident (allQuestions f)).
Proof.
  generalize (allQuestions f). intros qs. revert k.
  induction qs as [|q0 qs IH]; intros [|k] H; try discriminate.
  - injection H as ->. reflexivity.
  - simpl in H. exact (IH k H).
Qed.

(** Before the last question the answers are collected and nothing is
    sent. *)
Lemma answer_advances (answers : list string) :
  forall st,
    currentQuestion st + length answers < length (allQuestions f) ->
    exists st',
      answer f rater_token st answers = Advance st'
      /\ currentQuestion st' = currentQuestion st + length answers.
Proof.
  induction answers as [|a rest IH]; intros st Hlen.
  - exists st. split; [reflexivity|]. simpl. lia.
  - cbn [answer length] in *. unfold handleResponse.
    destruct (nth_error (allQuestions f) (currentQuestion st)) as [q|] eqn:Eq.
    2:{ apply nth_error_None in Eq. lia. }
    assert (Hlt : (Z.of_nat (currentQuestion st)
                   <? Z.of_nat (length (allQuestions f)) - 1)%Z = true).
    { apply Z.ltb_lt. lia. }
    rewrite Hlt.
    match goal with |- context [answer f rater_token ?s rest] =>
      destruct (IH s) as (st' & -> & Hcur) end.
    + cbn [currentQuestion]. lia.
    + exists st'. split; [reflexivity|]. cbn [currentQuestion] in Hcur. lia.
Qed.

(** The answer to the last question sends what was collected. *)
Lemma answer_posts (answers : list string) :
  forall st,
    answers <> [] ->
    currentQuestion st + length answers = length (allQuestions f) ->
    exists st',
      answer f rater_token st answers
      = Post {| post_token := rater_token;
                post_assessmentId := assessmentId st;
                post_responses :=
                  map as_entry
                    (fold_left record_answer
                       (combine (skipn (currentQuestion st)
                                   (map question_ident (allQuestions f)))
                                answers)
                       (responses st)) |}
             st'.
Proof.
  induction answers as [|a rest IH]; intros st Hne Hlen; [congruence|].
  cbn [answer length] in *. unfold handleResponse.
  destruct (nth_error (allQuestions f) (currentQuestion st)) as [q|] eqn:Eq.
  2:{ apply nth_error_None in Eq. lia. }
  rewrite (skipn_identifiers _ _ Eq).
  destruct rest as [|b rest].
  - assert (Hlt : (Z.of_nat (currentQuestion st)
                   <? Z.of_nat (length (allQuestions f)) - 1)%Z = false).
    { apply Z.ltb_ge. simpl in Hlen. lia. }
    rewrite Hlt. eexists. cbn [combine fold_left].
    destruct (skipn (S (currentQuestion st))
                (map question_ident (allQuestions f))); reflexivity.
  - assert (Hlt : (Z.of_nat (currentQuestion st)
                   <? Z.of_nat (length (allQuestions f)) - 1)%Z = true).
    { apply Z.ltb_lt. simpl in Hlen. lia. }
    rewrite Hlt.
    match goal with |- context [answer f rater_token ?s (b :: rest)] =>
      destruct (IH s) as (st' & ->) end.
    + discriminate.
    + cbn [currentQuestion]. simpl in *. lia.
    + exists st'. cbn [currentQuestion responses assessmentId combine fold_left].
      rewrite Nat.add_1_r. reflexivity.
Qed.

(** X15. The client sends one request, with the answer to the last
    question: until then every call of [handleResponse] only advances.
    The batch sent carries the rater token and the assessment, names each
    question identifier exactly once, whatever the answers, and when the
    question identifiers are pairwise distinct it is the list of the
    answers under their questions, in the order of the questions. *)
Theorem client_sends_every_answer (aid : uuid) (answers : list string) :
  answers <> [] ->
  length answers = length (allQuestions f) ->
  (forall given, length given < length (allQuestions f) ->
     exists st, answer f rater_token (started aid) given = Advance st)
  /\ exists batch st',
       answer f rater_token (started aid) answers
       = Post {| post_token := rater_token;
                 post_assessmentId := Some aid;
                 post_responses := batch |} st'
       /\ NoDup (map questionId batch)
       /\ (forall k, In k (map questionId batch)
                     <-> In k (map question_ident (allQuestions f)))
       /\ (NoDup (map question_ident (allQuestions f)) ->
           batch = map as_entry
                     (combine (map question_ident (allQuestions f)) answers)).
Proof.
  intros Hne Hlen. split.
  - intros given Hgiven.
    destruct (answer_advances given (started aid)) as (st & E & _);
      [exact Hgiven | eauto].
  - destruct (answer_posts answers (started aid) Hne) as (st' & E);
      [exact Hlen|].
    cbn [started currentQuestion responses assessmentId skipn] in E.
    eexists _, st'. split; [exact E|].
    assert (Hnames : forall pairs : list (string * string),
               map questionId (map as_entry pairs) = map fst pairs).
    { intros pairs. rewrite map_map. reflexivity. }
    assert (Hfst : map fst (combine (map question_ident (allQuestions f)) answers)
                   = map question_ident (allQuestions f)).
    { apply combine_names. rewrite length_map. lia. }
    rewrite Hnames. repeat split.
    + apply record_answers_distinct. constructor.
    + rewrite record_answers_names, Hfst. intros [[]|H]; exact H.
    + intros H. apply record_answers_names. right. now rewrite Hfst.
    + intros Hnd. rewrite record_answers_new; [reflexivity|].
      cbn [map app]. rewrite Hfst. exact Hnd.
Qed.

End ClientFacts.

Lemma client_sends_every_answer_witness :
  (forall given,
     length given < length (Client.allQuestions Client.assessmentFramework) ->
     exists st,
       Client.answer Client.assessmentFramework (Some Example.raterToken1)
         (Client.started 1) given = Client.Advance st)
  /\ exists batch st',
       Client.answer Client.assessmentFramework (Some Example.raterToken1)
         (Client.started 1) (repeat "4"%string 30 ++ ["Listens"; "Delegating"]%string)
       = Client.Post {| Client.post_token := Some Example.raterToken1;
                        Client.post_assessmentId := Some 1;
                        Client.post_responses := batch |} st'
       /\ NoDup (map questionId batch)
       /\ (forall k, In k (map questionId batch)
                     <-> In k (map Client.question_ident
                                 (Client.allQuestions Client.assessmentFramework)))
       /\ (NoDup (map Client.question_ident
                    (Client.allQuestions Client.assessmentFramework)) ->
           batch = map Client.as_entry
                     (combine (map Client.question_ident
                                 (Client.allQuestions Client.assessmentFramework))
                        (repeat "4"%string 30 ++ ["Listens"; "Delegating"]%string))).
Proof.
  apply (client_sends_every_answer Client.assessmentFramework
           (Some Example.raterToken1) 1
           (repeat "4"%string 30 ++ ["Listens"; "Delegating"]%string)).
  - discriminate.
  - vm_compute. reflexivity.
Defined.

(** ** The question identifiers *)

Section QuestionIdentifiers.
Import Client.

Lemma chars_append (a b : string) :
  list_ascii_of_string (a ++ b) = list_ascii_of_string a ++ list_ascii_of_string b.
Proof. induction a as [|c a IH]; simpl; [reflexivity | now rewrite IH]. Qed.

Lemma split_at_first {A : Type} (x : A) (l1 l2 r1 r2 : list A) :
  ~ In x l1 -> ~ In x l2 -> l1 ++ x :: r1 = l2 ++ x :: r2 ->
  l1 = l2 /\ r1 = r2.
Proof.
  revert l2. induction l1 as [|a l1 IH]; intros [|b l2] H1 H2 E; simpl in *.
  - injection E as ->. now split.
  - injection E as <- _. exfalso. apply H2. now left.
  - injection E as -> _. exfalso. apply H1. now left.
  - injection E as -> E. destruct (IH l2) as [-> ->]; auto.
Qed.

Lemma split_at_last {A : Type} (x : A) (l1 l2 r1 r2 : list A) :
  ~ In x r1 -> ~ In x r2 -> l1 ++ x :: r1 = l2 ++ x :: r2 ->
  l1 = l2 /\ r1 = r2.
Proof.
  intros H1 H2 E. apply (f_equal (@rev A)) in E.
  rewrite !rev_app_distr in E. cbn [rev] in E. rewrite <- !app_assoc in E.
  cbn [app] in E.
  apply split_at_first in E; try (rewrite <- in_rev; assumption).
  destruct E as [Er El]. split.
  - rewrite <- (rev_involutive l1), <- (rev_involutive l2). now f_equal.
  - rewrite <- (rev_involutive r1), <- (rev_involutive r2). now f_equal.
Qed.

Lemma number_text_injective (a b : Z) :
  (0 <= a)%Z -> (0 <= b)%Z -> number_text a = number_text b -> a = b.
Proof.
  intros _ _ E. unfold number_text in E.
  apply (f_equal list_ascii_of_string) in E.
  rewrite !list_ascii_of_string_of_list_ascii in E.
  apply integer_injective.
  destruct (Json.integer a) as [da|] eqn:Ea; [|discriminate Ea].
  destruct (Json.integer b) as [db|] eqn:Eb; [|discriminate Eb].
  apply number_chars_injective in E.
  unfold Json.integer in Ea, Eb. injection Ea as <-. injection Eb as <-.
  rewrite !normal_idem in E. now rewrite E.
Qed.

Lemma number_text_digits (n : Z) :
  (0 <= n)%Z -> ~ In "_"%char (list_ascii_of_string (number_text n)).
Proof.
  intros _. unfold number_text.
  rewrite list_ascii_of_string_of_list_ascii. intros Hin.
  destruct (Json.integer n) as [d|] eqn:E; [|discriminate E].
  pose proof (number_chars_alphabet d) as Hd.
  rewrite Forall_forall in Hd. destruct (Hd _ Hin) as [H|H].
  - apply H. reflexivity.
  - simpl in H. intuition discriminate.
Qed.

Lemma rating_ident_injective (p1 p2 : string) (n1 n2 : Z) :
  (0 <= n1)%Z -> (0 <= n2)%Z ->
  (p1 ++ "_" ++ number_text n1)%string = (p2 ++ "_" ++ number_text n2)%string ->
  p1 = p2 /\ n1 = n2.
Proof.
  intros H1 H2 E. apply (f_equal list_ascii_of_string) in E.
  rewrite !chars_append in E. cbn [list_ascii_of_string app] in E.
  apply split_at_last in E; try now apply number_text_digits.
  destruct E as [Ep En]. split.
  - rewrite <- (string_of_list_ascii_of_string p1),
            <- (string_of_list_ascii_of_string p2). now f_equal.
  - apply number_text_injective; trivial.
    rewrite <- (string_of_list_ascii_of_string (number_text n1)),
            <- (string_of_list_ascii_of_string (number_text n2)). now f_equal.
Qed.

Lemma indexOf_from_found (l : list string) (x : string) (i : Z) :
  In x l -> (i <= indexOf_from i l x < i + Z.of_nat (length l))%Z.
Proof.
  revert i. induction l as [|y l IH]; intros i Hin; [destruct Hin|].
  cbn [indexOf_from length]. destruct (String.eqb y x) eqn:E; [lia|].
  destruct Hin as [->|Hin]; [now rewrite String.eqb_refl in E|].
  specialize (IH (i + 1)%Z Hin). lia.
Qed.

Lemma indexOf_from_injective (l : list string) (x y : string) (i : Z) :
  In x l -> In y l -> indexOf_from i l x = indexOf_from i l y -> x = y.
Proof.
  revert i. induction l as [|z l IH]; intros i Hx Hy E; [destruct Hx|].
  cbn [indexOf_from] in E.
  destruct (String.eqb z x) eqn:Ex, (String.eqb z y) eqn:Ey.
  - apply String.eqb_eq in Ex, Ey. congruence.
  - exfalso. destruct Hy as [->|Hy]; [now rewrite String.eqb_refl in Ey|].
    pose proof (indexOf_from_found l y (i + 1)%Z Hy). lia.
  - exfalso. destruct Hx as [->|Hx]; [now rewrite String.eqb_refl in Ex|].
    pose proof (indexOf_from_found l x (i + 1)%Z Hx). lia.
  - destruct Hx as [->|Hx]; [now rewrite String.eqb_refl in Ex|].
    destruct Hy as [->|Hy]; [now rewrite String.eqb_refl in Ey|].
    exact (IH _ Hx Hy E).
Qed.

Lemma idents_split (f : framework) :
  map question_ident (allQuestions f)
  = flat_map rating_idents (practices f) ++ open_idents 0 (open_ended f).
Proof.
  unfold allQuestions. rewrite map_app. f_equal.
  - induction (practices f) as [|p ps IH]; [reflexivity|].
    cbn [flat_map]. rewrite map_app, IH. f_equal.
    unfold rating_idents. rewrite map_map. reflexivity.
  - unfold map_index. generalize 0%Z.
    induction (open_ended f) as [|q qs IH]; intros i; [reflexivity|].
    cbn [map_index_from map open_idents question_ident]. now rewrite IH.
Qed.

Lemma NoDup_map_on {A B : Type} (g : A -> B) (l : list A) :
  (forall x y, In x l -> In y l -> g x = g y -> x = y) ->
  NoDup l -> NoDup (map g l).
Proof.
  induction l as [|a l IH]; intros Hinj Hnd; [constructor|].
  inversion Hnd as [|? ? Hnotin Hnd']; subst. cbn [map]. constructor.
  - intros Hin. apply in_map_iff in Hin. destruct Hin as (b & E & Hb).
    apply Hnotin. rewrite (Hinj a b); [exact Hb | now left | now right | easy].
  - apply IH; [|exact Hnd']. intros x y Hx Hy. apply Hinj; now right.
Qed.

Lemma NoDup_app_intro {A : Type} (l1 l2 : list A) :
  NoDup l1 -> NoDup l2 -> (forall x, In x l1 -> ~ In x l2) -> NoDup (l1 ++ l2).
Proof.
  induction l1 as [|a l1 IH]; intros H1 H2 Hdis; [exact H2|].
  inversion H1 as [|? ? Hnotin H1']; subst. cbn [app]. constructor.
  - intros Hin. apply in_app_or in Hin. destruct Hin as [Hin|Hin];
      [contradiction|]. apply (Hdis a); [now left | exact Hin].
  - apply IH; trivial. intros x Hx. apply Hdis. now right.
Qed.

Lemma rating_idents_shape (p : practice) (k : string) :
  In k (rating_idents p) ->
  exists n, (0 <= n)%Z /\ k = (practice_id p ++ "_" ++ number_text n)%string.
Proof.
  unfold rating_idents. rewrite in_map_iff. intros (q & <- & Hq).
  exists (indexOf (questions p) q). split; [|reflexivity].
  pose proof (indexOf_from_found (questions p) q 0%Z Hq). unfold indexOf. lia.
Qed.

Lemma rating_idents_distinct (p : practice) :
  NoDup (rating_idents p) <-> NoDup (questions p).
Proof.
  split; [apply NoDup_map_inv|]. apply NoDup_map_on.
  intros x y Hx Hy E.
  pose proof (indexOf_from_found (questions p) x 0%Z Hx).
  pose proof (indexOf_from_found (questions p) y 0%Z Hy).
  apply rating_ident_injective in E; unfold indexOf; try lia.
  destruct E as [_ E]. exact (indexOf_from_injective _ _ _ _ Hx Hy E).
Qed.

Lemma rating_ident_not_open (pid rest : string) :
  startsWith (pid ++ "_") "open_" = false ->
  startsWith (pid ++ "_" ++ rest) "open_" = false.
Proof.
  unfold startsWith.
  destruct pid as [|c1 [|c2 [|c3 [|c4 [|c5 r]]]]]; cbn [append String.prefix];
    repeat match goal with
           | |- context [ascii_dec ?a ?b] => destruct (ascii_dec a b)
           end; try discriminate; try reflexivity; try (intros; assumption).
  destruct r; simpl; discriminate.
Qed.

Lemma open_ident_open (rest : string) :
  startsWith ("open_" ++ rest) "open_" = true.
Proof. unfold startsWith. destruct rest; reflexivity. Qed.

Lemma open_idents_shape (l : list string) (i : Z) (k : string) :
  In k (open_idents i l) ->
  exists n, (i <= n)%Z /\ k = ("open_" ++ number_text n)%string.
Proof.
  revert i. induction l as [|q l IH]; intros i Hin; [destruct Hin|].
  destruct Hin as [<-|Hin].
  - exists i. split; [lia | reflexivity].
  - destruct (IH _ Hin) as (n & Hn & ->). exists n. split; [lia | reflexivity].
Qed.

Lemma open_idents_distinct (l : list string) (i : Z) :
  (0 <= i)%Z -> NoDup (open_idents i l).
Proof.
  revert i. induction l as [|q l IH]; intros i Hi; [constructor|].
  cbn [open_idents]. constructor; [|apply IH; lia].
  intros Hin. apply open_idents_shape in Hin. destruct Hin as (n & Hn & E).
  injection E as E. apply number_text_injective in E; lia.
Qed.

Lemma flat_map_distinct_parts {A B : Type} (F : A -> list B) (l : list A) :
  NoDup (flat_map F l) -> Forall (fun x => NoDup (F x)) l.
Proof.
  induction l as [|a l IH]; intros H; constructor; cbn [flat_map] in H.
  - exact (NoDup_app_remove_r _ _ H).
  - apply IH. exact (NoDup_app_remove_l _ _ H).
Qed.

Lemma rating_idents_all_distinct (ps : list practice) :
  NoDup (map practice_id ps) ->
  Forall (fun p => NoDup (questions p)) ps ->
  NoDup (flat_map rating_idents ps).
Proof.
  induction ps as [|p ps IH]; intros Hids Hqs; [constructor|].
  inversion Hids as [|? ? Hnotin Hids']; subst.
  inversion Hqs as [|? ? Hp Hqs']; subst.
  cbn [flat_map]. apply NoDup_app_intro.
  - now apply rating_idents_distinct.
  - now apply IH.
  - intros k Hk Hin. apply in_flat_map in Hin. destruct Hin as (p' & Hp' & Hk').
    apply rating_idents_shape in Hk, Hk'.
    destruct Hk as (n & Hn & ->), Hk' as (n' & Hn' & E).
    apply rating_ident_injective in E; trivial. destruct E as [E _].
    apply Hnotin. rewrite E. now apply in_map.
Qed.

(** X16. The identifiers the client gives its questions.  When the
    practices have pairwise distinct identifiers, none of which is
    ["open"] or starts with ["open_"], the questions have pairwise
    distinct identifiers exactly when no practice lists the same text
    twice ([indexOf] gives a repeated text the position of its first
    occurrence), and the identifier of a question starts with ["open_"],
    the prefix that makes the server encrypt the answer, exactly when the
    question is open-ended. *)
Theorem question_identifiers (f : framework) :
  NoDup (map practice_id (practices f)) ->
  Forall (fun p => startsWith (practice_id p ++ "_") "open_" = false)
         (practices f) ->
  (NoDup (map question_ident (allQuestions f))
   <-> Forall (fun p => NoDup (questions p)) (practices f))
  /\ forall q, In q (allQuestions f) ->
       (startsWith (question_ident q) "open_" = true
        <-> question_type q = "open_ended"%string).
Proof.
  intros Hids Hopen. split.
  - rewrite idents_split. split.
    + intros Hnd. apply NoDup_app_remove_r in Hnd.
      apply flat_map_distinct_parts in Hnd.
      rewrite Forall_forall in *. intros p Hp.
      now apply rating_idents_distinct, Hnd.
    + intros Hqs. apply NoDup_app_intro.
      * now apply rating_idents_all_distinct.
      * now apply open_idents_distinct.
      * intros k Hk Hin. apply in_flat_map in Hk. destruct Hk as (p & Hp & Hk).
        apply rating_idents_shape in Hk. destruct Hk as (n & _ & ->).
        apply open_idents_shape in Hin. destruct Hin as (n' & _ & E).
        rewrite Forall_forall in Hopen.
        pose proof (rating_ident_not_open (practice_id p) (number_text n)
                      (Hopen p Hp)) as Hno.
        rewrite E, open_ident_open in Hno. discriminate Hno.
  - intros q Hq. unfold allQuestions in Hq. apply in_app_or in Hq.
    destruct Hq as [Hq|Hq].
    + apply in_flat_map in Hq. destruct Hq as (p & Hp & Hq).
      apply in_map_iff in Hq. destruct Hq as (text & <- & _).
      cbn [question_ident question_type]. rewrite Forall_forall in Hopen.
      rewrite (rating_ident_not_open _ _ (Hopen p Hp)).
      split; discriminate.
    + assert (Hshape : forall (l : list string) i,
                 In q (map_index_from i
                         (fun question index =>
                            {| question_ident := ("open_" ++ number_text index)%string;
                               question_practice := None;
                               question_text := question;
                               question_type := "open_ended" |}) l) ->
                 exists text index,
                   q = {| question_ident := ("open_" ++ number_text index)%string;
                          question_practice := None;
                          question_text := text;
                          question_type := "open_ended" |}).
      { induction l as [|x l IH]; intros i Hin; [destruct Hin|].
        destruct Hin as [<-|Hin]; [eauto | exact (IH _ Hin)]. }
      destruct (Hshape _ _ Hq) as (text & index & ->).
      cbn [question_ident question_type]. rewrite open_ident_open.
      split; reflexivity.
Qed.

End QuestionIdentifiers.

Lemma question_identifiers_witness :
  (NoDup (map Client.question_ident (Client.allQuestions Client.assessmentFramework))
   <-> Forall (fun p => NoDup (Client.questions p))
         (Client.practices Client.assessmentFramework))
  /\ forall q, In q (Client.allQuestions Client.assessmentFramework) ->
       (startsWith (Client.question_ident q) "open_" = true
        <-> Client.question_type q = "open_ended"%string).
Proof.
  apply (question_identifiers Client.assessmentFramework).
  - cbn [Client.assessmentFramework Client.practices map Client.practice_id].
    repeat constructor; simpl; intuition discriminate.
  - repeat constructor.
Defined.

(** ** The client's batch at the server *)


